(** * The middle-click radial overlay of TagStudio

    A shallow embedding of [tagstudio/qt/mixed/middle_click_overlay.py]
    (class [MiddleClickOverlay]) and of the animation and layout part of
    [tagstudio/qt/mixed/middle_click_demo.py] (class [MiddleClickDemo]).
    Further, the input handlers and the event loop of the demo, the tag
    options that [ItemThumb.on_middle_click] of
    [tagstudio/qt/mixed/item_thumb.py] builds for the overlay with the
    calls its callbacks make, and the tag options of the previews of
    [tagstudio/qt/mixed/middle_click_settings.py].

    Conventions of the embedding.
    - Python [float] values (times, durations, progress, angles) are exact
      rationals [Q]; rounding of binary64 arithmetic is not modelled.
      Statements about them use [==] ([Qeq]).
    - Python [int] values (pixel coordinates, sizes) are [Z]; [//] is
      [Z.div] (floor) and [int(f)] truncates toward zero.
    - [ZeroDivisionError] of a float division is [None] in the option
      monad; a handler that lets it escape returns [None].
    - A widget object is an entry of a heap [gmap nat Overlay]; the class
      attribute [MiddleClickOverlay._active_instance] is a field of the
      world.  Painting itself (colours, text) is not modelled, only the
      state that [paintEvent] reads and writes.
    - The library and the driver behind a thumbnail are a record of
      functions; a Python [set] of tag ids is a [gset Z]; what a callback
      does is the list of calls it makes on them. *)

From Stdlib Require Import Reals Lra.
From Stdlib Require Import ZArith QArith Qminmax Qround Lqa Lia Bool.
From stdpp Require Import base option list gmap strings.

Local Open Scope Z_scope.

(** ** Python numerics *)

Module Py.

(** The literal [1e-6]. *)
Definition eps : Q := 1 # 1000000.

(** [a / b] on floats: raises [ZeroDivisionError] when [b] is zero. *)
Definition truediv (a b : Q) : option Q :=
  if Qeq_bool b 0 then None else Some (a / b)%Q.

(** [int(f)]: truncation toward zero. *)
Definition int (q : Q) : Z :=
  if Qle_bool 0 q then Qfloor q else Qceiling q.

(** [pow(x, 3)]. *)
Definition pow3 (x : Q) : Q := (x * x * x)%Q.

(** [a < b] on floats. *)
Definition lt (a b : Q) : bool := negb (Qle_bool b a).

(** [x or d] for an [Optional[float]]: [None] and [0.0] are falsy. *)
Definition float_or (x : option Q) (d : Q) : Q :=
  match x with
  | Some v => if Qeq_bool v 0 then d else v
  | None => d
  end.

(** [math.pi], the binary64 nearest to the circle constant. *)
Definition math_pi : Q := 884279719003555 # 281474976710656.

(** [dist > limit] for [dist = (dx*dx + dy*dy) ** 0.5] with integers
    [dx], [dy] and an integer [limit], decided on the squares. *)
Definition hypot_gt (dx dy limit : Z) : bool :=
  if limit <? 0 then true else limit * limit <? dx * dx + dy * dy.

End Py.

(** ** The Qt value types the overlay uses *)

Module Qt.

Record QPoint : Type := mkPoint { x : Z; y : Z }.

(** [QRect(x, y, w, h)]. *)
Record QRect : Type := mkRect { left : Z; top : Z; width : Z; height : Z }.

Definition right (r : QRect) : Z := left r + width r - 1.
Definition bottom (r : QRect) : Z := top r + height r - 1.

Definition QPoint_isNull (p : QPoint) : bool := (x p =? 0) && (y p =? 0).

(** Truthiness of an [Optional[QPoint]] attribute: [None] is falsy, and
    the binding's boolean cast of a [QPoint] is [not isNull()]. *)
Definition QPoint_bool (p : option QPoint) : bool :=
  match p with
  | None => false
  | Some q => negb (QPoint_isNull q)
  end.

Definition QRect_isNull (r : QRect) : bool :=
  (right r =? left r - 1) && (bottom r =? top r - 1).

(** [QRect::contains(p)] (edges included), as Qt 6 computes it: a
    rectangle of negative width spans the columns [right + 1 .. left - 1],
    one of negative height the rows [bottom + 1 .. top - 1]. *)
Definition contains (r : QRect) (p : QPoint) : bool :=
  if QRect_isNull r then false
  else
    let '(l, rr) := if right r <? left r - 1 then (right r + 1, left r - 1)
                    else (left r, right r) in
    let '(t, b) := if bottom r <? top r - 1 then (bottom r + 1, top r - 1)
                   else (top r, bottom r) in
    negb ((x p <? l) || (rr <? x p)) && negb ((y p <? t) || (b <? y p)).

(** [mapFromGlobal] of a top-level window whose geometry is [geo]. *)
Definition mapFromGlobal (geo : QRect) (p : QPoint) : QPoint :=
  mkPoint (x p - left geo) (y p - top geo).

Inductive MouseButton : Type := LeftButton | RightButton | MiddleButton.

End Qt.

Import Qt.

(** ** Data of the overlay *)

(** An option's callback: an opaque closure, known by an identifier and by
    whether calling it raises. *)
Record Callback : Type := mkCallback { cb_id : nat; cb_raises : bool }.

(** An entry of [self.options]: [(label, callback)]; the optional style
    metadata only selects colours and is left out. *)
Record MenuOption : Type := mkOption { label : string; callback : option Callback }.

(** An entry of [self.effects] (a dict in the source). *)
Record Effect : Type := mkEffect {
  e_center : QPoint;
  e_angle : Q;
  e_text : string;
  e_start : Q;
  e_progress : Q;
  e_radius : Z;
  e_target_w : Z;
  e_target_h : Z
}.

Definition set_progress (p : Q) (e : Effect) : Effect :=
  mkEffect (e_center e) (e_angle e) (e_text e) (e_start e) p
           (e_radius e) (e_target_w e) (e_target_h e).

(** The attributes of a [MiddleClickOverlay] instance, with the part of the
    widget state that the methods read: its geometry, whether it is shown,
    and whether each of its two timers is active. *)
Record Overlay : Type := mkOverlay {
  options : list MenuOption;
  center : option QPoint;
  _center_global : option QPoint;
  effects : list Effect;
  anim_timer_active : bool;
  anim_in_duration : Q;
  anim_out_duration : Q;
  anim_enabled : bool;
  anim_out_enabled : bool;
  _closing : bool;
  _closing_start : option Q;
  _hit_regions : list (QRect * nat);
  leave_timer_active : bool;
  _leave_distance : Z;
  geometry : QRect;
  visible : bool
}.

Definition set_effects (v : list Effect) (o : Overlay) : Overlay :=
  mkOverlay (options o) (center o) (_center_global o) v (anim_timer_active o)
    (anim_in_duration o) (anim_out_duration o) (anim_enabled o)
    (anim_out_enabled o) (_closing o) (_closing_start o) (_hit_regions o)
    (leave_timer_active o) (_leave_distance o) (geometry o) (visible o).

Definition set_hit_regions (v : list (QRect * nat)) (o : Overlay) : Overlay :=
  mkOverlay (options o) (center o) (_center_global o) (effects o)
    (anim_timer_active o) (anim_in_duration o) (anim_out_duration o)
    (anim_enabled o) (anim_out_enabled o) (_closing o) (_closing_start o) v
    (leave_timer_active o) (_leave_distance o) (geometry o) (visible o).

Definition set_anim_timer (v : bool) (o : Overlay) : Overlay :=
  mkOverlay (options o) (center o) (_center_global o) (effects o) v
    (anim_in_duration o) (anim_out_duration o) (anim_enabled o)
    (anim_out_enabled o) (_closing o) (_closing_start o) (_hit_regions o)
    (leave_timer_active o) (_leave_distance o) (geometry o) (visible o).

Definition set_leave_timer (v : bool) (o : Overlay) : Overlay :=
  mkOverlay (options o) (center o) (_center_global o) (effects o)
    (anim_timer_active o) (anim_in_duration o) (anim_out_duration o)
    (anim_enabled o) (anim_out_enabled o) (_closing o) (_closing_start o)
    (_hit_regions o) v (_leave_distance o) (geometry o) (visible o).

Definition set_closing (v : bool) (start : option Q) (o : Overlay) : Overlay :=
  mkOverlay (options o) (center o) (_center_global o) (effects o)
    (anim_timer_active o) (anim_in_duration o) (anim_out_duration o)
    (anim_enabled o) (anim_out_enabled o) v start (_hit_regions o)
    (leave_timer_active o) (_leave_distance o) (geometry o) (visible o).

Definition set_visible (v : bool) (o : Overlay) : Overlay :=
  mkOverlay (options o) (center o) (_center_global o) (effects o)
    (anim_timer_active o) (anim_in_duration o) (anim_out_duration o)
    (anim_enabled o) (anim_out_enabled o) (_closing o) (_closing_start o)
    (_hit_regions o) (leave_timer_active o) (_leave_distance o) (geometry o) v.

(** [setGeometry(geo)] followed by the two assignments to [self.center]
    and [self._center_global]. *)
Definition set_placement (geo : QRect) (c cg : QPoint) (o : Overlay) : Overlay :=
  mkOverlay (options o) (Some c) (Some cg) (effects o)
    (anim_timer_active o) (anim_in_duration o) (anim_out_duration o)
    (anim_enabled o) (anim_out_enabled o) (_closing o) (_closing_start o)
    (_hit_regions o) (leave_timer_active o) (_leave_distance o) geo (visible o).

(** [MiddleClickOverlay.__init__]: the attribute values of a new instance. *)
Definition init_overlay (opts : list MenuOption) : Overlay :=
  mkOverlay opts None None [] false (35 # 100) (12 # 100) true true
    false None [] false 220 (mkRect 0 0 0 0) false.

(** What the program writes to its logger. *)
Inductive LogEntry : Type :=
| LogShowAt (self : nat) (global_point : QPoint) (options_len : nat)
| LogOptionClicked (self idx : nat) (lbl : string)
| LogCallbackFailed (self : nat)
| LogClose (self : nat).

(** The process: the class attribute, the live objects, the log, and the
    callbacks invoked so far as [(instance, option index, callback id)],
    most recent first. *)
Record World : Type := mkWorld {
  _active_instance : option nat;
  objs : gmap nat Overlay;
  log : list LogEntry;
  calls : list (nat * nat * nat)
}.

Definition put (self : nat) (o : Overlay) (w : World) : World :=
  mkWorld (_active_instance w) (<[self := o]> (objs w)) (log w) (calls w).

Definition add_log (l : LogEntry) (w : World) : World :=
  mkWorld (_active_instance w) (objs w) (l :: log w) (calls w).

Definition add_call (c : nat * nat * nat) (w : World) : World :=
  mkWorld (_active_instance w) (objs w) (log w) (c :: calls w).

Definition set_active (a : option nat) (w : World) : World :=
  mkWorld a (objs w) (log w) (calls w).

(** The C library behind [math.cos], [math.sin] and [math.atan2]: an
    interface, since nothing below depends on how they are computed. *)
Class Libm : Type := mkLibm {
  math_cos : Q -> Q;
  math_sin : Q -> Q;
  math_atan2 : Q -> Q -> Q
}.

(** ** The methods of [MiddleClickOverlay] *)

Section Methods.

Context `{Libm}.

(** *** show_at: the angles and the effects *)

(** [baseline = math.atan2(widget_cy - center.y(), widget_cx - center.x())]. *)
Definition baseline (geo : QRect) (c : QPoint) : Q :=
  let widget_cx := (inject_Z (width geo) / 2)%Q in
  let widget_cy := (inject_Z (height geo) / 2)%Q in
  math_atan2 (widget_cy - inject_Z (y c))%Q (widget_cx - inject_Z (x c))%Q.

(** One element of the list comprehension
    [baseline - sector / 2 + (sector * i / (count - 1))]. *)
Definition angle_at (base : Q) (count i : nat) : Q :=
  let sector := Py.math_pi in
  (base - sector / 2
     + (sector * inject_Z (Z.of_nat i) / inject_Z (Z.of_nat count - 1)))%Q.

(** [angles], for [count = max(1, len(self.options))]. *)
Definition angles (base : Q) (count : nat) : list Q :=
  if (count =? 1)%nat then [base]
  else map (angle_at base count) (seq 0 count).

(** The dict built for one option; [t] is the value of [time.time()]
    read while building it. *)
Definition new_effect (c : QPoint) (opt : MenuOption) (angle t : Q) : Effect :=
  mkEffect (mkPoint (x c) (y c)) angle (label opt) t 0 18 100 36.

(** [for opt, angle in zip(self.options, angles)], the [i]-th pass
    reading the clock as [clock i]. *)
Fixpoint build_effects (c : QPoint) (clock : nat -> Q) (i : nat)
         (opts : list MenuOption) (angs : list Q) : list Effect :=
  match opts, angs with
  | opt :: opts', a :: angs' =>
      new_effect c opt a (clock i) :: build_effects c clock (S i) opts' angs'
  | _, _ => []
  end.

(** *** paintEvent: progress and rectangle of one effect *)

(** The branch of [paintEvent] that computes [prog]; the second
    component tells whether the branch sets [still_running]. *)
Definition effect_prog (o : Overlay) (now : Q) (e : Effect) : option (Q * bool) :=
  let elapsed := (now - e_start e)%Q in
  if _closing o then
    if negb (anim_out_enabled o) then Some (0%Q, false)
    else
      let closing_elapsed := (now - Py.float_or (_closing_start o) now)%Q in
      q ← Py.truediv closing_elapsed (Qmax Py.eps (anim_out_duration o));
      let t_out := Qmin 1 q in
      Some (Py.pow3 (Qmax 0 (1 - t_out)), Py.lt t_out 1)
  else
    if anim_enabled o then
      q ← Py.truediv elapsed (Qmax Py.eps (anim_in_duration o));
      let t := Qmin 1 q in
      let prog := (1 - Py.pow3 (1 - t))%Q in
      Some (prog, Py.lt prog 1)
    else Some (1%Q, false).

(** [base_dist = min(max(80, min(rw, rh) // 4), 140)]. *)
Definition base_dist (o : Overlay) : Z :=
  Z.min (Z.max 80 (Z.min (width (geometry o)) (height (geometry o)) / 4)) 140.

(** The rectangle [QRect(x, y, w, h)] drawn for an effect at [prog]. *)
Definition effect_rect (o : Overlay) (prog : Q) (e : Effect) : QRect :=
  let dist := (inject_Z (base_dist o) * prog)%Q in
  let cx := Py.int (inject_Z (x (e_center e)) + math_cos (e_angle e) * dist)%Q in
  let cy := Py.int (inject_Z (y (e_center e)) + math_sin (e_angle e) * dist)%Q in
  let w := Py.int (inject_Z (e_target_w e) * ((6 # 10) + (4 # 10) * prog))%Q in
  let h := Py.int (inject_Z (e_target_h e) * ((6 # 10) + (4 # 10) * prog))%Q in
  mkRect (cx - w / 2) (cy - h / 2) w h.

(** The loop [for idx, e in enumerate(list(self.effects))]: the effects
    with their new progress, the hit regions in the order appended, and
    [still_running]. *)
Fixpoint paint_loop (o : Overlay) (now : Q) (idx : nat) (es : list Effect)
  : option (list Effect * list (QRect * nat) * bool) :=
  match es with
  | [] => Some ([], [], false)
  | e :: rest =>
      '(prog, running) ← effect_prog o now e;
      '(es', hits, running') ← paint_loop o now (S idx) rest;
      Some (set_progress prog e :: es',
            (effect_rect o prog e, idx) :: hits,
            running || running')
  end.

(** *** Closing *)

(** [closeEvent]. *)
Definition closeEvent (self : nat) (w : World) : World :=
  match objs w !! self with
  | None => w
  | Some o =>
      let o' := set_leave_timer false
                  (set_anim_timer false (set_hit_regions [] (set_effects [] o))) in
      let w1 := put self o' (add_log (LogClose self) w) in
      if decide (_active_instance w1 = Some self) then set_active None w1 else w1
  end.

(** [QWidget.close()]: deliver the close event, which is accepted, then
    hide the widget.  The event is delivered on every call.  (Qt delivers
    none to a window that was shown and has been closed since: there the
    call changes nothing, where this definition runs [closeEvent] once
    more, which stops the timers and writes its log line again.) *)
Definition QWidget_close (self : nat) (w : World) : World :=
  let w1 := closeEvent self w in
  match objs w1 !! self with
  | None => w1
  | Some o => put self (set_visible false o) w1
  end.

(** [_start_close]; [now] is the value of [time.time()]. *)
Definition _start_close (self : nat) (now : Q) (w : World) : World :=
  match objs w !! self with
  | None => w
  | Some o =>
      if _closing o then w
      else if negb (anim_out_enabled o) || negb (anim_enabled o)
      then QWidget_close self w
      else
        let o1 := set_closing true (Some now) o in
        let o2 := if negb (anim_timer_active o1) then set_anim_timer true o1 else o1 in
        put self o2 w
  end.

(** *** show_at *)

Definition show_at (self : nat) (global_point : QPoint) (geo : QRect)
           (clock : nat -> Q) (w : World) : World :=
  let w1 := match _active_instance w with
            | Some a => if decide (a = self) then w else QWidget_close a w
            | None => w
            end in
  match objs w1 !! self with
  | None => w1
  | Some o =>
      let local := mapFromGlobal geo global_point in
      let c := mkPoint (x local) (y local) in
      let o1 := set_placement geo c (mkPoint (x global_point) (y global_point)) o in
      let count := Nat.max 1 (length (options o1)) in
      let angs := angles (baseline geo c) count in
      let es := build_effects c clock 0 (options o1) angs in
      let o2 := if anim_enabled o1
                then set_anim_timer true (set_effects es o1)
                else set_effects (map (set_progress 1) es) o1 in
      let w2 := add_log (LogShowAt self global_point (length (options o1))) w1 in
      let o3 := set_leave_timer true o2 in
      put self (set_visible true o3) (set_active (Some self) w2)
  end.

(** *** Timer and input handlers *)

(** [_on_anim_tick]: [self.update()] only schedules a repaint. *)
Definition _on_anim_tick (self : nat) (w : World) : World :=
  match objs w !! self with
  | None => w
  | Some o =>
      match effects o with
      | [] => put self (set_anim_timer false o) w
      | _ => w
      end
  end.

(** The first entry of [self._hit_regions] whose rectangle contains [p]
    and whose index is a valid option index. *)
Fixpoint find_hit (n_options : nat) (p : QPoint) (hits : list (QRect * nat))
  : option nat :=
  match hits with
  | [] => None
  | (rect, idx) :: rest =>
      if contains rect p && (idx <? n_options)%nat then Some idx
      else find_hit n_options p rest
  end.

(** Calling [cb()] inside [try ... except Exception]. *)
Definition invoke (self idx : nat) (cb : Callback) (w : World) : World :=
  let w1 := add_call (self, idx, cb_id cb) w in
  if cb_raises cb then add_log (LogCallbackFailed self) w1 else w1.

(** [mouseReleaseEvent]; [(fx, fy)] is [event.position()] and [now] the
    clock read by [_start_close]. *)
Definition mouseReleaseEvent (self : nat) (button : MouseButton) (fx fy : Q)
           (now : Q) (w : World) : World :=
  match objs w !! self with
  | None => w
  | Some o =>
      match button with
      | LeftButton =>
          let p := mkPoint (Py.int fx) (Py.int fy) in
          match find_hit (length (options o)) p (_hit_regions o) with
          | Some idx =>
              match options o !! idx with
              | Some opt =>
                  let w1 := add_log (LogOptionClicked self idx (label opt)) w in
                  let w2 := match callback opt with
                            | Some cb => invoke self idx cb w1
                            | None => w1
                            end in
                  QWidget_close self w2
              | None => w
              end
          | None => _start_close self now w
          end
      | _ => w
      end
  end.

(** [paintEvent]; [now] is the value of [time.time()]. *)
Definition paintEvent (self : nat) (now : Q) (w : World) : option World :=
  match objs w !! self with
  | None => Some w
  | Some o =>
      if negb (QPoint_bool (center o)) then Some w
      else
        '(es, hits, still_running) ← paint_loop o now 0 (effects o);
        let o1 := set_hit_regions hits (set_effects es o) in
        if negb still_running && anim_timer_active o1 then
          let w1 := put self (set_anim_timer false o1) w in
          if _closing o1 then Some (QWidget_close self w1) else Some w1
        else Some (put self o1 w)
  end.

(** [_on_leave_check]; [cur] is [QCursor.pos()]. *)
Definition _on_leave_check (self : nat) (cur : QPoint) (now : Q) (w : World) : World :=
  match objs w !! self with
  | None => w
  | Some o =>
      match _center_global o with
      | Some cg =>
          if negb (QPoint_bool (Some cg)) then w
          else
            let dx := x cur - x cg in
            let dy := y cur - y cg in
            if Py.hypot_gt dx dy (_leave_distance o)
            then _start_close self now w
            else w
      | None => w
      end
  end.

(** *** The event loop *)

Inductive Event : Type :=
| EvShowAt (self : nat) (global_point : QPoint) (geo : QRect) (clock : nat -> Q)
| EvAnimTick (self : nat)
| EvPaint (self : nat) (now : Q)
| EvMouseRelease (self : nat) (button : MouseButton) (fx fy : Q) (now : Q)
| EvLeaveCheck (self : nat) (cur : QPoint) (now : Q)
| EvClose (self : nat).

Definition step (ev : Event) (w : World) : option World :=
  match ev with
  | EvShowAt self gp geo clock => Some (show_at self gp geo clock w)
  | EvAnimTick self => Some (_on_anim_tick self w)
  | EvPaint self now => paintEvent self now w
  | EvMouseRelease self b fx fy now => Some (mouseReleaseEvent self b fx fy now w)
  | EvLeaveCheck self cur now => Some (_on_leave_check self cur now w)
  | EvClose self => Some (QWidget_close self w)
  end.

Fixpoint run (evs : list Event) (w : World) : option World :=
  match evs with
  | [] => Some w
  | ev :: rest => w' ← step ev w; run rest w'
  end.

End Methods.

(** ** The animation and layout of [MiddleClickDemo] *)

Module Demo.

(** An entry of [self.effects]; the keys [reverse_start] and
    [reverse_progress_start] exist only after [_start_reverse_close]. *)
Record Effect : Type := mkEffect {
  e_center : QPoint;
  e_angle : Q;
  e_text : string;
  e_start : Q;
  e_progress : Q;
  e_radius : Z;
  e_target_w : Z;
  e_target_h : Z;
  e_reverse_start : option Q;
  e_reverse_progress_start : option Q
}.

Definition set_progress (p : Q) (e : Effect) : Effect :=
  mkEffect (e_center e) (e_angle e) (e_text e) (e_start e) p (e_radius e)
           (e_target_w e) (e_target_h e) (e_reverse_start e)
           (e_reverse_progress_start e).

Definition set_reverse (t p : Q) (e : Effect) : Effect :=
  mkEffect (e_center e) (e_angle e) (e_text e) (e_start e) (e_progress e)
           (e_radius e) (e_target_w e) (e_target_h e) (Some t) (Some p).

(** The attributes of a [MiddleClickDemo] that the animation uses, with
    the widget's size and whether its timer is active. *)
Record Demo : Type := mkDemo {
  center_circle : option (QPoint * Z);
  anim_enabled : bool;
  effects : list Effect;
  anim_timer_active : bool;
  anim_in_duration : Q;
  anim_out_duration : Q;
  _hit_regions : list (QRect * nat);
  widget_width : Z;
  widget_height : Z
}.

Definition set_effects (v : list Effect) (d : Demo) : Demo :=
  mkDemo (center_circle d) (anim_enabled d) v (anim_timer_active d)
         (anim_in_duration d) (anim_out_duration d) (_hit_regions d)
         (widget_width d) (widget_height d).

Definition set_hit_regions (v : list (QRect * nat)) (d : Demo) : Demo :=
  mkDemo (center_circle d) (anim_enabled d) (effects d) (anim_timer_active d)
         (anim_in_duration d) (anim_out_duration d) v
         (widget_width d) (widget_height d).

Definition set_anim_timer (v : bool) (d : Demo) : Demo :=
  mkDemo (center_circle d) (anim_enabled d) (effects d) v
         (anim_in_duration d) (anim_out_duration d) (_hit_regions d)
         (widget_width d) (widget_height d).

Definition set_center_circle (v : option (QPoint * Z)) (d : Demo) : Demo :=
  mkDemo v (anim_enabled d) (effects d) (anim_timer_active d)
         (anim_in_duration d) (anim_out_duration d) (_hit_regions d)
         (widget_width d) (widget_height d).

Section Methods.

Context `{Libm}.

(** [_start_reverse_close]; [now] is the value of [time.time()]. *)
Definition _start_reverse_close (now : Q) (d : Demo) : Demo :=
  if negb (anim_enabled d)
  then set_center_circle None (set_hit_regions [] (set_effects [] d))
  else
    let es := map (fun e => set_reverse now (e_progress e) e) (effects d) in
    let d1 := set_effects es d in
    if negb (anim_timer_active d1) then set_anim_timer true d1 else d1.

(** The branch of [paintEvent] that computes [prog]; the second
    component tells whether the branch sets [still_running]. *)
Definition effect_prog (d : Demo) (now : Q) (e : Effect) : option (Q * bool) :=
  let elapsed := (now - e_start e)%Q in
  match e_reverse_start e with
  | None =>
      if negb (anim_enabled d) then Some (1%Q, false)
      else
        q ← Py.truediv elapsed (Qmax Py.eps (anim_in_duration d));
        let t := Qmin 1 q in
        let prog := (1 - Py.pow3 (1 - t))%Q in
        Some (prog, Py.lt prog 1)
  | Some reverse_start =>
      let rev_elapsed := (now - reverse_start)%Q in
      let start_p := match e_reverse_progress_start e with
                     | Some p => p
                     | None => e_progress e
                     end in
      if anim_enabled d then
        q ← Py.truediv rev_elapsed (Qmax Py.eps (anim_out_duration d));
        let frac := Qmin 1 q in
        let prog := Qmax 0 (start_p * (1 - frac)) in
        Some (prog, Py.lt 0 prog)
      else Some (0%Q, false)
  end.

Definition margin : Z := 12.

(** [base_dist = min(max(80, min(rw, rh) // 4), 120)]. *)
Definition base_dist (d : Demo) : Z :=
  Z.min (Z.max 80 (Z.min (widget_width d) (widget_height d) / 4)) 120.

(** [w] and [h] of the rectangle at [prog]. *)
Definition rect_w (prog : Q) (e : Effect) : Z :=
  Z.max 8 (Py.int (inject_Z (e_target_w e) * ((6 # 10) + (4 # 10) * prog))%Q).
Definition rect_h (prog : Q) (e : Effect) : Z :=
  Z.max 8 (Py.int (inject_Z (e_target_h e) * ((6 # 10) + (4 # 10) * prog))%Q).

(** The rectangle proposed along [angle]: [(x_test, y_test, w, h)]. *)
Definition rect_along (d : Demo) (prog : Q) (e : Effect) (angle : Q) : QRect :=
  let dist := (inject_Z (base_dist d) * prog)%Q in
  let cx := Py.int (inject_Z (x (e_center e)) + math_cos angle * dist)%Q in
  let cy := Py.int (inject_Z (y (e_center e)) + math_sin angle * dist)%Q in
  let w := rect_w prog e in
  let h := rect_h prog e in
  mkRect (cx - w / 2) (cy - h / 2) w h.

(** The test [out_of_bounds] on a proposed rectangle. *)
Definition out_of_bounds (d : Demo) (r : QRect) : bool :=
  (left r <? margin) || (top r <? margin)
  || (widget_width d - margin <? left r + width r)
  || (widget_height d - margin <? top r + height r).

(** The two lines [x_test = min(max(margin, x_test), rw - margin - w)]
    and the same for [y_test]. *)
Definition clamp (d : Demo) (r : QRect) : QRect :=
  mkRect (Z.min (Z.max margin (left r)) (widget_width d - margin - width r))
         (Z.min (Z.max margin (top r)) (widget_height d - margin - height r))
         (width r) (height r).

(** The rectangle [QRect(x, y, w, h)] drawn for an effect at [prog]. *)
Definition effect_rect (d : Demo) (prog : Q) (e : Effect) : QRect :=
  let r := rect_along d prog e (e_angle e) in
  if out_of_bounds d r
  then
    let new_angle := (e_angle e + Py.math_pi)%Q in
    let r' := clamp d (rect_along d prog e new_angle) in
    let cx := left r' + width r' / 2 in
    let cy := top r' + height r' / 2 in
    mkRect (cx - width r' / 2) (cy - height r' / 2) (width r') (height r')
  else r.

Fixpoint paint_loop (d : Demo) (now : Q) (idx : nat) (es : list Effect)
  : option (list Effect * list (QRect * nat) * bool) :=
  match es with
  | [] => Some ([], [], false)
  | e :: rest =>
      '(prog, running) ← effect_prog d now e;
      '(es', hits, running') ← paint_loop d now (S idx) rest;
      Some (set_progress prog e :: es',
            (effect_rect d prog e, idx) :: hits,
            running || running')
  end.

(** [any("reverse_start" in e for e in self.effects)]. *)
Definition any_reversed (es : list Effect) : bool :=
  existsb (fun e => match e_reverse_start e with Some _ => true | None => false end) es.

(** [paintEvent]; [now] is the value of [time.time()]. *)
Definition paintEvent (now : Q) (d : Demo) : option Demo :=
  '(es, hits, still_running) ← paint_loop d now 0 (effects d);
  let d1 := set_hit_regions hits (set_effects es d) in
  let d2 := if negb still_running && anim_timer_active d1
            then set_anim_timer false d1 else d1 in
  if negb still_running && any_reversed (effects d2)
  then Some (set_center_circle None (set_hit_regions [] (set_effects [] d2)))
  else Some d2.

End Methods.

End Demo.

(** ** The input handlers of [MiddleClickDemo] *)

Module DemoUI.

(** What the demo prints. *)
Inductive Output : Type :=
| PrintMiddleClick (px py : Z)
| PrintSelected (opt : string)
| PrintNativeSelected (opt : string).

(** A [MiddleClickDemo]: the attributes of the animation, modelled in
    [Demo], with the options, the auto-close settings, the native-menu
    switch and the lines printed so far, most recent first. *)
Record Widget : Type := mkWidget {
  anim : Demo.Demo;
  options : list string;
  auto_close_enabled : bool;
  auto_close_distance : Z;
  use_native_menu : bool;
  printed : list Output
}.

Definition set_anim (v : Demo.Demo) (d : Widget) : Widget :=
  mkWidget v (options d) (auto_close_enabled d) (auto_close_distance d)
           (use_native_menu d) (printed d).

Definition print (l : Output) (d : Widget) : Widget :=
  mkWidget (anim d) (options d) (auto_close_enabled d) (auto_close_distance d)
           (use_native_menu d) (l :: printed d).

(** [__init__], for a widget of the given size. *)
Definition init (rw rh : Z) : Widget :=
  mkWidget (Demo.mkDemo None true [] false (45 # 100) (1 # 10) [] rw rh)
           ["Option 1"; "Option 2"; "Option 3"; "Option 4"] true 200 false [].

(** The three statements [self.effects.clear()],
    [self._hit_regions.clear()], [self.center_circle = None]. *)
Definition clear_state (a : Demo.Demo) : Demo.Demo :=
  Demo.set_center_circle None (Demo.set_hit_regions [] (Demo.set_effects [] a)).

(** [if self.anim_enabled: self._start_reverse_close() else: <clear>],
    the way every handler closes the options. *)
Definition close_options (now : Q) (a : Demo.Demo) : Demo.Demo :=
  if Demo.anim_enabled a then Demo._start_reverse_close now a else clear_state a.

(** [_on_native_action]. *)
Definition _on_native_action (idx : nat) (d : Widget) : Widget :=
  let d1 := match options d !! idx with
            | Some opt => print (PrintNativeSelected opt) d
            | None => d
            end in
  set_anim (clear_state (anim d1)) d1.

(** [_on_anim_tick]. *)
Definition _on_anim_tick (d : Widget) : Widget :=
  match Demo.effects (anim d) with
  | [] => if Demo.anim_timer_active (anim d)
          then set_anim (Demo.set_anim_timer false (anim d)) d else d
  | _ => d
  end.

Definition set_anim_enabled_flag (v : bool) (a : Demo.Demo) : Demo.Demo :=
  Demo.mkDemo (Demo.center_circle a) v (Demo.effects a) (Demo.anim_timer_active a)
              (Demo.anim_in_duration a) (Demo.anim_out_duration a) (Demo._hit_regions a)
              (Demo.widget_width a) (Demo.widget_height a).

(** [_set_anim_enabled]. *)
Definition _set_anim_enabled (enabled : bool) (d : Widget) : Widget :=
  let a := set_anim_enabled_flag enabled (anim d) in
  if negb enabled then
    let a1 := Demo.set_effects (map (Demo.set_progress 1) (Demo.effects a)) a in
    set_anim (if Demo.anim_timer_active a1 then Demo.set_anim_timer false a1 else a1) d
  else
    match Demo.effects a with
    | [] => set_anim a d
    | _ => set_anim (if negb (Demo.anim_timer_active a)
                     then Demo.set_anim_timer true a else a) d
    end.

(** [_set_native_menu], [_set_auto_close], [_set_auto_close_distance]. *)
Definition _set_native_menu (enabled : bool) (d : Widget) : Widget :=
  mkWidget (anim d) (options d) (auto_close_enabled d) (auto_close_distance d)
           enabled (printed d).

Definition _set_auto_close (enabled : bool) (d : Widget) : Widget :=
  mkWidget (anim d) (options d) enabled (auto_close_distance d)
           (use_native_menu d) (printed d).

Definition _set_auto_close_distance (value : Z) (d : Widget) : Widget :=
  mkWidget (anim d) (options d) (auto_close_enabled d) value
           (use_native_menu d) (printed d).

(** [mouseReleaseEvent]; [(fx, fy)] is [event.position()] and [now] the
    clock read by [_start_reverse_close]. *)
Definition mouseReleaseEvent (button : MouseButton) (fx fy now : Q) (d : Widget) : Widget :=
  match button with
  | LeftButton =>
      let pos := mkPoint (Py.int fx) (Py.int fy) in
      let d1 := match find_hit (length (options d)) pos (Demo._hit_regions (anim d)) with
                | Some idx =>
                    match options d !! idx with
                    | Some opt => print (PrintSelected opt) d
                    | None => d
                    end
                | None => d
                end in
      set_anim (close_options now (anim d1)) d1
  | _ => d
  end.

(** [mouseMoveEvent]. *)
Definition mouseMoveEvent (fx fy now : Q) (d : Widget) : Widget :=
  if auto_close_enabled d then
    match Demo.center_circle (anim d) with
    | Some (c, _) =>
        let pos := mkPoint (Py.int fx) (Py.int fy) in
        let dx := x pos - x c in
        let dy := y pos - y c in
        if Py.hypot_gt dx dy (auto_close_distance d) then
          match Demo.effects (anim d) with
          | [] => d
          | _ => set_anim (close_options now (anim d)) d
          end
        else d
    | None => d
    end
  else d.

Section Press.

Context `{Libm}.

(** The dict built for one option by [mousePressEvent]. *)
Definition new_effect (pos : QPoint) (text : string) (angle t : Q) : Demo.Effect :=
  Demo.mkEffect (mkPoint (x pos) (y pos)) angle text t 0 18 84 36 None None.

Fixpoint build_effects (pos : QPoint) (clock : nat -> Q) (i : nat)
         (visible : list string) (angs : list Q) : list Demo.Effect :=
  match visible, angs with
  | text :: visible', a :: angs' =>
      new_effect pos text a (clock i) :: build_effects pos clock (S i) visible' angs'
  | _, _ => []
  end.

(** [mousePressEvent]; [choice] is the action the user triggers in the
    native menu, if that menu is shown and one is triggered. *)
Definition mousePressEvent (button : MouseButton) (fx fy : Q) (clock : nat -> Q)
           (choice : option nat) (d : Widget) : Widget :=
  match button with
  | MiddleButton =>
      let pos := mkPoint (Py.int fx) (Py.int fy) in
      if use_native_menu d then
        match choice with
        | Some i => _on_native_action i d
        | None => d
        end
      else
        let a := anim d in
        let d1 := print (PrintMiddleClick (x pos) (y pos)) d in
        let count := Nat.max 1 (length (options d)) in
        let geo := mkRect 0 0 (Demo.widget_width a) (Demo.widget_height a) in
        let angs := angles (baseline geo pos) count in
        let es := build_effects pos clock 0 (options d) angs in
        let a1 := Demo.set_hit_regions []
                    (Demo.set_effects es
                       (Demo.set_center_circle (Some (mkPoint (x pos) (y pos), 24)) a)) in
        let a2 := if Demo.anim_enabled a1
                  then (if negb (Demo.anim_timer_active a1)
                        then Demo.set_anim_timer true a1 else a1)
                  else Demo.set_effects (map (Demo.set_progress 1) es) a1 in
        set_anim a2 d1
  | _ => d
  end.

(** What the event loop delivers to the demo widget: the mouse events,
    the timer's [timeout], a paint at the time [now], and the signals of
    the three check boxes and of the spin box. *)
Inductive Event : Type :=
| EvPress (button : MouseButton) (fx fy : Q) (clock : nat -> Q) (choice : option nat)
| EvRelease (button : MouseButton) (fx fy now : Q)
| EvMove (fx fy now : Q)
| EvAnimTick
| EvPaint (now : Q)
| EvSetAnimEnabled (enabled : bool)
| EvSetNativeMenu (enabled : bool)
| EvSetAutoClose (enabled : bool)
| EvSetAutoCloseDistance (value : Z).

Definition step (ev : Event) (d : Widget) : option Widget :=
  match ev with
  | EvPress b fx fy clock choice => Some (mousePressEvent b fx fy clock choice d)
  | EvRelease b fx fy now => Some (mouseReleaseEvent b fx fy now d)
  | EvMove fx fy now => Some (mouseMoveEvent fx fy now d)
  | EvAnimTick => Some (_on_anim_tick d)
  | EvPaint now => a ← Demo.paintEvent now (anim d); Some (set_anim a d)
  | EvSetAnimEnabled enabled => Some (_set_anim_enabled enabled d)
  | EvSetNativeMenu enabled => Some (_set_native_menu enabled d)
  | EvSetAutoClose enabled => Some (_set_auto_close enabled d)
  | EvSetAutoCloseDistance value => Some (_set_auto_close_distance value d)
  end.

Fixpoint run (evs : list Event) (d : Widget) : option Widget :=
  match evs with
  | [] => Some d
  | ev :: rest => d' ← step ev d; run rest d'
  end.

End Press.

End DemoUI.

(** ** The tag options of [ItemThumb.on_middle_click] *)

Module Thumb.

(** A [Tag] of the library: the two attributes the code reads. *)
Record Tag : Type := mkTag { id : Z; name : string }.

(** What [lib.search_tags(None, limit=n)] does: it raises, or returns a
    value that is not a list, or returns a list of pages whose entries are
    tags or falsy values. *)
Inductive SearchResult : Type :=
| SearchRaises
| SearchOther
| SearchList (pages : list (list (option Tag))).

(** The library and driver as [on_middle_click] sees them:
    [lib.get_tag], [driver.get_recent_tags], [lib.search_tags], the tags
    of [lib.get_entry_full(item_id)] ([None] when that raises or finds
    nothing), and [driver.selected]. *)
Record Env : Type := mkEnv {
  get_tag : Z -> option Tag;
  get_recent_tags : Z -> list Z;
  search_tags : Z -> SearchResult;
  get_entry_tags : Z -> option (list Tag);
  selected : list Z
}.

(** [l[:k]]: a negative [k] counts from the end. *)
Definition slice_to {A : Type} (l : list A) (k : Z) : list A :=
  if (0 <=? k)%Z then take (Z.to_nat k) l
  else take (Z.to_nat (Z.of_nat (length l) + k)) l.

(** The flag [apply_to_selected], from the three settings and the two
    keyboard modifiers. *)
Definition apply_to_selected (cfg_apply cfg_ctrl cfg_shift have_ctrl have_shift : bool)
  : bool :=
  let flag := false in
  if cfg_apply then
    let flag := if cfg_ctrl && have_ctrl then true else flag in
    if cfg_shift && have_shift then true else flag
  else flag.

(** [existing_tag_ids]. *)
Definition existing_tag_ids (env : Env) (apply : bool) (item_id : Z) : gset Z :=
  if apply then ∅
  else if (item_id =? 0)%Z then ∅
  else match get_entry_tags env item_id with
       | Some tags => list_to_set (map id tags)
       | None => ∅
       end.

(** The loop over [recent_tag_ids]; the state is [(tag_objs, seen)]. *)
Fixpoint recent_loop (env : Env) (apply : bool) (existing : gset Z) (recent : list Z)
         (tag_objs : list (Z * Tag)) (seen : gset Z) : list (Z * Tag) * gset Z :=
  match recent with
  | [] => (tag_objs, seen)
  | tid :: rest =>
      if bool_decide (tid ∈ seen) then recent_loop env apply existing rest tag_objs seen
      else
        match get_tag env tid with
        | None => recent_loop env apply existing rest tag_objs seen
        | Some t =>
            if negb apply && bool_decide (id t ∈ existing)
            then recent_loop env apply existing rest tag_objs seen
            else recent_loop env apply existing rest (tag_objs ++ [(tid, t)]) ({[tid]} ∪ seen)
        end
  end.

(** [direct]: the first page of a list result, nothing otherwise. *)
Definition direct_of (r : SearchResult) : list (option Tag) :=
  match r with
  | SearchList (page :: _) => page
  | _ => []
  end.

(** The loop over [direct], left by [break] once [limit] tags are there. *)
Fixpoint fallback_loop (apply : bool) (existing : gset Z) (limit : Z)
         (direct : list (option Tag)) (tag_objs : list (Z * Tag)) (seen : gset Z)
  : list (Z * Tag) * gset Z :=
  match direct with
  | [] => (tag_objs, seen)
  | t :: rest =>
      if (limit <=? Z.of_nat (length tag_objs))%Z then (tag_objs, seen)
      else
        match t with
        | None => fallback_loop apply existing limit rest tag_objs seen
        | Some t =>
            if bool_decide (id t ∈ seen)
            then fallback_loop apply existing limit rest tag_objs seen
            else if negb apply && bool_decide (id t ∈ existing)
            then fallback_loop apply existing limit rest tag_objs seen
            else fallback_loop apply existing limit rest
                               (tag_objs ++ [(id t, t)]) ({[id t]} ∪ seen)
        end
  end.

(** The [try] block that fills up from [search_tags]; a raising search
    leaves [tag_objs] as it is. *)
Definition fallback (env : Env) (apply : bool) (existing : gset Z) (limit : Z)
           (tag_objs : list (Z * Tag)) (seen : gset Z) : list (Z * Tag) * gset Z :=
  if (Z.of_nat (length tag_objs) <? limit)%Z then
    match search_tags env (limit * 2) with
    | SearchRaises => (tag_objs, seen)
    | r => fallback_loop apply existing limit (direct_of r) tag_objs seen
    end
  else (tag_objs, seen).

(** [tag_objs] as it stands when the options are built. *)
Definition tag_objs (env : Env) (apply : bool) (item_id limit : Z) : list (Z * Tag) :=
  let existing := existing_tag_ids env apply item_id in
  let '(objs1, seen1) :=
    recent_loop env apply existing (get_recent_tags env limit) [] ∅ in
  (fallback env apply existing limit objs1 seen1).1.

(** What an option's callback does when called: the closure holds the tag
    id, and for a bulk application its own copy of the targets. *)
Inductive Action : Type :=
| AddOne (tag_id : Z)
| AddMulti (tag_id : Z) (targets : list Z).

(** An entry of [overlay_opts]: [(tag.name, cb, tag)]. *)
Record TagOption : Type := mkTagOption {
  opt_name : string;
  opt_action : Action;
  opt_tag : Tag
}.

Definition action_tag (a : Action) : Z :=
  match a with
  | AddOne t => t
  | AddMulti t _ => t
  end.

(** [overlay_opts]. *)
Definition overlay_opts (env : Env) (apply : bool) (item_id limit : Z) : list TagOption :=
  let targets_snapshot := if apply then selected env else [item_id] in
  map (fun '(tid, tag) =>
         mkTagOption (name tag)
                     (if apply then AddMulti tid targets_snapshot else AddOne tid) tag)
      (slice_to (tag_objs env apply item_id limit) limit).

(** The two badge types that a tag can stand for. *)
Inductive Badge : Type := FAVORITE | ARCHIVED.

(** The calls on the driver, the library and the main window that adding
    a tag makes.  Each is made inside a [try] of its own, so it is made
    whether or not an earlier one raised; the driver is taken to have the
    methods the code looks up with [hasattr]. *)

Inductive Call : Type :=
| UiAddTags (entry_id tag_id : Z)
| LibAddTagsToEntries (entry_id tag_id : Z)
| RecordTagUsage (tag_id : Z)
| SetSelection
| EmitBadgeSignals (tag_id : Z)
| UpdateBadges (badge : Badge) (origin_id : option Z).

Section Adding.

(** The two constants [TAG_FAVORITE] and [TAG_ARCHIVED]. *)
Variables TAG_FAVORITE TAG_ARCHIVED : Z.

(** The block guarded by [if tag_id in (TAG_FAVORITE, TAG_ARCHIVED)]. *)
Definition badge_calls (tag_id : Z) (origin_id : option Z) : list Call :=
  if (tag_id =? TAG_FAVORITE)%Z || (tag_id =? TAG_ARCHIVED)%Z
  then [UpdateBadges (if (tag_id =? TAG_FAVORITE)%Z then FAVORITE else ARCHIVED) origin_id]
  else [].

(** [_add_tag_and_record]; [item_id] is [None] or an integer. *)
Definition _add_tag_and_record (env : Env) (item_id : option Z) (tag_id : Z) : list Call :=
  match item_id with
  | None => []
  | Some i =>
      if (i =? -1)%Z then []
      else
        [UiAddTags i tag_id; LibAddTagsToEntries i tag_id; RecordTagUsage tag_id]
        ++ (if bool_decide (i ∈ selected env) then [SetSelection] else [])
        ++ [EmitBadgeSignals tag_id]
        ++ badge_calls tag_id (Some i)
  end.

(** [_add_tag_and_record_multi]. *)
Definition _add_tag_and_record_multi (env : Env) (tag_id : Z) (targets : list Z)
  : list Call :=
  match targets with
  | [] => []
  | _ =>
      map (fun entry_id => UiAddTags entry_id tag_id) targets
      ++ map (fun entry_id => LibAddTagsToEntries entry_id tag_id) targets
      ++ [RecordTagUsage tag_id]
      ++ (if existsb (fun entry_id => bool_decide (entry_id ∈ selected env)) targets
          then [SetSelection] else [])
      ++ [EmitBadgeSignals tag_id]
      ++ badge_calls tag_id None
  end.

(** What calling an option's callback does. *)
Definition run_action (env : Env) (item_id : Z) (a : Action) : list Call :=
  match a with
  | AddOne t => _add_tag_and_record env (Some item_id) t
  | AddMulti t targets => _add_tag_and_record_multi env t targets
  end.

End Adding.

End Thumb.

(** ** The tag options of the settings dialog's previews *)

Module Settings.

Import Thumb.

(** Which calls of a preview raise: [driver.get_recent_tags(lim)], by
    its argument, and [driver.lib.get_tag(tid)], by its argument.  The
    driver is taken to have the methods the code looks up with
    [hasattr]. *)
Record Faults : Type := mkFaults {
  recent_raises : Z -> bool;
  tag_raises : Z -> bool
}.

Definition no_faults : Faults := mkFaults (fun _ => false) (fun _ => false).

(** [recent_ids], with the [except] clause that resets it to [[]]. *)
Definition recent_ids (env : Env) (faults : Faults) (lim : Z) : list Z :=
  if recent_raises faults lim then [] else get_recent_tags env lim.

(** The loop over [recent_ids] in [_on_preview] and in
    [_on_preview_image_click], inside [try: ... except Exception: pass]:
    a raising [get_tag] leaves the loop with the tags collected so far. *)
Fixpoint recent_loop (env : Env) (faults : Faults) (recent : list Z)
         (tag_objs : list (Z * Tag)) (seen : gset Z) : list (Z * Tag) * gset Z :=
  match recent with
  | [] => (tag_objs, seen)
  | tid :: rest =>
      if bool_decide (tid ∈ seen) then recent_loop env faults rest tag_objs seen
      else if tag_raises faults tid then (tag_objs, seen)
      else
        match get_tag env tid with
        | None => recent_loop env faults rest tag_objs seen
        | Some t =>
            recent_loop env faults rest (tag_objs ++ [(tid, t)]) ({[tid]} ∪ seen)
        end
  end.

Fixpoint fallback_loop (lim : Z) (direct : list (option Tag))
         (tag_objs : list (Z * Tag)) (seen : gset Z) : list (Z * Tag) * gset Z :=
  match direct with
  | [] => (tag_objs, seen)
  | t :: rest =>
      if (lim <=? Z.of_nat (length tag_objs))%Z then (tag_objs, seen)
      else
        match t with
        | None => fallback_loop lim rest tag_objs seen
        | Some t =>
            if bool_decide (id t ∈ seen) then fallback_loop lim rest tag_objs seen
            else fallback_loop lim rest (tag_objs ++ [(id t, t)]) ({[id t]} ∪ seen)
        end
  end.

Definition fallback (env : Env) (lim : Z) (tag_objs : list (Z * Tag)) (seen : gset Z)
  : list (Z * Tag) * gset Z :=
  if (Z.of_nat (length tag_objs) <? lim)%Z then
    match search_tags env (lim * 2) with
    | SearchRaises => (tag_objs, seen)
    | r => fallback_loop lim (direct_of r) tag_objs seen
    end
  else (tag_objs, seen).

(** [tag_objs] of a preview. *)
Definition tag_objs (env : Env) (faults : Faults) (lim : Z) : list (Z * Tag) :=
  let '(objs1, seen1) := recent_loop env faults (recent_ids env faults lim) [] ∅ in
  (fallback env lim objs1 seen1).1.

(** The closure [make_cb(tag_id, eid)], as the calls it makes. *)
Definition make_cb (tag_id eid : Z) : list Call :=
  [UiAddTags eid tag_id; LibAddTagsToEntries eid tag_id; RecordTagUsage tag_id].

(** An entry of [opts]: [(tag.name, make_cb(tid, entry_id), tag)] for a
    tag, [(lbl, lambda: None)] for a placeholder. *)
Definition PreviewOption : Type := (string * list Call * option Tag)%type.

(** The options built from the tags, for the entry [eid]. *)
Definition tag_opts (env : Env) (faults : Faults) (lim eid : Z) : list PreviewOption :=
  map (fun '(tid, tag) => (name tag, make_cb tid eid, Some tag))
      (slice_to (tag_objs env faults lim) lim).

Definition sample_labels : list string :=
  ["One"; "Two"; "Three"; "Four"; "Five"; "Extra"].

(** [opts] of [_on_preview]: [entry_id] is the entry that was sampled, if
    any, and [has_driver] tells whether [driver] is not [None]. *)
Definition preview_opts (env : Env) (faults : Faults) (has_driver : bool)
           (entry_id : option Z) (lim : Z) : list PreviewOption :=
  match entry_id with
  | Some eid =>
      if has_driver then tag_opts env faults lim eid
      else map (fun lbl => (lbl, [], None)) (slice_to sample_labels lim)
  | None => map (fun lbl => (lbl, [], None)) (slice_to sample_labels lim)
  end.

(** [opts] of [_on_preview_image_click], which returns before building
    any when no entry is found ([None]).  Without a driver no recent tag
    is asked for and the search raises inside its [try], so that no tag
    is collected. *)
Definition click_opts (env : Env) (faults : Faults) (has_driver : bool)
           (entry_id : option Z) (lim : Z) : option (list PreviewOption) :=
  match entry_id with
  | Some eid => if has_driver then Some (tag_opts env faults lim eid) else Some []
  | None => None
  end.

End Settings.

(** ** Running the model *)

(** A coarse rational [Libm] (truncated series), used only to evaluate the
    model on concrete inputs; every theorem below holds for any [Libm]. *)
Module Coarse.

Definition cos (a : Q) : Q := (1 - a * a / 2 + a * a * a * a / 24)%Q.

Definition sin (a : Q) : Q := (a - a * a * a / 6 + a * a * a * a * a / 120)%Q.

Definition atan (z : Q) : Q := (z / (1 + (28 # 100) * z * z))%Q.

Definition atan2 (b a : Q) : Q :=
  if Qeq_bool a 0 then
    if Qle_bool 0 b then (if Qeq_bool b 0 then 0 else Py.math_pi / 2)%Q
    else (- (Py.math_pi / 2))%Q
  else if Qle_bool 0 a then atan (b / a)
  else if Qle_bool 0 b then (atan (b / a) + Py.math_pi)%Q
  else (atan (b / a) - Py.math_pi)%Q.

Definition libm : Libm := mkLibm cos sin atan2.

End Coarse.

(** Sample data: two options, the second of which has a failing callback;
    two freshly constructed overlays in an otherwise empty process. *)
Module Sample.

Definition opts : list MenuOption :=
  [ mkOption "red" (Some (mkCallback 10 false));
    mkOption "blue" (Some (mkCallback 11 true)) ].

Definition world0 : World :=
  mkWorld None (<[1%nat := init_overlay opts]> (<[0%nat := init_overlay opts]> ∅)) [] [].

Definition window : QRect := mkRect 100 100 640 480.

Definition click : QPoint := mkPoint 300 250.

(** Every effect is built at time 0. *)
Definition clock (_ : nat) : Q := 0%Q.

(** The object of instance [i]. *)
Definition overlay_of (w : World) (i : nat) : Overlay :=
  default (init_overlay []) (objs w !! i).

(** Instance 0 shown at [click]. *)
Definition shown : World := show_at (H := Coarse.libm) 0 click window clock world0.

(** The first frame, painted at time 0: both rectangles sit on the click
    point, whatever the angles. *)
Definition first_frame : World :=
  default shown (run (H := Coarse.libm) [EvPaint 0 0] shown).

(** A frame painted after the entry animation has ended. *)
Definition settled : World :=
  default shown (run (H := Coarse.libm) [EvPaint 0 (1 # 2)] shown).

(** A click 5 pixels from the corner of the window. *)
Definition corner_click : QPoint := mkPoint 105 105.

(** A demo widget with one effect that stands at progress 0.4, mid-entry,
    5 pixels from the corner. *)
Definition demo_effect : Demo.Effect :=
  Demo.mkEffect (mkPoint 5 5) 0 "Option 1" 0 (2 # 5) 18 84 36 None None.

Definition demo0 : Demo.Demo :=
  Demo.mkDemo (Some (mkPoint 5 5, 24)) true [demo_effect] true
              (45 # 100) (1 # 10) [] 640 480.

(** The demo after closing began at time 1/10. *)
Definition demo_closing : Demo.Demo :=
  Demo._start_reverse_close (1 # 10) demo0.

End Sample.

(** Further sample data: an overlay without options, one whose
    animations are off, and the sample overlay on its way out. *)
Module Cases.

Definition empty_world : World :=
  mkWorld None (<[0%nat := init_overlay []]> ∅) [] [].

Definition static_overlay : Overlay :=
  mkOverlay Sample.opts None None [] false (35 # 100) (12 # 100) false true
    false None [] false 220 (mkRect 0 0 0 0) false.

Definition static_world : World :=
  mkWorld None (<[0%nat := static_overlay]> ∅) [] [].

(** The settled sample overlay after a click away from its options at
    time 6/10. *)
Definition leaving : World :=
  mouseReleaseEvent 0 LeftButton 5 5 (6 # 10) Sample.settled.

(** The sample overlay shown at the global point (0, 0), the origin of
    the primary screen, in a window whose top-left corner lies at
    (-320, -240): its local centre is (320, 240). *)
Definition at_origin : World :=
  show_at (H := Coarse.libm) 0 (mkPoint 0 0) (mkRect (-320) (-240) 640 480)
          Sample.clock Sample.world0.



Definition instant_overlay : Overlay :=
  mkOverlay Sample.opts None None [] false 0 (12 # 100) true true
    false None [] false 220 (mkRect 0 0 0 0) false.

Definition instant : World :=
  show_at (H := Coarse.libm) 0 Sample.click Sample.window Sample.clock
          (mkWorld None (<[0%nat := instant_overlay]> ∅) [] []).

(** A demo widget of the minimum size, one with two options, and the
    first after a middle press 5 pixels from its corner. *)
Definition demo_widget : DemoUI.Widget := DemoUI.init 640 480.

Definition demo_two : DemoUI.Widget :=
  DemoUI.mkWidget (DemoUI.anim demo_widget) ["red"; "blue"] true 200 false [].

Definition demo_pressed : DemoUI.Widget :=
  DemoUI.mousePressEvent (H := Coarse.libm) MiddleButton 5 5 Sample.clock None demo_widget.

(** A library of four tags; the recent list names tag 5 twice and a tag
    that does not exist; entry 3 carries tag 7; entries 3 and 4 are
    selected. *)
Definition tags : list Thumb.Tag :=
  [Thumb.mkTag 1 "Favorite"; Thumb.mkTag 5 "cat"; Thumb.mkTag 7 "dog";
   Thumb.mkTag 9 "bird"].

Definition env : Thumb.Env :=
  Thumb.mkEnv
    (fun tid => find (fun t => Thumb.id t =? tid)%Z tags)
    (fun _ => [5; 7; 5; 42]%Z)
    (fun _ => Thumb.SearchList [[Some (Thumb.mkTag 1 "Favorite"); None;
                                 Some (Thumb.mkTag 5 "cat"); Some (Thumb.mkTag 9 "bird")]])
    (fun i => if (i =? 3)%Z then Some [Thumb.mkTag 7 "dog"] else None)
    [3; 4]%Z.

End Cases.

(** ** Notions used to state the properties *)

(** The time fraction as the code computes it:
    [min(1.0, elapsed / max(1e-6, duration))]. *)
Definition time_fraction (elapsed duration : Q) : Q :=
  Qmin 1 (elapsed / Qmax Py.eps duration).


(** Cubic ease-out, [1 - (1 - t)^3]. *)
Definition ease_out_cubic (t : Q) : Q := (1 - (1 - t) * (1 - t) * (1 - t))%Q.

(** The exit curve of the overlay, [max(0, 1 - t)^3]. *)
Definition exit_cubic (t : Q) : Q :=
  (Qmax 0 (1 - t) * Qmax 0 (1 - t) * Qmax 0 (1 - t))%Q.

(** Linear decay from a captured value, [start_p * (1 - t)]. *)
Definition linear_decay (start_p t : Q) : Q := (start_p * (1 - t))%Q.

(** The progress values stored in the effects of instance [self]. *)
Definition progress_of (w : World) (self : nat) : list Q :=
  match objs w !! self with
  | Some o => map e_progress (effects o)
  | None => []
  end.

(** The hit regions of instance [self]. *)
Definition hit_regions_of (w : World) (self : nat) : list (QRect * nat) :=
  match objs w !! self with
  | Some o => _hit_regions o
  | None => []
  end.

(** Instance [self] is shown. *)
Definition is_visible (w : World) (self : nat) : bool :=
  match objs w !! self with
  | Some o => visible o
  | None => false
  end.

(** The callbacks that instance [self] has invoked. *)
Definition calls_of (self : nat) (w : World) : list (nat * nat * nat) :=
  filter (fun c => c.1.1 = self) (calls w).

(** No [show_at] of instance [self] among the events: they all belong to
    the lifetime that the last [show_at] began. *)
Definition same_lifetime (self : nat) (evs : list Event) : bool :=
  forallb (fun ev => match ev with
                     | EvShowAt i _ _ _ => negb (i =? self)%nat
                     | _ => true
                     end) evs.

(** At most one instance is shown, and it is the registered one. *)
Definition single_live (w : World) : Prop :=
  forall i o, objs w !! i = Some o -> visible o = true -> _active_instance w = Some i.

(** A rectangle lies inside a [rw] x [rh] container shrunk by [m] pixels
    on every side. *)
Definition within (m rw rh : Z) (r : QRect) : Prop :=
  m <= left r /\ m <= top r /\ left r + width r <= rw - m /\ top r + height r <= rh - m.


(** What [close()] leaves of an overlay. *)
Definition closed (o : Overlay) : Overlay :=
  set_visible false
    (set_leave_timer false (set_anim_timer false (set_hit_regions [] (set_effects [] o)))).

(** Two states of one overlay that agree on everything but the effects,
    the hit regions and the animation timer. *)
Definition same_settings (o o' : Overlay) : Prop :=
  options o' = options o /\ center o' = center o
  /\ _center_global o' = _center_global o
  /\ anim_in_duration o' = anim_in_duration o
  /\ anim_out_duration o' = anim_out_duration o
  /\ anim_enabled o' = anim_enabled o /\ anim_out_enabled o' = anim_out_enabled o
  /\ _closing o' = _closing o /\ _closing_start o' = _closing_start o
  /\ leave_timer_active o' = leave_timer_active o
  /\ _leave_distance o' = _leave_distance o
  /\ geometry o' = geometry o /\ visible o' = visible o.

(** The effect carries the values captured by [_start_reverse_close] at
    time [rs]: it decays from [start_p]. *)
Definition captured (rs start_p : Q) (e : Demo.Effect) : Prop :=
  Demo.e_reverse_start e = Some rs /\ Demo.e_reverse_progress_start e = Some start_p.

(** The world in which [close()] is called after option [idx] was
    selected: the click is logged and the callback, if any, invoked. *)
Definition selected (self idx : nat) (opt : MenuOption) (w : World) : World :=
  match callback opt with
  | Some cb => invoke self idx cb (add_log (LogOptionClicked self idx (label opt)) w)
  | None => add_log (LogOptionClicked self idx (label opt)) w
  end.

(** Instance [i] has nothing left to hit. *)
Definition spent (i : nat) (w : World) : Prop :=
  match objs w !! i with
  | Some o => effects o = [] /\ _hit_regions o = []
  | None => True
  end.

(** The footprint of a handler of instance [i] other than [show_at]: it
    touches no other instance; it does not make [i] visible, and leaves
    the registration alone unless it hides [i]; it invokes at most one
    callback, of [i], and only from a hit region, leaving none behind. *)
Definition local_step (i : nat) (w w' : World) : Prop :=
  (forall j, j <> i -> objs w' !! j = objs w !! j)
  /\ (objs w !! i = None -> objs w' !! i = None /\ calls w' = calls w)
  /\ (forall o, objs w !! i = Some o ->
        exists o',
          objs w' !! i = Some o'
          /\ (visible o' = true ->
              visible o = true /\ _active_instance w' = _active_instance w)
          /\ (effects o = [] -> _hit_regions o = [] ->
              effects o' = [] /\ _hit_regions o' = [] /\ calls w' = calls w)
          /\ (calls w' = calls w
              \/ exists idx cb, calls w' = (i, idx, cb) :: calls w
                                /\ effects o' = [] /\ _hit_regions o' = []))
  /\ (_active_instance w' = _active_instance w
      \/ (_active_instance w = Some i /\ _active_instance w' = None)).

(** The instance an event is delivered to. *)
Definition target (ev : Event) : nat :=
  match ev with
  | EvShowAt i _ _ _ | EvAnimTick i | EvPaint i _ | EvMouseRelease i _ _ _ _
  | EvLeaveCheck i _ _ | EvClose i => i
  end.

Definition is_show (ev : Event) : bool :=
  match ev with EvShowAt _ _ _ _ => true | _ => false end.

(** No left-button release among the events. *)
Definition no_left_release (evs : list Event) : bool :=
  forallb (fun ev => match ev with
                     | EvMouseRelease _ LeftButton _ _ _ => false
                     | _ => true
                     end) evs.

(** A progress value lies between 0 and 1. *)
Definition in_unit (p : Q) : Prop := (0 <= p /\ p <= 1)%Q.

(** The effects [show_at] builds for an overlay [o] opened at the local
    point of [gp]. *)
Definition opening_effects `{Libm} (gp : QPoint) (geo : QRect) (clock : nat -> Q) (o : Overlay)
  : list Effect :=
  let c := mapFromGlobal geo gp in
  build_effects c clock 0 (options o)
                (angles (baseline geo c) (Nat.max 1 (length (options o)))).

(** The overlay as a paint leaves it when the paint does not close it. *)
Definition painted (o : Overlay) (es : list Effect) (hits : list (QRect * nat)) (r : bool)
  : Overlay :=
  set_anim_timer (anim_timer_active o && r) (set_hit_regions hits (set_effects es o)).

(** The demo shows no options: no effects, no hit regions, no central
    circle, and its animation timer is stopped. *)
Definition demo_cleared (a : Demo.Demo) : Prop :=
  Demo.effects a = [] /\ Demo._hit_regions a = [] /\ Demo.center_circle a = None
  /\ Demo.anim_timer_active a = false.

(** An effect as [MiddleClickDemo.mousePressEvent] builds it: not reversed,
    with the target size 84 by 36. *)
Definition demo_fresh (e : Demo.Effect) : Prop :=
  Demo.e_reverse_start e = None /\ Demo.e_target_w e = 84%Z /\ Demo.e_target_h e = 36%Z.

(** The state [(tag_objs, seen)] of the loops that collect tags is
    consistent: no tag id occurs twice in [tag_objs], every id in it is in
    [seen], and, unless the tag is applied to the whole selection, no tag
    in it is among [existing]. *)
Definition tag_state_ok (apply : bool) (existing : gset Z)
           (st : list (Z * Thumb.Tag) * gset Z) : Prop :=
  NoDup (map fst st.1)
  /\ (forall tid, In tid (map fst st.1) -> tid ∈ st.2)
  /\ (apply = false -> Forall (fun p => Thumb.id p.2 ∉ existing) st.1).

(** [get_tag] answers with the tag that was asked for. *)
Definition get_tag_by_id (env : Thumb.Env) : Prop :=
  forall tid t, Thumb.get_tag env tid = Some t -> Thumb.id t = tid.

(** The tags [on_middle_click] takes from the recent list alone. *)
Definition recent_part (env : Thumb.Env) (apply : bool) (item_id limit : Z)
  : list (Z * Thumb.Tag) :=
  (Thumb.recent_loop env apply (Thumb.existing_tag_ids env apply item_id)
                     (Thumb.get_recent_tags env limit) [] ∅).1.

(** A call with the origin of a badge update replaced. *)
Definition with_origin (origin_id : option Z) (c : Thumb.Call) : Thumb.Call :=
  match c with
  | Thumb.UpdateBadges b _ => Thumb.UpdateBadges b origin_id
  | _ => c
  end.

(** What holds of the demo's animation state between any two events, for
    [n] options: effects exist only around a central circle, there is one
    effect per option or none, and the index of every hit region names
    an option. *)
Definition anim_consistent (n : nat) (a : Demo.Demo) : Prop :=
  (Demo.effects a <> [] -> Demo.center_circle a <> None)
  /\ (Demo.effects a = [] \/ length (Demo.effects a) = n)
  /\ Forall (fun h => (h.2 < n)%nat) (Demo._hit_regions a).

Definition demo_consistent (d : DemoUI.Widget) : Prop :=
  anim_consistent (length (DemoUI.options d)) (DemoUI.anim d).

(** No event switches the native menu off. *)
Definition keeps_native_menu (evs : list DemoUI.Event) : bool :=
  forallb (fun ev => match ev with
                     | DemoUI.EvSetNativeMenu false => false
                     | _ => true
                     end) evs.

(** The demo shows nothing of the radial options. *)
Definition demo_idle (d : DemoUI.Widget) : Prop :=
  Demo.effects (DemoUI.anim d) = [] /\ Demo._hit_regions (DemoUI.anim d) = [].

(** Events that only drive a running exit animation of instance [self]:
    its timer ticks, and its paints at times before [limit]. *)
Definition frames_before (self : nat) (limit : Q) (evs : list Event) : bool :=
  forallb (fun ev => match ev with
                     | EvAnimTick i => bool_decide (i = self)
                     | EvPaint i t => bool_decide (i = self) && Py.lt t limit
                     | _ => false
                     end) evs.

(** Events of instance [self] that come from its timers and from the
    user: ticks, paints, leave checks and mouse releases. *)
Definition own_events (self : nat) (evs : list Event) : bool :=
  forallb (fun ev => match ev with
                     | EvAnimTick i => bool_decide (i = self)
                     | EvPaint i _ => bool_decide (i = self)
                     | EvLeaveCheck i _ _ => bool_decide (i = self)
                     | EvMouseRelease i _ _ _ _ => bool_decide (i = self)
                     | _ => false
                     end) evs.

(** In [w'] the exit animation of instance [self], begun at [c] on the
    overlay [o] of [w], is running. *)
Definition exit_running (self : nat) (c : Q) (o : Overlay) (w w' : World) : Prop :=
  exists o',
    objs w' !! self = Some o'
    /\ center o' = center o /\ _closing o' = true /\ _closing_start o' = Some c
    /\ anim_out_enabled o' = true /\ anim_out_duration o' = anim_out_duration o
    /\ anim_timer_active o' = true /\ effects o' <> []
    /\ visible o' = visible o
    /\ _active_instance w' = _active_instance w /\ calls w' = calls w.

(** In [w'] instance [self], the overlay [o] of [w], is marked closing
    but nothing drives its exit: it has no options and no effects and
    its animation timer is stopped. *)
Definition exit_stuck (self : nat) (o : Overlay) (w w' : World) : Prop :=
  exists o',
    objs w' !! self = Some o'
    /\ options o' = [] /\ effects o' = []
    /\ _closing o' = true /\ anim_timer_active o' = false
    /\ visible o' = visible o
    /\ _active_instance w' = _active_instance w /\ calls w' = calls w.

(** ** Arithmetic of the animation *)

Section Arithmetic.

Local Open Scope Q_scope.

Lemma eps_pos : 0 < Py.eps.
Proof. reflexivity. Qed.

Lemma guard_pos (d : Q) : 0 < Qmax Py.eps d.
Proof. pose proof (Q.le_max_l Py.eps d). pose proof eps_pos. lra. Qed.


Lemma guard_nonpos (d : Q) : d <= 0 -> Qmax Py.eps d == Py.eps.
Proof. intros Hd. apply Q.max_l. pose proof eps_pos. lra. Qed.

(** The guarded division never raises. *)
Lemma truediv_guarded (a d : Q) :
  Py.truediv a (Qmax Py.eps d) = Some (a / Qmax Py.eps d).
Proof.
  unfold Py.truediv. destruct (Qeq_bool (Qmax Py.eps d) 0) eqn:E; [|reflexivity].
  apply Qeq_bool_iff in E. pose proof (guard_pos d). lra.
Qed.

Lemma pow3_mono (a b : Q) : a <= b -> Py.pow3 a <= Py.pow3 b.
Proof.
  unfold Py.pow3. intros Hab.
  assert (H1 : 0 <= a * a + a * b + b * b) by nra.
  assert (H2 : 0 <= (b - a) * (a * a + a * b + b * b)).
  { apply Qmult_le_0_compat; lra. }
  lra.
Qed.

Lemma div_mono (a b c : Q) : 0 < c -> a <= b -> a / c <= b / c.
Proof.
  intros Hc Hab. unfold Qdiv. apply Qmult_le_compat_r; [exact Hab|].
  apply Qlt_le_weak, Qinv_lt_0_compat, Hc.
Qed.

Lemma time_fraction_le_1 (el d : Q) : time_fraction el d <= 1.
Proof. unfold time_fraction. apply Q.le_min_l. Qed.

Lemma time_fraction_mono (el1 el2 d : Q) :
  el1 <= el2 -> time_fraction el1 d <= time_fraction el2 d.
Proof.
  intros Hle. unfold time_fraction.
  apply Q.min_le_compat_l, div_mono; [apply guard_pos | exact Hle].
Qed.

(** The fraction is 1 exactly from the guarded duration on. *)
Lemma time_fraction_done (el d : Q) :
  Qmax Py.eps d <= el -> time_fraction el d == 1.
Proof.
  intros Hle. unfold time_fraction. apply Q.min_l.
  pose proof (guard_pos d) as Hp.
  apply Qle_shift_div_l; [exact Hp | lra].
Qed.

Lemma time_fraction_early (el d : Q) :
  el < Qmax Py.eps d -> time_fraction el d < 1.
Proof.
  intros Hlt. unfold time_fraction.
  pose proof (guard_pos d) as Hp.
  assert (el / Qmax Py.eps d < 1).
  { apply Qlt_shift_div_r; [exact Hp | lra]. }
  pose proof (Q.le_min_r 1 (el / Qmax Py.eps d)). lra.
Qed.



Lemma exit_cubic_antimono (s t : Q) : s <= t -> exit_cubic t <= exit_cubic s.
Proof.
  intros Hst. unfold exit_cubic.
  apply (pow3_mono (Qmax 0 (1 - t)) (Qmax 0 (1 - s))).
  apply Q.max_le_compat_l. lra.
Qed.

Lemma exit_cubic_range (t : Q) : t <= 1 -> exit_cubic t == (1 - t) * (1 - t) * (1 - t).
Proof.
  intros Ht. unfold exit_cubic. rewrite (Q.max_r 0 (1 - t)) by lra. reflexivity.
Qed.

#[global] Instance ease_out_cubic_proper : Proper (Qeq ==> Qeq) ease_out_cubic.
Proof. intros a b Hab. unfold ease_out_cubic. rewrite Hab. reflexivity. Qed.

#[global] Instance exit_cubic_proper : Proper (Qeq ==> Qeq) exit_cubic.
Proof. intros a b Hab. unfold exit_cubic. rewrite Hab. reflexivity. Qed.

End Arithmetic.

(** ** The paint loop *)

Section Paint.

Context `{Libm}.


Lemma effect_prog_total (o : Overlay) (now : Q) (e : Effect) :
  is_Some (effect_prog o now e).
Proof.
  unfold effect_prog.
  destruct (_closing o), (anim_out_enabled o), (anim_enabled o); simpl;
    rewrite ?truediv_guarded; simpl; eauto.
Qed.


(** While closing with the exit animation enabled the branch yields the
    cubic exit curve of the guarded time fraction. *)
Lemma effect_prog_closing (o : Overlay) (now : Q) (e : Effect) :
  _closing o = true -> anim_out_enabled o = true ->
  exists b, effect_prog o now e
            = Some (exit_cubic (time_fraction (now - Py.float_or (_closing_start o) now)
                                              (anim_out_duration o)), b).
Proof.
  intros Hc Ha. unfold effect_prog. rewrite Hc, Ha, truediv_guarded. simpl.
  eexists. reflexivity.
Qed.

(** The loop never raises; it keeps every effect but for its progress,
    and appends one hit region per effect, in order, with the effect's
    index. *)
Lemma paint_loop_spec (o : Overlay) (now : Q) (es : list Effect) :
  forall i, exists es' hits r,
    paint_loop o now i es = Some (es', hits, r)
    /\ Forall2 (fun e e' => exists p b, effect_prog o now e = Some (p, b)
                                        /\ e' = set_progress p e) es es'
    /\ hits = zip_with (fun e' k => (effect_rect o (e_progress e') e', k))
                       es' (seq i (length es)).
Proof.
  induction es as [|e rest IH]; intros i; simpl.
  - exists [], [], false. repeat split. constructor.
  - destruct (effect_prog_total o now e) as [[p b] Hp]. rewrite Hp. simpl.
    destruct (IH (S i)) as (es' & hits & r & Hl & Hf & Hh). rewrite Hl. simpl.
    eexists _, _, _. split; [reflexivity|]. split.
    + constructor; [eauto | exact Hf].
    + simpl. rewrite Hh. reflexivity.
Qed.


End Paint.

(** ** The heap of widgets *)

Section Heap.

Context `{Libm}.

Lemma lookup_put_eq (self : nat) (o : Overlay) (w : World) :
  objs (put self o w) !! self = Some o.
Proof. simpl. apply lookup_insert_eq. Qed.

Lemma lookup_put_ne (self i : nat) (o : Overlay) (w : World) :
  self <> i -> objs (put self o w) !! i = objs w !! i.
Proof. intros Hne. simpl. apply lookup_insert_ne, Hne. Qed.

(** [close()] in one step. *)
Lemma QWidget_close_eq (self : nat) (w : World) (o : Overlay) :
  objs w !! self = Some o ->
  QWidget_close self w
  = mkWorld (if decide (_active_instance w = Some self) then None
             else _active_instance w)
            (<[self := closed o]> (objs w)) (LogClose self :: log w) (calls w).
Proof.
  intros Ho. unfold QWidget_close, closeEvent. rewrite Ho. simpl.
  destruct (decide (_active_instance w = Some self)) as [Ha|Ha]; simpl;
    rewrite lookup_insert_eq; unfold put; simpl;
    rewrite insert_insert_eq; reflexivity.
Qed.

Lemma QWidget_close_absent (self : nat) (w : World) :
  objs w !! self = None -> QWidget_close self w = w.
Proof.
  intros Ho. unfold QWidget_close, closeEvent. rewrite Ho. rewrite Ho. reflexivity.
Qed.

Lemma QWidget_close_lookup_ne (self i : nat) (w : World) :
  self <> i -> objs (QWidget_close self w) !! i = objs w !! i.
Proof.
  intros Hne. destruct (objs w !! self) as [o|] eqn:Ho.
  - rewrite (QWidget_close_eq _ _ _ Ho). simpl. apply lookup_insert_ne, Hne.
  - rewrite (QWidget_close_absent _ _ Ho). reflexivity.
Qed.

Lemma QWidget_close_calls (self : nat) (w : World) :
  calls (QWidget_close self w) = calls w.
Proof.
  destruct (objs w !! self) as [o|] eqn:Ho.
  - rewrite (QWidget_close_eq _ _ _ Ho). reflexivity.
  - rewrite (QWidget_close_absent _ _ Ho). reflexivity.
Qed.

(** A paint of an overlay that is not closing rewrites its effects and
    hit regions, may stop the animation timer, and touches nothing else. *)
Lemma paintEvent_open (self : nat) (now : Q) (w : World) (o : Overlay) :
  objs w !! self = Some o ->
  QPoint_bool (center o) = true -> _closing o = false ->
  exists es hits r o',
    paint_loop o now 0 (effects o) = Some (es, hits, r)
    /\ paintEvent self now w = Some (put self o' w)
    /\ effects o' = es /\ _hit_regions o' = hits /\ same_settings o o'.
Proof.
  intros Ho Hc Hcl.
  destruct (paint_loop_spec o now (effects o) 0) as (es & hits & r & Hl & _ & _).
  unfold paintEvent. rewrite Ho, Hc, Hl. simpl.
  destruct (negb r && anim_timer_active o) eqn:E.
  - rewrite Hcl. eexists es, hits, r, _. split; [reflexivity|].
    split; [reflexivity|]. simpl. repeat split; assumption.
  - eexists es, hits, r, _. split; [reflexivity|].
    split; [reflexivity|]. simpl. repeat split; assumption.
Qed.

End Heap.

(** ** Entering *)

Section Entering.

Context `{Libm}.

Local Open Scope Q_scope.




(** The guard [if not self.center] of [paintEvent] takes the truth value
    of the point: with a local centre that is unset or is the point
    (0, 0) the paint returns before its loop and changes nothing. *)
Lemma paint_guard_fails (self : nat) (now : Q) (w : World) (o : Overlay) :
  objs w !! self = Some o -> QPoint_bool (center o) = false ->
  paintEvent self now w = Some w.
Proof. intros Ho Hg. unfold paintEvent. rewrite Ho, Hg. reflexivity. Qed.

End Entering.

(** ** The guard on the durations *)

Section Guard.

Context `{Libm}.

Local Open Scope Q_scope.

Lemma demo_effect_prog_total (d : Demo.Demo) (now : Q) (e : Demo.Effect) :
  is_Some (Demo.effect_prog d now e).
Proof.
  unfold Demo.effect_prog.
  destruct (Demo.e_reverse_start e), (Demo.anim_enabled d); simpl;
    rewrite ?truediv_guarded; simpl; eauto.
Qed.

Lemma demo_paint_loop_total (d : Demo.Demo) (now : Q) (es : list Demo.Effect) :
  forall i, is_Some (Demo.paint_loop d now i es).
Proof.
  induction es as [|e rest IH]; intros i; simpl; [eauto|].
  destruct (demo_effect_prog_total d now e) as [[p b] Hp]. rewrite Hp. simpl.
  destruct (IH (S i)) as [[[es' hits] r] Hl]. rewrite Hl. simpl. eauto.
Qed.

Lemma demo_paintEvent_total (now : Q) (d : Demo.Demo) : is_Some (Demo.paintEvent now d).
Proof.
  unfold Demo.paintEvent.
  destruct (demo_paint_loop_total d now (Demo.effects d) 0) as [[[es hits] r] Hl].
  rewrite Hl. simpl.
  match goal with |- is_Some (if ?c then _ else _) => destruct c end; eauto.
Qed.

Lemma paintEvent_total (self : nat) (now : Q) (w : World) :
  is_Some (paintEvent self now w).
Proof.
  unfold paintEvent. destruct (objs w !! self) as [o|]; [|eauto].
  destruct (negb (QPoint_bool (center o))); [eauto|].
  destruct (paint_loop_spec o now (effects o) 0) as (es & hits & r & Hl & _).
  rewrite Hl. simpl.
  destruct (negb r && anim_timer_active o); [destruct (_closing o)|]; eauto.
Qed.

Lemma step_total (ev : Event) (w : World) : is_Some (step ev w).
Proof. destruct ev; simpl; eauto using paintEvent_total. Qed.

Lemma run_total (evs : list Event) : forall w, is_Some (run evs w).
Proof.
  induction evs as [|ev rest IH]; intros w; simpl; [eauto|].
  destruct (step_total ev w) as [w' Hs]. rewrite Hs. simpl. apply IH.
Qed.

End Guard.

(** ** Closing *)

Section Closing.

Context `{Libm}.

Local Open Scope Q_scope.

Lemma linear_decay_antimono (start_p s t : Q) :
  0 <= start_p -> s <= t -> linear_decay start_p t <= linear_decay start_p s.
Proof. unfold linear_decay. intros Hp Hst. nra. Qed.

Lemma linear_decay_nonneg (start_p t : Q) :
  0 <= start_p -> t <= 1 -> 0 <= linear_decay start_p t.
Proof. unfold linear_decay. intros Hp Ht. nra. Qed.

(** The demo begins closing: every effect captures the clock and its own
    current progress. *)
Lemma demo_start_captures (now : Q) (d : Demo.Demo) :
  Demo.anim_enabled d = true ->
  Forall2 (fun e e' => captured now (Demo.e_progress e) e')
          (Demo.effects d) (Demo.effects (Demo._start_reverse_close now d)).
Proof.
  intros Hen. unfold Demo._start_reverse_close. rewrite Hen. simpl.
  assert (Hes : Demo.effects
                  (if negb (Demo.anim_timer_active d)
                   then Demo.set_anim_timer true
                          (Demo.set_effects
                             (map (fun e => Demo.set_reverse now (Demo.e_progress e) e)
                                  (Demo.effects d)) d)
                   else Demo.set_effects
                          (map (fun e => Demo.set_reverse now (Demo.e_progress e) e)
                               (Demo.effects d)) d)
                = map (fun e => Demo.set_reverse now (Demo.e_progress e) e) (Demo.effects d)).
  { destruct (negb (Demo.anim_timer_active d)); reflexivity. }
  rewrite Hes. clear Hes Hen.
  induction (Demo.effects d) as [|e l IH]; simpl; constructor; [|exact IH].
  split; reflexivity.
Qed.

(** A closing effect of the demo decays linearly from its captured value. *)
Lemma demo_effect_prog_closing (d : Demo.Demo) (now rs start_p : Q) (e : Demo.Effect) :
  Demo.anim_enabled d = true -> captured rs start_p e -> 0 <= start_p ->
  exists p b,
    Demo.effect_prog d now e = Some (p, b)
    /\ p == linear_decay start_p (time_fraction (now - rs) (Demo.anim_out_duration d)).
Proof.
  intros Hen [Hrs Hsp] Hp. unfold Demo.effect_prog.
  rewrite Hrs, Hsp, Hen, truediv_guarded. simpl.
  eexists _, _. split; [reflexivity|].
  apply Q.max_r. apply linear_decay_nonneg; [exact Hp | apply time_fraction_le_1].
Qed.

(** A tick of the closing demo writes the linear decay into every effect
    and keeps the captured values, so the next tick decays from them too. *)
Lemma demo_paint_loop_closing (d : Demo.Demo) (now rs : Q) :
  Demo.anim_enabled d = true ->
  forall (sps : list Q) (es : list Demo.Effect) (i : nat),
    Forall2 (captured rs) sps es -> Forall (Qle 0) sps ->
    exists es' hits r,
      Demo.paint_loop d now i es = Some (es', hits, r)
      /\ Forall2 (captured rs) sps es'
      /\ Forall2 (fun sp e' =>
                    Demo.e_progress e'
                    == linear_decay sp (time_fraction (now - rs) (Demo.anim_out_duration d)))
                 sps es'.
Proof.
  intros Hen sps es i Hcap. revert i.
  induction Hcap as [|sp e sps es Hc _ IH]; intros i Hpos; simpl.
  - exists [], [], false. repeat split; constructor.
  - inversion Hpos as [|? ? Hsp Hrest]; subst.
    destruct (demo_effect_prog_closing d now rs sp e Hen Hc Hsp) as (p & b & Hp & Heq).
    rewrite Hp. simpl.
    destruct (IH (S i) Hrest) as (es' & hits & r & Hl & Hc' & Hf). rewrite Hl. simpl.
    eexists _, _, _. split; [reflexivity|]. split.
    + constructor; [|exact Hc']. destruct Hc as [Hc1 Hc2]. split; simpl; assumption.
    + constructor; [simpl; exact Heq | exact Hf].
Qed.

(** A tick of the closing overlay writes the cubic exit curve into every
    effect, whatever progress the effect held. *)
Lemma paint_loop_closing (o : Overlay) (now : Q) :
  _closing o = true -> anim_out_enabled o = true ->
  forall (es : list Effect) (i : nat),
    exists es' hits r,
      paint_loop o now i es = Some (es', hits, r)
      /\ length es' = length es
      /\ Forall (fun e' =>
                   e_progress e'
                   == exit_cubic (time_fraction (now - Py.float_or (_closing_start o) now)
                                                (anim_out_duration o)))
                es'.
Proof.
  intros Hcl Hen es. induction es as [|e rest IH]; intros i; simpl.
  - exists [], [], false. repeat split. constructor.
  - destruct (effect_prog_closing o now e Hcl Hen) as [b Hp]. rewrite Hp. simpl.
    destruct (IH (S i)) as (es' & hits & r & Hl & Hlen & Hf). rewrite Hl. simpl.
    eexists _, _, _. split; [reflexivity|]. split; [simpl; congruence|].
    constructor; [simpl; reflexivity | exact Hf].
Qed.

(** C1, as amended. In [MiddleClickDemo], once closing has begun with
    animation enabled, every effect has captured the progress it held, and
    each later tick sets its progress to [captured * (1 - t)] with
    [t = min(1, elapsed / max(1e-6, exit_duration))] (for a captured value
    that is not negative): the decay is linear, non-increasing, starts from
    the captured value and is exactly 0 from [max(1e-6, exit_duration)]
    after the start on.  In [MiddleClickOverlay], each tick of a closing
    overlay with the exit animation enabled sets every effect's progress to
    [max(0, 1 - t)^3] for the same [t], whatever progress the effect held:
    the curve is non-increasing, starts from 1 and is exactly 0 from
    [max(1e-6, exit_duration)] after the start on. *)
Theorem closing_progress_decay :
  (* the demo *)
  (forall now d, Demo.anim_enabled d = true ->
     Forall2 (fun e e' => captured now (Demo.e_progress e) e')
             (Demo.effects d) (Demo.effects (Demo._start_reverse_close now d)))
  /\ (forall d now rs sps i es,
        Demo.anim_enabled d = true -> Forall2 (captured rs) sps es -> Forall (Qle 0) sps ->
        exists es' hits r,
          Demo.paint_loop d now i es = Some (es', hits, r)
          /\ Forall2 (captured rs) sps es'
          /\ Forall2 (fun sp e' =>
                        Demo.e_progress e'
                        == linear_decay sp (time_fraction (now - rs) (Demo.anim_out_duration d)))
                     sps es')
  /\ (forall sp dur rs now1 now2,
        0 <= sp -> now1 <= now2 ->
        linear_decay sp (time_fraction (now2 - rs) dur)
        <= linear_decay sp (time_fraction (now1 - rs) dur))
  /\ (forall sp dur rs, linear_decay sp (time_fraction (rs - rs) dur) == sp)
  /\ (forall sp dur rs now,
        rs + Qmax Py.eps dur <= now -> linear_decay sp (time_fraction (now - rs) dur) == 0)
  (* the overlay *)
  /\ (forall o now i es,
        _closing o = true -> anim_out_enabled o = true ->
        exists es' hits r,
          paint_loop o now i es = Some (es', hits, r)
          /\ length es' = length es
          /\ Forall (fun e' =>
                       e_progress e'
                       == exit_cubic (time_fraction (now - Py.float_or (_closing_start o) now)
                                                    (anim_out_duration o)))
                    es')
  /\ (forall dur cs now1 now2,
        now1 <= now2 ->
        exit_cubic (time_fraction (now2 - cs) dur) <= exit_cubic (time_fraction (now1 - cs) dur))
  /\ (forall dur cs, exit_cubic (time_fraction (cs - cs) dur) == 1)
  /\ (forall dur cs now,
        cs + Qmax Py.eps dur <= now -> exit_cubic (time_fraction (now - cs) dur) == 0).
Proof.
  assert (Hzero : forall dur rs, time_fraction (rs - rs) dur == 0).
  { intros dur rs. unfold time_fraction.
    assert (Hz : (rs - rs) / Qmax Py.eps dur == 0).
    { unfold Qdiv. assert (Hr : rs - rs == 0) by ring. rewrite Hr. ring. }
    rewrite Hz. apply Q.min_r. lra. }
  split; [intros now d; apply demo_start_captures|].
  split; [intros d now rs sps i es Hen Hcap Hpos;
          apply (demo_paint_loop_closing d now rs Hen sps es i Hcap Hpos)|].
  split; [intros sp dur rs now1 now2 Hsp Hle;
          apply linear_decay_antimono; [exact Hsp | apply time_fraction_mono; lra]|].
  split; [intros sp dur rs; unfold linear_decay; rewrite Hzero; ring|].
  split; [intros sp dur rs now Hle; unfold linear_decay;
          rewrite time_fraction_done by lra; ring|].
  split; [intros o now i es Hcl Hen; apply (paint_loop_closing o now Hcl Hen es i)|].
  split; [intros dur cs now1 now2 Hle; apply exit_cubic_antimono, time_fraction_mono; lra|].
  split; [intros dur cs; rewrite Hzero; reflexivity|].
  intros dur cs now Hle. rewrite time_fraction_done by lra. reflexivity.
Qed.

End Closing.

(** ** Auto-dismiss *)

Section AutoDismiss.

Context `{Libm}.

(** The test on the squares decides the comparison of the Euclidean
    distance with the threshold. *)
Lemma hypot_gt_sqrt (dx dy limit : Z) :
  Py.hypot_gt dx dy limit = true
  <-> (IZR limit < sqrt (IZR (dx * dx + dy * dy)))%R.
Proof.
  unfold Py.hypot_gt. destruct (Z.ltb_spec limit 0) as [Hneg|Hpos].
  - split; [intros _|reflexivity].
    apply Rlt_le_trans with 0%R; [apply IZR_lt, Hneg | apply sqrt_pos].
  - assert (Hl : (0 <= IZR limit)%R) by (apply IZR_le, Hpos).
    assert (Hsq : sqrt (IZR (limit * limit)) = IZR limit).
    { rewrite mult_IZR. apply sqrt_square, Hl. }
    assert (Hn : (0 <= IZR (dx * dx + dy * dy))%R) by (apply IZR_le; nia).
    assert (Hm : (0 <= IZR (limit * limit))%R) by (apply IZR_le; nia).
    rewrite Z.ltb_lt. split.
    + intros Hlt. rewrite <- Hsq. apply sqrt_lt_1; [exact Hm | exact Hn | apply IZR_lt, Hlt].
    + intros Hlt. rewrite <- Hsq in Hlt. apply lt_IZR. apply sqrt_lt_0_alt, Hlt.
Qed.

Lemma start_close_when_closing (self : nat) (now : Q) (w : World) (o : Overlay) :
  objs w !! self = Some o -> _closing o = true -> _start_close self now w = w.
Proof. intros Ho Hc. unfold _start_close. rewrite Ho, Hc. reflexivity. Qed.

(** Beyond the guard of the check.  A leave check of an overlay whose
    stored global centre passes the guard of the check compares the
    Euclidean distance from the pointer
    to that centre with the threshold: strictly above it the check is a
    call of [_start_close], at or below it the check does nothing.
    [_start_close] on an overlay that is not closing either sets
    [_closing] and starts the exit animation or, with an animation
    switched off, closes the overlay at once, which stops the leave
    timer; once closing has begun, [_start_close], and therefore the
    check, changes nothing.  The threshold of a new overlay is 220. *)
Theorem leave_check_threshold (self : nat) (w : World) (o : Overlay)
        (cg cur : QPoint) (now : Q) :
  objs w !! self = Some o ->
  _center_global o = Some cg -> QPoint_bool (Some cg) = true ->
  let dx := x cur - x cg in
  let dy := y cur - y cg in
  let dist := sqrt (IZR (dx * dx + dy * dy)) in
  ((IZR (_leave_distance o) < dist)%R ->
     _on_leave_check self cur now w = _start_close self now w)
  /\ ((dist <= IZR (_leave_distance o))%R -> _on_leave_check self cur now w = w)
  /\ (_closing o = true ->
        _start_close self now w = w /\ _on_leave_check self cur now w = w)
  /\ (_closing o = false -> anim_enabled o = true -> anim_out_enabled o = true ->
      exists o', objs (_start_close self now w) !! self = Some o'
                 /\ _closing o' = true /\ _closing_start o' = Some now
                 /\ anim_timer_active o' = true /\ visible o' = visible o)
  /\ (_closing o = false -> anim_enabled o && anim_out_enabled o = false ->
      objs (_start_close self now w) !! self = Some (closed o)
      /\ leave_timer_active (closed o) = false /\ visible (closed o) = false)
  /\ (forall opts, _leave_distance (init_overlay opts) = 220).
Proof.
  intros Ho Hcg Ht dx dy dist.
  assert (Hcheck : _on_leave_check self cur now w
                   = if Py.hypot_gt dx dy (_leave_distance o)
                     then _start_close self now w else w).
  { unfold _on_leave_check. rewrite Ho, Hcg, Ht. reflexivity. }
  split; [|split; [|split; [|split; [|split]]]].
  - intros Hgt. rewrite Hcheck. apply hypot_gt_sqrt in Hgt. rewrite Hgt. reflexivity.
  - intros Hle. rewrite Hcheck.
    destruct (Py.hypot_gt dx dy (_leave_distance o)) eqn:E; [|reflexivity].
    apply hypot_gt_sqrt in E. fold dx dy dist in E.
    exfalso. apply (Rlt_irrefl dist). eapply Rle_lt_trans; eassumption.
  - intros Hc. pose proof (start_close_when_closing self now w o Ho Hc) as Hs.
    split; [exact Hs|]. rewrite Hcheck, Hs.
    destruct (Py.hypot_gt dx dy (_leave_distance o)); reflexivity.
  - intros Hc Hen Hout. unfold _start_close. rewrite Ho, Hc, Hen, Hout. simpl.
    eexists. split; [apply lookup_insert_eq|].
    destruct (anim_timer_active o) eqn:E; simpl; rewrite ?E; repeat split; reflexivity.
  - intros Hc Hoff. unfold _start_close. rewrite Ho, Hc.
    replace (negb (anim_out_enabled o) || negb (anim_enabled o)) with true
      by (destruct (anim_enabled o), (anim_out_enabled o); simpl in *; congruence).
    rewrite (QWidget_close_eq self w o Ho). simpl. rewrite lookup_insert_eq.
    repeat split; reflexivity.
  - reflexivity.
Qed.

(** The guard [if not self._center_global] of the check takes the truth
    value of the point: a stored centre that is the point (0, 0) does not
    pass it. *)
Lemma leave_check_guard_fails (self : nat) (w : World) (o : Overlay)
      (cur : QPoint) (now : Q) :
  objs w !! self = Some o -> QPoint_bool (_center_global o) = false ->
  _on_leave_check self cur now w = w.
Proof.
  intros Ho Hg. unfold _on_leave_check. rewrite Ho.
  destruct (_center_global o) as [cg|]; [|reflexivity].
  rewrite Hg. reflexivity.
Qed.

End AutoDismiss.

(** C7. At the centre (0, 0) the leave check never closes.  For every
    overlay whose stored global centre is the point (0, 0), a leave check
    leaves the process as it is, wherever the pointer is.  So for the
    sample overlay shown at the global point (0, 0), with the threshold
    220, open and not closing: the check with the pointer at distance 221
    changes nothing, as does the check at distance 5000 and the one at
    distance 219, while the begin-close request [_start_close], had it
    been made, would have marked the overlay as closing. *)
Theorem leave_check_origin_never_closes :
  (forall (self : nat) (w : World) (o : Overlay) (cur : QPoint) (now : Q),
      objs w !! self = Some o -> _center_global o = Some (mkPoint 0 0) ->
      _on_leave_check self cur now w = w)
  /\ _center_global (Sample.overlay_of Cases.at_origin 0) = Some (mkPoint 0 0)
  /\ _leave_distance (Sample.overlay_of Cases.at_origin 0) = 220
  /\ _closing (Sample.overlay_of Cases.at_origin 0) = false
  /\ is_visible Cases.at_origin 0 = true
  /\ _on_leave_check 0 (mkPoint 221 0) (1 # 2) Cases.at_origin = Cases.at_origin
  /\ _on_leave_check 0 (mkPoint 5000 0) (1 # 2) Cases.at_origin = Cases.at_origin
  /\ _on_leave_check 0 (mkPoint 219 0) (1 # 2) Cases.at_origin = Cases.at_origin
  /\ (exists o',
        objs (_start_close 0 (1 # 2) Cases.at_origin) !! 0%nat = Some o'
        /\ _closing o' = true).
Proof.
  assert (Hgen : forall (self : nat) (w : World) (o : Overlay) (cur : QPoint) (now : Q),
             objs w !! self = Some o -> _center_global o = Some (mkPoint 0 0) ->
             _on_leave_check self cur now w = w).
  { intros self w o cur now Ho Hcg.
    apply (leave_check_guard_fails self w o cur now Ho). rewrite Hcg. reflexivity. }
  assert (Ho : objs Cases.at_origin !! 0%nat = Some (Sample.overlay_of Cases.at_origin 0))
    by (vm_compute; reflexivity).
  assert (Hcg : _center_global (Sample.overlay_of Cases.at_origin 0) = Some (mkPoint 0 0))
    by (vm_compute; reflexivity).
  split; [exact Hgen|]. split; [exact Hcg|].
  split; [vm_compute; reflexivity|]. split; [vm_compute; reflexivity|].
  split; [vm_compute; reflexivity|].
  split; [exact (Hgen _ _ _ _ _ Ho Hcg)|].
  split; [exact (Hgen _ _ _ _ _ Ho Hcg)|].
  split; [exact (Hgen _ _ _ _ _ Ho Hcg)|].
  eexists. split; vm_compute; reflexivity.
Qed.

(** ** Layout at [show_at] *)

Section Layout.

Context `{Libm}.

Local Open Scope Q_scope.

Lemma build_effects_angles (c : QPoint) (clock : nat -> Q) (opts : list MenuOption) :
  forall (angs : list Q) (i : nat),
    map e_angle (build_effects c clock i opts angs) = take (length opts) angs.
Proof.
  induction opts as [|opt opts IH]; intros angs i; simpl; [reflexivity|].
  destruct angs as [|a angs]; simpl; [reflexivity|]. rewrite IH. reflexivity.
Qed.

Lemma map_angle_set_progress (p : Q) (es : list Effect) :
  map e_angle (map (set_progress p) es) = map e_angle es.
Proof. induction es as [|e es IH]; simpl; [reflexivity|]. rewrite IH. reflexivity. Qed.

(** The world in which [show_at] goes on after closing the instance that
    was active: [self] is as it was. *)
Lemma close_previous_lookup (self : nat) (w : World) :
  objs (match _active_instance w with
        | Some a => if decide (a = self) then w else QWidget_close a w
        | None => w
        end) !! self = objs w !! self.
Proof.
  destruct (_active_instance w) as [a|]; [|reflexivity].
  destruct (decide (a = self)) as [|Hne]; [reflexivity|].
  apply QWidget_close_lookup_ne, Hne.
Qed.

(** The angles that [show_at] gives to the effects, in option order. *)
Lemma show_at_effect_angles (self : nat) (gp : QPoint) (geo : QRect)
      (clock : nat -> Q) (w : World) (o : Overlay) :
  objs w !! self = Some o ->
  exists o',
    objs (show_at self gp geo clock w) !! self = Some o'
    /\ options o' = options o
    /\ map e_angle (effects o')
       = take (length (options o))
              (angles (baseline geo (mapFromGlobal geo gp))
                      (Nat.max 1 (length (options o)))).
Proof.
  intros Ho. unfold show_at. rewrite close_previous_lookup, Ho.
  eexists. split; [apply lookup_put_eq|]. simpl.
  destruct (anim_enabled o); simpl;
    rewrite ?map_angle_set_progress, build_effects_angles; split; reflexivity.
Qed.

Lemma angle_at_step (base : Q) (n i : nat) :
  (2 <= n)%nat ->
  angle_at base n (S i) - angle_at base n i == Py.math_pi / inject_Z (Z.of_nat n - 1).
Proof.
  intros Hn. unfold angle_at.
  assert (Hd : ~ inject_Z (Z.of_nat n - 1) == 0).
  { intros E. unfold Qeq in E. simpl in E. lia. }
  rewrite Nat2Z.inj_succ. unfold Z.succ. rewrite inject_Z_plus. field. exact Hd.
Qed.

End Layout.

Section AngleDistribution.

Context `{Libm}.

Local Open Scope Q_scope.

(** C5. [show_at] gives one effect to each of the [n] options.  With one
    option its angle is the baseline, the direction [atan2] from the click
    point to the centre of the container; with two or more the angles
    are, in option order, [baseline - pi/2 + pi * i / (n - 1)] for
    [i = 0 .. n-1]: they start at [baseline - pi/2], end at
    [baseline + pi/2] and are [pi / (n - 1)] apart. *)
Theorem show_at_angle_distribution (self : nat) (gp : QPoint) (geo : QRect)
        (clock : nat -> Q) (w : World) (o : Overlay) :
  objs w !! self = Some o ->
  let n := length (options o) in
  let c := mapFromGlobal geo gp in
  let base := baseline geo c in
  let pi := Py.math_pi in
  base = math_atan2 (inject_Z (height geo) / 2 - inject_Z (y gp - top geo))
                    (inject_Z (width geo) / 2 - inject_Z (x gp - left geo))
  /\ exists o',
      objs (show_at self gp geo clock w) !! self = Some o'
      /\ length (effects o') = n
      /\ (n = 1%nat -> map e_angle (effects o') = [base])
      /\ ((2 <= n)%nat ->
          map e_angle (effects o') = map (angle_at base n) (seq 0 n)
          /\ (forall i, angle_at base n i
                        == base - pi / 2
                           + pi * inject_Z (Z.of_nat i) / inject_Z (Z.of_nat n - 1))
          /\ angle_at base n 0 == base - pi / 2
          /\ angle_at base n (n - 1) == base + pi / 2
          /\ (forall i, angle_at base n (S i) - angle_at base n i
                        == pi / inject_Z (Z.of_nat n - 1))).
Proof.
  intros Ho n c base pi. split; [reflexivity|].
  destruct (show_at_effect_angles self gp geo clock w o Ho) as (o' & Ho' & _ & Hang).
  fold n c base in Hang.
  exists o'. split; [exact Ho'|].
  assert (Hlen : length (angles base (Nat.max 1 n)) = Nat.max 1 n).
  { unfold angles. destruct (Nat.eqb_spec (Nat.max 1 n) 1) as [E|E].
    - rewrite E. reflexivity.
    - rewrite length_map, length_seq. reflexivity. }
  split; [|split].
  - rewrite <- (length_map e_angle), Hang, length_take, Hlen. lia.
  - intros Hn. rewrite Hang, Hn. reflexivity.
  - intros Hn.
    assert (Hd : ~ inject_Z (Z.of_nat n - 1) == 0).
    { intros E. unfold Qeq in E. simpl in E. lia. }
    split; [|split; [|split; [|split]]].
    + rewrite Hang. replace (Nat.max 1 n) with n by lia.
      unfold angles. destruct (Nat.eqb_spec n 1) as [E|_]; [lia|].
      apply take_ge. rewrite length_map, length_seq. lia.
    + intros i. reflexivity.
    + unfold angle_at, pi. change (inject_Z (Z.of_nat 0)) with 0. field. exact Hd.
    + unfold angle_at, pi. rewrite Nat2Z.inj_sub by lia. change (Z.of_nat 1) with 1%Z.
      field. exact Hd.
    + intros i. apply angle_at_step, Hn.
Qed.

End AngleDistribution.

(** ** Keeping the rectangles on screen *)

Section Bounds.

Context `{Libm}.

Lemma out_of_bounds_false (d : Demo.Demo) (r : QRect) :
  Demo.out_of_bounds d r = false
  <-> within Demo.margin (Demo.widget_width d) (Demo.widget_height d) r.
Proof.
  unfold Demo.out_of_bounds, within.
  rewrite !orb_false_iff, !Z.ltb_ge. tauto.
Qed.

(** The clamp leaves a rectangle that is inside where it is. *)
Lemma clamp_id (d : Demo.Demo) (r : QRect) :
  Demo.out_of_bounds d r = false -> Demo.clamp d r = r.
Proof.
  intros Hin. apply out_of_bounds_false in Hin. destruct Hin as (H1 & H2 & H3 & H4).
  destruct r as [l t rw rh]. unfold Demo.clamp. simpl in *. f_equal; lia.
Qed.

(** The clamp moves a rectangle inside whenever it fits. *)
Lemma clamp_within (d : Demo.Demo) (r : QRect) :
  2 * Demo.margin + width r <= Demo.widget_width d ->
  2 * Demo.margin + height r <= Demo.widget_height d ->
  within Demo.margin (Demo.widget_width d) (Demo.widget_height d) (Demo.clamp d r).
Proof. unfold within, Demo.clamp. simpl. lia. Qed.

Lemma demo_effect_rect_cases (d : Demo.Demo) (prog : Q) (e : Demo.Effect) :
  Demo.effect_rect d prog e
  = if Demo.out_of_bounds d (Demo.rect_along d prog e (Demo.e_angle e))
    then Demo.clamp d (Demo.rect_along d prog e (Demo.e_angle e + Py.math_pi)%Q)
    else Demo.rect_along d prog e (Demo.e_angle e).
Proof.
  unfold Demo.effect_rect.
  destruct (Demo.out_of_bounds d (Demo.rect_along d prog e (Demo.e_angle e))); [|reflexivity].
  cbv zeta.
  destruct (Demo.clamp d (Demo.rect_along d prog e (Demo.e_angle e + Py.math_pi)%Q))
    as [l t rw rh].
  cbn [left top width height]. f_equal; lia.
Qed.

Lemma demo_paint_loop_angles (d : Demo.Demo) (now : Q) (es : list Demo.Effect) :
  forall i es' hits r,
    Demo.paint_loop d now i es = Some (es', hits, r) ->
    map Demo.e_angle es' = map Demo.e_angle es
    /\ hits = zip_with (fun e' k => (Demo.effect_rect d (Demo.e_progress e') e', k))
                       es' (seq i (length es)).
Proof.
  induction es as [|e rest IH]; intros i es' hits r; simpl.
  - intros [= <- <- <-]. split; reflexivity.
  - destruct (Demo.effect_prog d now e) as [[p b]|]; simpl; [|discriminate].
    destruct (Demo.paint_loop d now (S i) rest) as [[[es2 h2] r2]|] eqn:Hl; simpl;
      [|discriminate].
    intros [= <- <- <-]. destruct (IH (S i) es2 h2 r2 Hl) as [Ha Hh].
    split; simpl; [rewrite Ha | rewrite Hh]; reflexivity.
Qed.

(** The rectangle of the overlay depends on the container only through
    the travel distance [base_dist]. *)
Lemma effect_rect_container (o o2 : Overlay) (prog : Q) (e : Effect) :
  base_dist o = base_dist o2 -> effect_rect o prog e = effect_rect o2 prog e.
Proof. intros Hb. unfold effect_rect. rewrite Hb. reflexivity. Qed.

(** C4, as amended. In [MiddleClickDemo.paintEvent], an effect whose
    rectangle at the current progress is not inside the widget shrunk by
    the margin of 12 pixels gets the rectangle recomputed with its angle
    plus [pi], clamped in position if that one is still outside and used
    as it is otherwise; the clamped rectangle keeps its size and is inside
    whenever it fits, and the angle stored in the effect is not changed.
    [MiddleClickOverlay.paintEvent] does neither: the hit region of every
    effect is the rectangle along the effect's own angle, which depends on
    the container only through the travel distance. *)
Theorem render_flip_and_clamp :
  (forall d prog e,
     let r := Demo.rect_along d prog e (Demo.e_angle e) in
     let flipped := Demo.rect_along d prog e (Demo.e_angle e + Py.math_pi)%Q in
     Demo.effect_rect d prog e
     = if Demo.out_of_bounds d r
       then if Demo.out_of_bounds d flipped then Demo.clamp d flipped else flipped
       else r)
  /\ (forall d r,
        Demo.out_of_bounds d r = false
        <-> within Demo.margin (Demo.widget_width d) (Demo.widget_height d) r)
  /\ (forall d r,
        width (Demo.clamp d r) = width r /\ height (Demo.clamp d r) = height r
        /\ (2 * Demo.margin + width r <= Demo.widget_width d ->
            2 * Demo.margin + height r <= Demo.widget_height d ->
            within Demo.margin (Demo.widget_width d) (Demo.widget_height d)
                   (Demo.clamp d r)))
  /\ (forall d now es' hits r,
        Demo.paint_loop d now 0 (Demo.effects d) = Some (es', hits, r) ->
        map Demo.e_angle es' = map Demo.e_angle (Demo.effects d)
        /\ hits = zip_with (fun e' k => (Demo.effect_rect d (Demo.e_progress e') e', k))
                           es' (seq 0 (length (Demo.effects d))))
  /\ (forall o now,
        exists es' hits r,
          paint_loop o now 0 (effects o) = Some (es', hits, r)
          /\ hits = zip_with (fun e' k => (effect_rect o (e_progress e') e', k))
                             es' (seq 0 (length (effects o))))
  /\ (forall o o2 prog e,
        base_dist o = base_dist o2 -> effect_rect o prog e = effect_rect o2 prog e).
Proof.
  split; [|split; [|split; [|split; [|split]]]].
  - intros d prog e r flipped. rewrite demo_effect_rect_cases. fold r flipped.
    destruct (Demo.out_of_bounds d r); [|reflexivity].
    destruct (Demo.out_of_bounds d flipped) eqn:E; [reflexivity|].
    apply clamp_id, E.
  - apply out_of_bounds_false.
  - intros d r. split; [reflexivity|]. split; [reflexivity|]. apply clamp_within.
  - intros d now es' hits r Hl. apply (demo_paint_loop_angles d now _ 0 es' hits r Hl).
  - intros o now.
    destruct (paint_loop_spec o now (effects o) 0) as (es' & hits & r & Hl & _ & Hh).
    exists es', hits, r. split; assumption.
  - apply effect_rect_container.
Qed.

End Bounds.

(** ** Clicks *)

Section Clicks.

Context `{Libm}.

Lemma selected_objs (self idx : nat) (opt : MenuOption) (w : World) :
  objs (selected self idx opt w) = objs w
  /\ _active_instance (selected self idx opt w) = _active_instance w.
Proof.
  unfold selected, invoke. destruct (callback opt) as [cb|]; [destruct (cb_raises cb)|];
    split; reflexivity.
Qed.

(** A left click on a hit region selects its option and closes. *)
Lemma mouseRelease_hit (self : nat) (fx fy now : Q) (w : World) (o : Overlay)
      (idx : nat) (opt : MenuOption) :
  objs w !! self = Some o ->
  find_hit (length (options o)) (mkPoint (Py.int fx) (Py.int fy)) (_hit_regions o) = Some idx ->
  options o !! idx = Some opt ->
  mouseReleaseEvent self LeftButton fx fy now w = QWidget_close self (selected self idx opt w).
Proof.
  intros Ho Hh Hopt. unfold mouseReleaseEvent, selected. rewrite Ho, Hh, Hopt. reflexivity.
Qed.

(** A left click outside every hit region begins closing. *)
Lemma mouseRelease_miss (self : nat) (fx fy now : Q) (w : World) (o : Overlay) :
  objs w !! self = Some o ->
  find_hit (length (options o)) (mkPoint (Py.int fx) (Py.int fy)) (_hit_regions o) = None ->
  mouseReleaseEvent self LeftButton fx fy now w = _start_close self now w.
Proof. intros Ho Hh. unfold mouseReleaseEvent. rewrite Ho, Hh. reflexivity. Qed.

(** What [find_hit] returns is the index of the first entry that matches,
    and it is a valid option index. *)
Lemma find_hit_Some (n : nat) (p : QPoint) (hits : list (QRect * nat)) (idx : nat) :
  find_hit n p hits = Some idx ->
  exists k rect,
    hits !! k = Some (rect, idx) /\ contains rect p = true /\ (idx < n)%nat
    /\ forall j r' i', (j < k)%nat -> hits !! j = Some (r', i') ->
                       contains r' p && (i' <? n)%nat = false.
Proof.
  induction hits as [|[r i] rest IH]; simpl; [discriminate|].
  destruct (contains r p && (i <? n)%nat) eqn:E.
  - intros [= <-]. apply andb_true_iff in E as [Hc Hi]. apply Nat.ltb_lt in Hi.
    exists 0%nat, r. repeat split; auto. intros j r' i' Hj. lia.
  - intros Hf. destruct (IH Hf) as (k & rect & Hk & Hc & Hi & Hfirst).
    exists (S k), rect. repeat split; auto.
    intros [|j] r' i' Hj; simpl.
    + intros [= <- <-]. exact E.
    + apply Hfirst. lia.
Qed.

(** An entry that matches is found, unless an earlier one is. *)
Lemma find_hit_earlier (n : nat) (p : QPoint) (hits : list (QRect * nat))
      (k : nat) (rect : QRect) (idx : nat) :
  hits !! k = Some (rect, idx) -> contains rect p = true -> (idx < n)%nat ->
  exists k' rect' idx',
    (k' <= k)%nat /\ hits !! k' = Some (rect', idx') /\ find_hit n p hits = Some idx'.
Proof.
  revert k. induction hits as [|[r i] rest IH]; intros k; [discriminate|]. simpl.
  destruct (contains r p && (i <? n)%nat) eqn:E.
  - intros _ _ _. exists 0%nat, r, i. split; [lia|]. split; reflexivity.
  - destruct k as [|k]; simpl.
    + intros [= <- <-] Hc Hi. apply Nat.ltb_lt in Hi. rewrite Hc, Hi in E. discriminate.
    + intros Hk Hc Hi. destruct (IH k Hk Hc Hi) as (k' & rect' & idx' & Hle & Hk' & Hf).
      exists (S k'), rect', idx'. repeat split; [lia | exact Hk' | exact Hf].
Qed.

(** After a paint the hit regions stand in paint order: the entry at
    position [k] belongs to option [k]. *)
Lemma paint_order (o : Overlay) (now : Q) (es : list Effect) :
  forall i es' hits r,
    paint_loop o now i es = Some (es', hits, r) -> map snd hits = seq i (length es).
Proof.
  induction es as [|e rest IH]; intros i es' hits r; simpl.
  - intros [= <- <- <-]. reflexivity.
  - destruct (effect_prog o now e) as [[p b]|]; simpl; [|discriminate].
    destruct (paint_loop o now (S i) rest) as [[[es2 h2] r2]|] eqn:Hl; simpl; [|discriminate].
    intros [= <- <- <-]. simpl. rewrite (IH (S i) es2 h2 r2 Hl). reflexivity.
Qed.

Lemma in_paint_order (hits : list (QRect * nat)) (k idx : nat) (rect : QRect) :
  map snd hits = seq 0 (length hits) -> hits !! k = Some (rect, idx) -> idx = k.
Proof.
  intros Hord Hk.
  assert (Hs : map snd hits !! k = Some idx).
  { change (map snd hits) with (snd <$> hits). rewrite list_lookup_fmap, Hk. reflexivity. }
  rewrite Hord in Hs. apply lookup_seq in Hs. lia.
Qed.

End Clicks.

Section Selection.

Context `{Libm}.

Lemma selected_calls (self idx : nat) (opt : MenuOption) (w : World) :
  calls (QWidget_close self (selected self idx opt w))
  = match callback opt with
    | Some cb => (self, idx, cb_id cb) :: calls w
    | None => calls w
    end.
Proof.
  rewrite QWidget_close_calls. unfold selected, invoke.
  destruct (callback opt) as [cb|]; [destruct (cb_raises cb)|]; reflexivity.
Qed.

(** C6, as amended. A left click is tested against the hit regions in the
    order in which the last paint appended them, which is the paint order
    (position [k] holds option [k]), and the first region that contains
    the point and has a valid index wins: its option is selected, its
    callback invoked and the overlay closed.  So when the rectangles of
    two options both contain the point, the callback invoked is the one of
    an option drawn no later than the earlier of the two, never the
    later-drawn one. *)
Theorem click_first_match_wins (self : nat) (fx fy now : Q) (w : World) (o : Overlay) :
  objs w !! self = Some o ->
  let p := mkPoint (Py.int fx) (Py.int fy) in
  let n := length (options o) in
  let hits := _hit_regions o in
  let w' := mouseReleaseEvent self LeftButton fx fy now w in
  (forall t es' hs r,
     paint_loop o t 0 (effects o) = Some (es', hs, r) ->
     map snd hs = seq 0 (length (effects o)))
  /\ (forall idx,
        find_hit n p hits = Some idx ->
        exists k rect opt,
          hits !! k = Some (rect, idx) /\ contains rect p = true
          /\ options o !! idx = Some opt
          /\ (forall j r' i', (j < k)%nat -> hits !! j = Some (r', i') ->
                              contains r' p && (i' <? n)%nat = false)
          /\ w' = QWidget_close self (selected self idx opt w)
          /\ calls w' = match callback opt with
                        | Some cb => (self, idx, cb_id cb) :: calls w
                        | None => calls w
                        end)
  /\ (map snd hits = seq 0 (length hits) ->
      forall i j ri rj,
        (i < j)%nat -> hits !! i = Some (ri, i) -> hits !! j = Some (rj, j) ->
        contains ri p = true -> contains rj p = true -> (i < n)%nat ->
        exists idx opt,
          (idx <= i)%nat /\ options o !! idx = Some opt
          /\ calls w' = match callback opt with
                        | Some cb => (self, idx, cb_id cb) :: calls w
                        | None => calls w
                        end).
Proof.
  intros Ho p n hits w'. split; [|split].
  - intros t es' hs r Hl. apply (paint_order o t _ 0 es' hs r Hl).
  - intros idx Hf.
    destruct (find_hit_Some n p hits idx Hf) as (k & rect & Hk & Hc & Hi & Hfirst).
    destruct (lookup_lt_is_Some_2 (options o) idx Hi) as [opt Hopt].
    exists k, rect, opt. repeat split; try assumption.
    + apply (mouseRelease_hit self fx fy now w o idx opt Ho Hf Hopt).
    + unfold w'. rewrite (mouseRelease_hit self fx fy now w o idx opt Ho Hf Hopt).
      apply selected_calls.
  - intros Hord i j ri rj Hij Hi Hj Hci Hcj Hin.
    destruct (find_hit_earlier n p hits i ri i Hi Hci Hin) as (k' & rect' & idx' & Hle & Hk' & Hf).
    pose proof (in_paint_order hits k' idx' rect' Hord Hk') as ->.
    destruct (find_hit_Some n p hits k' Hf) as (_ & _ & _ & _ & Hlt & _).
    destruct (lookup_lt_is_Some_2 (options o) k' Hlt) as [opt Hopt].
    exists k', opt. repeat split; try assumption.
    unfold w'. rewrite (mouseRelease_hit self fx fy now w o k' opt Ho Hf Hopt).
    apply selected_calls.
Qed.

(** C9. When the callback of the selected option raises, the handler
    still returns: the call is recorded, the failure is logged, and the
    overlay is closed.  The heap and the registration afterwards do not
    depend on whether the callback raised; the only difference is the
    logged failure. *)
Theorem failing_action_still_closes (self : nat) (fx fy now : Q) (w : World)
        (o : Overlay) (idx : nat) (opt : MenuOption) (cb : Callback) :
  objs w !! self = Some o ->
  find_hit (length (options o)) (mkPoint (Py.int fx) (Py.int fy)) (_hit_regions o) = Some idx ->
  options o !! idx = Some opt -> callback opt = Some cb ->
  exists w',
    step (EvMouseRelease self LeftButton fx fy now) w = Some w'
    /\ calls w' = (self, idx, cb_id cb) :: calls w
    /\ log w' = LogClose self
                  :: (if cb_raises cb then [LogCallbackFailed self] else [])
                  ++ LogOptionClicked self idx (label opt) :: log w
    /\ objs w' = <[self := closed o]> (objs w)
    /\ _active_instance w' = (if decide (_active_instance w = Some self) then None
                              else _active_instance w)
    /\ is_visible w' self = false
    /\ progress_of w' self = [] /\ hit_regions_of w' self = [].
Proof.
  intros Ho Hf Hopt Hcb. eexists. split; [reflexivity|].
  rewrite (mouseRelease_hit self fx fy now w o idx opt Ho Hf Hopt).
  assert (Hs : objs (selected self idx opt w) !! self = Some o).
  { rewrite (proj1 (selected_objs self idx opt w)). exact Ho. }
  rewrite (QWidget_close_eq self _ o Hs).
  unfold is_visible, progress_of, hit_regions_of. simpl. rewrite lookup_insert_eq.
  unfold selected, invoke. rewrite Hcb.
  destruct (cb_raises cb); simpl; repeat split; reflexivity.
Qed.

End Selection.

(** ** What one handler can do to the process *)

Section Steps.

Context `{Libm}.

Lemma local_step_refl (i : nat) (w : World) : local_step i w w.
Proof.
  unfold local_step. repeat split; auto.
  intros o Ho. exists o. repeat split; auto.
Qed.

(** Changing the log and recording calls of [i] before [close()]. *)
Lemma local_step_close (i : nat) (w w0 : World) :
  objs w0 = objs w -> _active_instance w0 = _active_instance w ->
  (calls w0 = calls w
   \/ exists idx cb o, calls w0 = (i, idx, cb) :: calls w /\ objs w !! i = Some o
                       /\ _hit_regions o <> []) ->
  local_step i w (QWidget_close i w0).
Proof.
  intros Hobjs Hact Hcalls. unfold local_step.
  destruct (objs w !! i) as [o|] eqn:Ho.
  - assert (Ho0 : objs w0 !! i = Some o) by (rewrite Hobjs; exact Ho).
    rewrite (QWidget_close_eq i w0 o Ho0). simpl. rewrite Hobjs, Hact.
    split; [intros j Hj; apply lookup_insert_ne; auto|].
    split; [discriminate|]. split.
    + intros o1 [= <-]. exists (closed o). rewrite lookup_insert_eq.
      split; [reflexivity|]. split; [simpl; discriminate|]. split.
      * intros _ Hh. repeat split.
        destruct Hcalls as [Hc|(idx & cb & o2 & _ & Ho2 & Hne)]; [exact Hc|].
        injection Ho2 as <-. contradiction.
      * destruct Hcalls as [Hc|(idx & cb & o2 & Hc & _)]; [left; exact Hc|].
        right. exists idx, cb. repeat split. exact Hc.
    + destruct (decide (_active_instance w = Some i)) as [Ha|Ha]; [right|left]; auto.
  - assert (Ho0 : objs w0 !! i = None) by (rewrite Hobjs; exact Ho).
    rewrite (QWidget_close_absent i w0 Ho0). rewrite Hobjs, Hact.
    split; [auto|]. split.
    + intros _. split; [exact Ho|].
      destruct Hcalls as [Hc|(idx & cb & o2 & _ & Ho2 & _)]; [exact Hc|discriminate].
    + split; [discriminate | left; reflexivity].
Qed.

(** Replacing the object of [i] by one that is no more visible and has
    nothing to hit if the old one had nothing. *)
Lemma local_step_put (i : nat) (w : World) (o o' : Overlay) :
  objs w !! i = Some o ->
  (visible o' = true -> visible o = true) ->
  (effects o = [] -> _hit_regions o = [] -> effects o' = [] /\ _hit_regions o' = []) ->
  local_step i w (put i o' w).
Proof.
  intros Ho Hv Hs. unfold local_step. simpl.
  split; [intros j Hj; apply lookup_insert_ne; auto|].
  split; [rewrite Ho; discriminate|]. split; [|left; reflexivity].
  intros o1. rewrite Ho. intros [= <-]. exists o'. rewrite lookup_insert_eq.
  repeat split; auto; try (apply Hs; assumption).
Qed.

Lemma start_close_local (i : nat) (now : Q) (w : World) :
  local_step i w (_start_close i now w).
Proof.
  unfold _start_close. destruct (objs w !! i) as [o|] eqn:Ho; [|apply local_step_refl].
  destruct (_closing o); [apply local_step_refl|].
  destruct (negb (anim_out_enabled o) || negb (anim_enabled o)).
  - apply local_step_close; auto.
  - apply (local_step_put i w o _ Ho); simpl.
    + destruct (negb (anim_timer_active o)); simpl; auto.
    + destruct (negb (anim_timer_active o)); simpl; auto.
Qed.

Lemma anim_tick_local (i : nat) (w : World) : local_step i w (_on_anim_tick i w).
Proof.
  unfold _on_anim_tick. destruct (objs w !! i) as [o|] eqn:Ho; [|apply local_step_refl].
  destruct (effects o) eqn:He; [|apply local_step_refl].
  apply (local_step_put i w o _ Ho); simpl; auto.
Qed.

Lemma leave_check_local (i : nat) (cur : QPoint) (now : Q) (w : World) :
  local_step i w (_on_leave_check i cur now w).
Proof.
  unfold _on_leave_check. destruct (objs w !! i) as [o|] eqn:Ho; [|apply local_step_refl].
  destruct (_center_global o) as [cg|]; [|apply local_step_refl].
  destruct (negb (QPoint_bool (Some cg))); [apply local_step_refl|].
  destruct (Py.hypot_gt _ _ _); [apply start_close_local | apply local_step_refl].
Qed.

Lemma mouseRelease_local (i : nat) (b : MouseButton) (fx fy now : Q) (w : World) :
  local_step i w (mouseReleaseEvent i b fx fy now w).
Proof.
  destruct (objs w !! i) as [o|] eqn:Ho.
  2:{ unfold mouseReleaseEvent. rewrite Ho. apply local_step_refl. }
  destruct b; try (unfold mouseReleaseEvent; rewrite Ho; apply local_step_refl).
  destruct (find_hit (length (options o)) (mkPoint (Py.int fx) (Py.int fy)) (_hit_regions o))
    as [idx|] eqn:Hf.
  - destruct (find_hit_Some _ _ _ _ Hf) as (k & rect & Hk & _ & Hi & _).
    destruct (lookup_lt_is_Some_2 (options o) idx Hi) as [opt Hopt].
    rewrite (mouseRelease_hit i fx fy now w o idx opt Ho Hf Hopt).
    destruct (selected_objs i idx opt w) as [Hobjs Hact].
    apply local_step_close; [exact Hobjs | exact Hact |].
    unfold selected, invoke. destruct (callback opt) as [cb|]; [|left; reflexivity].
    right. exists idx, (cb_id cb), o. split; [destruct (cb_raises cb); reflexivity|].
    split; [exact Ho|]. intros E. rewrite E in Hk. discriminate.
  - rewrite (mouseRelease_miss i fx fy now w o Ho Hf). apply start_close_local.
Qed.

Lemma paintEvent_local (i : nat) (now : Q) (w w' : World) :
  paintEvent i now w = Some w' -> local_step i w w'.
Proof.
  unfold paintEvent. destruct (objs w !! i) as [o|] eqn:Ho.
  2:{ intros [= <-]. apply local_step_refl. }
  destruct (negb (QPoint_bool (center o))); [intros [= <-]; apply local_step_refl|].
  destruct (paint_loop_spec o now (effects o) 0) as (es & hits & r & Hl & Hf & Hh).
  rewrite Hl. simpl.
  assert (Hspent : effects o = [] -> es = [] /\ hits = []).
  { intros He. rewrite He in Hf, Hh. inversion Hf; subst. split; reflexivity. }
  destruct (negb r && anim_timer_active o).
  - destruct (_closing o).
    + intros [= <-].
      set (o1 := set_anim_timer false (set_hit_regions hits (set_effects es o))).
      assert (Hq : objs (put i o1 w) !! i = Some o1) by apply lookup_put_eq.
      rewrite (QWidget_close_eq i _ o1 Hq). unfold local_step. simpl.
      split; [intros j Hj; rewrite !lookup_insert_ne; auto|].
      split; [rewrite Ho; discriminate|]. split.
      * intros o2. rewrite Ho. intros [= <-]. exists (closed o1).
        rewrite lookup_insert_eq. repeat split; auto; simpl; discriminate.
      * destruct (decide (_active_instance w = Some i)); [right|left]; auto.
    + intros [= <-]. apply (local_step_put i w o _ Ho); simpl; auto.
  - intros [= <-]. apply (local_step_put i w o _ Ho); simpl; auto.
Qed.

End Steps.

(** ** Invariants of the event loop *)

Section Invariants.

Context `{Libm}.

Lemma close_local (i : nat) (w : World) : local_step i w (QWidget_close i w).
Proof. apply local_step_close; auto. Qed.

Lemma step_local (ev : Event) (w w' : World) :
  is_show ev = false -> step ev w = Some w' -> local_step (target ev) w w'.
Proof.
  destruct ev; simpl; try discriminate; intros _.
  - intros [= <-]. apply anim_tick_local.
  - apply paintEvent_local.
  - intros [= <-]. apply mouseRelease_local.
  - intros [= <-]. apply leave_check_local.
  - intros [= <-]. apply close_local.
Qed.

(** *** One live instance *)

Lemma local_step_single_live (i : nat) (w w' : World) :
  local_step i w w' -> single_live w -> single_live w'.
Proof.
  intros (Hother & Hnone & Hsome & Hact) Hlive j o' Hj Hv.
  destruct (decide (j = i)) as [->|Hne].
  - destruct (objs w !! i) as [o|] eqn:Ho.
    + destruct (Hsome o eq_refl) as (o2 & Ho2 & Hvis & _).
      rewrite Hj in Ho2. injection Ho2 as <-.
      destruct (Hvis Hv) as [Hvo Ha]. rewrite Ha. apply (Hlive i o Ho Hvo).
    + destruct (Hnone eq_refl) as [Hn _]. rewrite Hn in Hj. discriminate.
  - rewrite (Hother j Hne) in Hj. pose proof (Hlive j o' Hj Hv) as Ha.
    destruct Hact as [Hsame|[Hi _]]; [rewrite Hsame; exact Ha|].
    rewrite Ha in Hi. injection Hi as ->. contradiction.
Qed.

(** The world in which [show_at] goes on: nothing but [self] is shown. *)
Lemma close_previous_hides (self : nat) (w : World) :
  single_live w ->
  let w1 := match _active_instance w with
            | Some a => if decide (a = self) then w else QWidget_close a w
            | None => w
            end in
  single_live w1
  /\ forall j o, j <> self -> objs w1 !! j = Some o -> visible o = false.
Proof.
  intros Hlive w1.
  assert (Hl1 : single_live w1).
  { unfold w1. destruct (_active_instance w) as [a|]; [|exact Hlive].
    destruct (decide (a = self)); [exact Hlive|].
    apply (local_step_single_live a w _ (close_local a w) Hlive). }
  split; [exact Hl1|]. intros j o Hj Ho.
  destruct (visible o) eqn:Hv; [|reflexivity]. exfalso.
  pose proof (Hl1 j o Ho Hv) as Ha. unfold w1 in Ha, Ho. clear Hl1 w1.
  destruct (_active_instance w) as [a|] eqn:Hact; [|rewrite Hact in Ha; discriminate].
  destruct (decide (a = self)) as [->|Hne].
  - rewrite Hact in Ha. injection Ha as ->. contradiction.
  - destruct (objs w !! a) as [oa|] eqn:Hoa.
    + rewrite (QWidget_close_eq a w oa Hoa) in Ha. simpl in Ha. rewrite Hact in Ha.
      destruct (decide (Some a = Some a)); [discriminate | contradiction].
    + rewrite (QWidget_close_absent a w Hoa) in Ha, Ho. rewrite Hact in Ha.
      injection Ha as ->. rewrite Hoa in Ho. discriminate.
Qed.

Lemma show_at_single_live (self : nat) (gp : QPoint) (geo : QRect)
      (clock : nat -> Q) (w : World) :
  single_live w -> single_live (show_at self gp geo clock w).
Proof.
  intros Hlive. destruct (close_previous_hides self w Hlive) as [Hl1 Hhid].
  unfold show_at.
  set (w1 := match _active_instance w with
             | Some a => if decide (a = self) then w else QWidget_close a w
             | None => w
             end) in *.
  destruct (objs w1 !! self) as [o|] eqn:Ho; [|exact Hl1].
  intros j o' Hj Hv. simpl. destruct (decide (j = self)) as [->|Hne]; [reflexivity|].
  simpl in Hj. rewrite lookup_insert_ne in Hj by auto.
  rewrite (Hhid j o' Hne Hj) in Hv. discriminate.
Qed.

Lemma step_single_live (ev : Event) (w w' : World) :
  step ev w = Some w' -> single_live w -> single_live w'.
Proof.
  destruct (is_show ev) eqn:Hs.
  - destruct ev; try discriminate. simpl. intros [= <-]. apply show_at_single_live.
  - intros Hstep. apply (local_step_single_live _ w w' (step_local ev w w' Hs Hstep)).
Qed.

Lemma run_single_live (evs : list Event) :
  forall w, single_live w -> exists w', run evs w = Some w' /\ single_live w'.
Proof.
  induction evs as [|ev rest IH]; intros w Hlive; simpl; [eauto|].
  destruct (step_total ev w) as [w1 Hs]. rewrite Hs. simpl.
  apply IH, (step_single_live ev w w1 Hs Hlive).
Qed.

Lemma single_live_unique (w : World) (i j : nat) :
  single_live w -> is_visible w i = true -> is_visible w j = true -> i = j.
Proof.
  unfold is_visible. intros Hlive Hi Hj.
  destruct (objs w !! i) as [oi|] eqn:Hoi; [|discriminate].
  destruct (objs w !! j) as [oj|] eqn:Hoj; [|discriminate].
  pose proof (Hlive i oi Hoi Hi) as Ha. rewrite (Hlive j oj Hoj Hj) in Ha.
  injection Ha as ->. reflexivity.
Qed.

End Invariants.

Section Registry.

Context `{Libm}.

Lemma closeEvent_active (i : nat) (w : World) (o : Overlay) :
  objs w !! i = Some o ->
  _active_instance (closeEvent i w)
  = if decide (_active_instance w = Some i) then None else _active_instance w.
Proof.
  intros Ho. unfold closeEvent. rewrite Ho. simpl.
  destruct (decide (_active_instance w = Some i)); reflexivity.
Qed.

(** C3. At most one overlay is shown, and it is the registered one: this
    holds after every run of events from a world in which it holds.
    [show_at] of [b] while another instance [a] is registered first closes
    [a] at once (hidden, its effects dropped, its [_closing] flag not
    touched, the registration cleared), and then registers and shows [b].
    A close clears the registration only when the closing instance is the
    registered one: the close of any other instance leaves it. *)
Theorem single_instance_registry :
  (forall evs w,
     single_live w ->
     exists w', run evs w = Some w' /\ single_live w'
                /\ forall i j, is_visible w' i = true -> is_visible w' j = true -> i = j)
  /\ (forall a b oa ob gp geo clock w,
        a <> b -> _active_instance w = Some a ->
        objs w !! a = Some oa -> objs w !! b = Some ob ->
        let w1 := QWidget_close a w in
        let w2 := show_at b gp geo clock w in
        w2 = show_at b gp geo clock w1
        /\ _active_instance w1 = None /\ objs w1 !! a = Some (closed oa)
        /\ objs w1 !! b = Some ob
        /\ visible (closed oa) = false /\ effects (closed oa) = []
        /\ _closing (closed oa) = _closing oa
        /\ _active_instance w2 = Some b /\ is_visible w2 b = true
        /\ is_visible w2 a = false
        /\ log w2 = LogShowAt b gp (length (options ob)) :: LogClose a :: log w)
  /\ (forall i o w,
        objs w !! i = Some o ->
        _active_instance (closeEvent i w)
        = (if decide (_active_instance w = Some i) then None else _active_instance w)
        /\ _active_instance (QWidget_close i w) = _active_instance (closeEvent i w))
  /\ (forall i b w,
        i <> b -> _active_instance w = Some b ->
        _active_instance (closeEvent i w) = Some b
        /\ _active_instance (QWidget_close i w) = Some b).
Proof.
  split; [|split; [|split]].
  - intros evs w Hlive. destruct (run_single_live evs w Hlive) as (w' & Hr & Hl).
    exists w'. split; [exact Hr|]. split; [exact Hl|].
    intros i j. apply single_live_unique, Hl.
  - intros a b oa ob gp geo clock w Hab Hact Hoa Hob w1 w2.
    assert (Hw1 : w1 = mkWorld None (<[a := closed oa]> (objs w)) (LogClose a :: log w) (calls w)).
    { unfold w1. rewrite (QWidget_close_eq a w oa Hoa), Hact.
      destruct (decide (Some a = Some a)); [reflexivity | contradiction]. }
    assert (Hb1 : objs w1 !! b = Some ob).
    { rewrite Hw1. simpl. rewrite lookup_insert_ne by auto. exact Hob. }
    assert (Hw2 : w2 = show_at b gp geo clock w1).
    { assert (Ha1 : _active_instance w1 = None) by (rewrite Hw1; reflexivity).
      unfold w2, show_at. rewrite Hact.
      destruct (decide (a = b)); [contradiction|]. fold w1.
      rewrite Ha1. reflexivity. }
    split; [exact Hw2|].
    split; [rewrite Hw1; reflexivity|].
    split; [rewrite Hw1; simpl; apply lookup_insert_eq|].
    split; [exact Hb1|].
    split; [reflexivity|]. split; [reflexivity|]. split; [reflexivity|].
    rewrite Hw2. unfold show_at, is_visible.
    replace (_active_instance w1) with (@None nat) by (rewrite Hw1; reflexivity).
    rewrite Hb1. simpl. rewrite lookup_insert_eq, lookup_insert_ne by auto.
    rewrite Hw1. simpl. rewrite lookup_insert_eq.
    repeat split; destruct (anim_enabled ob); reflexivity.
  - intros i o w Ho. split; [apply (closeEvent_active i w o Ho)|].
    rewrite (closeEvent_active i w o Ho), (QWidget_close_eq i w o Ho). reflexivity.
  - intros i b w Hib Hact.
    assert (Hc : _active_instance (closeEvent i w) = Some b).
    { unfold closeEvent. destruct (objs w !! i) as [o|]; [|exact Hact]. simpl.
      rewrite Hact. destruct (decide (Some b = Some i)) as [[= ->]|]; [contradiction|].
      simpl. exact Hact. }
    split; [exact Hc|]. unfold QWidget_close.
    destruct (objs (closeEvent i w) !! i); [simpl|]; exact Hc.
Qed.

End Registry.

(** *** One action per lifetime *)

Section AtMostOnce.

Context `{Libm}.

Lemma calls_of_cons_other (self i idx cb : nat) (w w' : World) :
  i <> self -> calls w' = (i, idx, cb) :: calls w -> calls_of self w' = calls_of self w.
Proof.
  intros Hne Hc. unfold calls_of. rewrite Hc. apply filter_cons_False. simpl. exact Hne.
Qed.

Lemma calls_of_cons_self (self idx cb : nat) (w w' : World) :
  calls w' = (self, idx, cb) :: calls w ->
  calls_of self w' = (self, idx, cb) :: calls_of self w.
Proof.
  intros Hc. unfold calls_of. rewrite Hc. apply filter_cons_True. reflexivity.
Qed.

Lemma calls_of_same (self : nat) (w w' : World) :
  calls w' = calls w -> calls_of self w' = calls_of self w.
Proof. intros Hc. unfold calls_of. rewrite Hc. reflexivity. Qed.

Lemma spent_frame (i : nat) (w w' : World) :
  objs w' !! i = objs w !! i -> spent i w -> spent i w'.
Proof. unfold spent. intros ->. auto. Qed.

Lemma spent_close (i : nat) (w : World) : spent i (QWidget_close i w).
Proof.
  unfold spent. destruct (objs w !! i) as [o|] eqn:Ho.
  - rewrite (QWidget_close_eq i w o Ho). simpl. rewrite lookup_insert_eq. split; reflexivity.
  - rewrite (QWidget_close_absent i w Ho), Ho. exact I.
Qed.

(** A handler of another instance neither invokes a callback of [self]
    nor gives it anything to hit. *)
Lemma local_step_other (self i : nat) (w w' : World) :
  i <> self -> local_step i w w' ->
  calls_of self w' = calls_of self w /\ (spent self w -> spent self w').
Proof.
  intros Hne (Hother & Hnone & Hsome & _). split.
  - destruct (objs w !! i) as [o|] eqn:Ho.
    + destruct (Hsome o eq_refl) as (o' & _ & _ & _ & [Hc|(idx & cb & Hc & _)]).
      * apply calls_of_same, Hc.
      * apply (calls_of_cons_other self i idx cb w w' Hne Hc).
    + apply calls_of_same, (Hnone eq_refl).
  - apply spent_frame, Hother. auto.
Qed.

(** A handler of [self] invokes at most one callback, and none once
    [self] is spent. *)
Lemma local_step_self (self : nat) (w w' : World) :
  local_step self w w' ->
  (calls_of self w' = calls_of self w
   \/ exists c, calls_of self w' = c :: calls_of self w /\ spent self w')
  /\ (spent self w -> spent self w' /\ calls_of self w' = calls_of self w).
Proof.
  intros (_ & Hnone & Hsome & _). unfold spent at 2 3.
  destruct (objs w !! self) as [o|] eqn:Ho.
  - destruct (Hsome o eq_refl) as (o' & Ho' & _ & Hsp & Hc). rewrite Ho'. split.
    + destruct Hc as [Hc|(idx & cb & Hc & He & Hh)].
      * left. apply calls_of_same, Hc.
      * right. exists (self, idx, cb). split; [apply calls_of_cons_self, Hc|].
        unfold spent. rewrite Ho'. split; assumption.
    + intros [He Hh]. destruct (Hsp He Hh) as (He' & Hh' & Hc').
      split; [split; assumption | apply calls_of_same, Hc'].
  - destruct (Hnone eq_refl) as [Hn Hc]. rewrite Hn. split.
    + left. apply calls_of_same, Hc.
    + intros _. split; [exact I | apply calls_of_same, Hc].
Qed.

(** [show_at] of another instance invokes nothing and, if it closes
    [self], leaves it spent. *)
Lemma show_at_other (self i : nat) (gp : QPoint) (geo : QRect) (clock : nat -> Q)
      (w : World) :
  i <> self ->
  calls (show_at i gp geo clock w) = calls w
  /\ (spent self w -> spent self (show_at i gp geo clock w)).
Proof.
  intros Hne. unfold show_at.
  set (w1 := match _active_instance w with
             | Some a => if decide (a = i) then w else QWidget_close a w
             | None => w
             end).
  assert (Hc1 : calls w1 = calls w).
  { unfold w1. destruct (_active_instance w) as [a|]; [|reflexivity].
    destruct (decide (a = i)); [reflexivity | apply QWidget_close_calls]. }
  assert (Hs1 : spent self w -> spent self w1).
  { unfold w1. destruct (_active_instance w) as [a|]; [|auto].
    destruct (decide (a = i)); [auto|].
    destruct (decide (a = self)) as [->|Has]; [intros _; apply spent_close|].
    apply spent_frame, QWidget_close_lookup_ne, Has. }
  destruct (objs w1 !! i) as [o|]; [|split; assumption].
  split; [simpl; exact Hc1|].
  intros Hs. apply (spent_frame self w1); [|auto].
  simpl. apply lookup_insert_ne, Hne.
Qed.

Lemma step_once (self : nat) (ev : Event) (w w' : World) :
  same_lifetime self [ev] = true -> step ev w = Some w' ->
  (calls_of self w' = calls_of self w
   \/ exists c, calls_of self w' = c :: calls_of self w /\ spent self w')
  /\ (spent self w -> spent self w' /\ calls_of self w' = calls_of self w).
Proof.
  intros Hlife Hstep. destruct (is_show ev) eqn:Hs.
  - destruct ev as [i gp geo clock| | | | |]; try discriminate.
    simpl in Hlife. rewrite andb_true_r in Hlife.
    apply negb_true_iff, Nat.eqb_neq in Hlife.
    simpl in Hstep. injection Hstep as <-.
    destruct (show_at_other self i gp geo clock w Hlife) as [Hc Hsp].
    split; [left; apply calls_of_same, Hc|].
    intros Hw. split; [auto | apply calls_of_same, Hc].
  - pose proof (step_local ev w w' Hs Hstep) as Hl.
    destruct (decide (target ev = self)) as [<-|Hne].
    + apply local_step_self, Hl.
    + destruct (local_step_other self (target ev) w w' Hne Hl) as [Hc Hsp].
      split; [left; exact Hc | intros Hw; split; auto].
Qed.

Lemma same_lifetime_cons (self : nat) (ev : Event) (evs : list Event) :
  same_lifetime self (ev :: evs) = true ->
  same_lifetime self [ev] = true /\ same_lifetime self evs = true.
Proof.
  unfold same_lifetime. simpl. rewrite andb_true_r. apply andb_true_iff.
Qed.

(** Once spent, an instance invokes nothing for the rest of its lifetime. *)
Lemma run_spent (self : nat) (evs : list Event) :
  forall w,
    same_lifetime self evs = true -> spent self w ->
    exists w', run evs w = Some w' /\ spent self w' /\ calls_of self w' = calls_of self w.
Proof.
  induction evs as [|ev rest IH]; intros w Hlife Hsp; simpl; [eauto|].
  apply same_lifetime_cons in Hlife as [Hev Hrest].
  destruct (step_total ev w) as [w1 Hs]. rewrite Hs. simpl.
  destruct (step_once self ev w w1 Hev Hs) as [_ Hkeep].
  destruct (Hkeep Hsp) as [Hsp1 Hc1].
  destruct (IH w1 Hrest Hsp1) as (w' & Hr & Hsp' & Hc').
  exists w'. split; [exact Hr|]. split; [exact Hsp'|]. congruence.
Qed.

Lemma run_once (self : nat) (evs : list Event) :
  forall w,
    same_lifetime self evs = true ->
    exists w', run evs w = Some w'
               /\ (calls_of self w' = calls_of self w
                   \/ exists c, calls_of self w' = c :: calls_of self w).
Proof.
  induction evs as [|ev rest IH]; intros w Hlife; simpl; [eauto|].
  apply same_lifetime_cons in Hlife as [Hev Hrest].
  destruct (step_total ev w) as [w1 Hs]. rewrite Hs. simpl.
  destruct (step_once self ev w w1 Hev Hs) as [[Hc|(c & Hc & Hsp)] _].
  - destruct (IH w1 Hrest) as (w' & Hr & Hc'). exists w'. split; [exact Hr|].
    rewrite <- Hc. exact Hc'.
  - destruct (run_spent self rest w1 Hrest Hsp) as (w' & Hr & _ & Hc').
    exists w'. split; [exact Hr|]. right. exists c. congruence.
Qed.

(** C2. During one lifetime of an overlay, that is over any events among
    which it is not shown again, at most one callback of the overlay is
    invoked.  A left click on a hit region closes the overlay: it is
    hidden and its effects and hit regions are cleared, so whatever
    events follow in the same lifetime, clicks on the same place
    included, invoke no further callback. *)
Theorem action_fires_at_most_once (self : nat) (evs : list Event) (w : World) :
  same_lifetime self evs = true ->
  (exists w', run evs w = Some w'
              /\ (calls_of self w' = calls_of self w
                  \/ exists c, calls_of self w' = c :: calls_of self w))
  /\ (forall fx fy now o idx,
        objs w !! self = Some o ->
        find_hit (length (options o)) (mkPoint (Py.int fx) (Py.int fy)) (_hit_regions o)
        = Some idx ->
        let w1 := mouseReleaseEvent self LeftButton fx fy now w in
        is_visible w1 self = false
        /\ progress_of w1 self = [] /\ hit_regions_of w1 self = []
        /\ exists w', run evs w1 = Some w' /\ calls_of self w' = calls_of self w1).
Proof.
  intros Hlife. split; [apply run_once, Hlife|].
  intros fx fy now o idx Ho Hf w1.
  destruct (find_hit_Some _ _ _ _ Hf) as (_ & _ & _ & _ & Hi & _).
  destruct (lookup_lt_is_Some_2 (options o) idx Hi) as [opt Hopt].
  assert (Hw1 : w1 = QWidget_close self (selected self idx opt w)).
  { apply (mouseRelease_hit self fx fy now w o idx opt Ho Hf Hopt). }
  assert (Hs : objs (selected self idx opt w) !! self = Some o).
  { rewrite (proj1 (selected_objs self idx opt w)). exact Ho. }
  assert (Hsp : spent self w1) by (rewrite Hw1; apply spent_close).
  split; [|split; [|split]].
  - rewrite Hw1, (QWidget_close_eq self _ o Hs). unfold is_visible. simpl.
    rewrite lookup_insert_eq. reflexivity.
  - rewrite Hw1, (QWidget_close_eq self _ o Hs). unfold progress_of. simpl.
    rewrite lookup_insert_eq. reflexivity.
  - rewrite Hw1, (QWidget_close_eq self _ o Hs). unfold hit_regions_of. simpl.
    rewrite lookup_insert_eq. reflexivity.
  - destruct (run_spent self evs w1 Hlife Hsp) as (w' & Hr & _ & Hc). eauto.
Qed.

End AtMostOnce.

(** ** The properties on the sample data *)

Lemma sample_world0_single_live : single_live Sample.world0.
Proof.
  intros i o Hi Hv. unfold Sample.world0 in Hi. simpl in Hi.
  destruct (decide (1%nat = i)) as [<-|H1].
  - rewrite lookup_insert_eq in Hi. injection Hi as <-. discriminate.
  - rewrite lookup_insert_ne in Hi by exact H1.
    destruct (decide (0%nat = i)) as [<-|H0].
    + rewrite lookup_insert_eq in Hi. injection Hi as <-. discriminate.
    + rewrite lookup_insert_ne in Hi by exact H0. rewrite lookup_empty in Hi.
      discriminate.
Qed.

Lemma hypot_le_sqrt (dx dy limit : Z) :
  Py.hypot_gt dx dy limit = false ->
  (sqrt (IZR (dx * dx + dy * dy)) <= IZR limit)%R.
Proof.
  intros Hf. apply Rnot_lt_le. intros Hlt. apply hypot_gt_sqrt in Hlt. congruence.
Qed.




(** The demo began closing at progress 0.4: a tick half way through the
    exit duration. *)
Lemma closing_progress_decay_witness :
  exists es' hits r,
    Demo.paint_loop (H := Coarse.libm) Sample.demo_closing (15 # 100) 0
                    (Demo.effects Sample.demo_closing)
    = Some (es', hits, r)
    /\ Forall2 (captured (1 # 10)) [2 # 5] es'
    /\ Forall2 (fun sp e' =>
                  Demo.e_progress e'
                  == linear_decay sp (time_fraction ((15 # 100) - (1 # 10))
                                                    (Demo.anim_out_duration Sample.demo_closing)))
               [2 # 5] es'.
Proof.
  apply (proj1 (proj2 (closing_progress_decay (H := Coarse.libm)))).
  - reflexivity.
  - constructor; [split; reflexivity | constructor].
  - constructor; [apply Qle_bool_iff; reflexivity | constructor].
Defined.

(** The sample overlay is painted at 0.07 s, where its effects stand at
    progress 61/125 = 0.488, and begins closing at that moment.  The tick
    at 0.10 s, a quarter of the exit duration later, stores 27/64, the
    cube of 3/4, and not 0.488 * 3/4; a tick at the very moment closing
    began stores 1. *)
Lemma overlay_closing_restarts_from_one :
  exists w2 w3 w4 o2,
    run (H := Coarse.libm)
        [EvPaint 0 (7 # 100); EvLeaveCheck 0 (mkPoint 1000 1000) (7 # 100)] Sample.shown
    = Some w2
    /\ objs w2 !! 0%nat = Some o2
    /\ _closing o2 = true /\ _closing_start o2 = Some (7 # 100) /\ anim_enabled o2 = true
    /\ map Qred (progress_of w2 0) = [61 # 125; 61 # 125]
    /\ run (H := Coarse.libm) [EvPaint 0 (10 # 100)] w2 = Some w3
    /\ map Qred (progress_of w3 0) = [27 # 64; 27 # 64]
    /\ ~ (27 # 64 == linear_decay (61 # 125)
                       (time_fraction ((10 # 100) - (7 # 100)) (anim_out_duration o2)))
    /\ run (H := Coarse.libm) [EvPaint 0 (7 # 100)] w2 = Some w4
    /\ map Qred (progress_of w4 0) = [1; 1]%Q.
Proof.
  eexists _, _, _, _.
  split; [vm_compute; reflexivity|].
  split; [vm_compute; reflexivity|].
  split; [reflexivity|]. split; [reflexivity|]. split; [reflexivity|].
  split; [vm_compute; reflexivity|].
  split; [vm_compute; reflexivity|].
  split; [vm_compute; reflexivity|].
  split; [vm_compute; discriminate|].
  split; [vm_compute; reflexivity|].
  vm_compute; reflexivity.
Qed.

Lemma int_of_Z (q : Q) (z : Z) : q == inject_Z z -> Py.int q = z.
Proof.
  intros Hq. unfold Py.int.
  destruct (Qle_bool 0 q).
  - rewrite Hq. apply Qfloor_Z.
  - rewrite Hq. apply Qceiling_Z.
Qed.

(** At progress 0 the rectangle of the overlay is centred on the click
    point, whatever the cosine and the sine. *)
Lemma effect_rect_at_zero `{Libm} (o : Overlay) (e : Effect) :
  left (effect_rect o 0 e)
  = x (e_center e) - Py.int (inject_Z (e_target_w e) * ((6 # 10) + (4 # 10) * 0))%Q / 2
  /\ top (effect_rect o 0 e)
     = y (e_center e) - Py.int (inject_Z (e_target_h e) * ((6 # 10) + (4 # 10) * 0))%Q / 2.
Proof.
  unfold effect_rect. cbn [left top]. split.
  - rewrite (int_of_Z _ (x (e_center e))); [reflexivity | ring].
  - rewrite (int_of_Z _ (y (e_center e))); [reflexivity | ring].
Qed.

(** The demo's effect 5 pixels from the corner: the rectangle along its
    angle is outside, and so is the flipped one, so the clamp puts it at
    the margin. *)
Lemma render_flip_and_clamp_witness :
  Demo.effect_rect (H := Coarse.libm) Sample.demo0 0 Sample.demo_effect = mkRect 12 12 50 21
  /\ within Demo.margin 640 480 (Demo.clamp Sample.demo0 (mkRect (-20) (-5) 50 21)).
Proof.
  split.
  - rewrite (proj1 (render_flip_and_clamp (H := Coarse.libm))). vm_compute. reflexivity.
  - apply (proj1 (proj2 (proj2 (render_flip_and_clamp (H := Coarse.libm)))) Sample.demo0
                 (mkRect (-20) (-5) 50 21));
      vm_compute; discriminate.
Defined.

(** The overlay shown at a click 5 pixels from the corner of its window
    and painted at progress 0: each hit region is the rectangle around
    the click point, 25 pixels beyond the left edge and 5 beyond the top
    edge of the container; it is neither moved to the other side nor
    clamped, for any cosine and sine. *)
Lemma overlay_rect_left_outside :
  exists w1 o1,
    run (H := Coarse.libm) [EvPaint 0 0]
        (show_at (H := Coarse.libm) 0 Sample.corner_click Sample.window Sample.clock
                 Sample.world0)
    = Some w1
    /\ objs w1 !! 0%nat = Some o1
    /\ geometry o1 = mkRect 100 100 640 480
    /\ map Qred (progress_of w1 0) = [0; 0]%Q
    /\ _hit_regions o1 = [(mkRect (-25) (-5) 60 21, 0%nat); (mkRect (-25) (-5) 60 21, 1%nat)]
    /\ ~ within 0 640 480 (mkRect (-25) (-5) 60 21)
    /\ (forall (L : Libm) e,
          In e (effects o1) ->
          left (effect_rect (H := L) o1 0 e) = -25 /\ top (effect_rect (H := L) o1 0 e) = -5).
Proof.
  eexists _, _.
  split; [vm_compute; reflexivity|].
  split; [vm_compute; reflexivity|].
  split; [reflexivity|].
  split; [vm_compute; reflexivity|].
  split; [vm_compute; reflexivity|].
  split; [unfold within; simpl; lia|].
  intros L e He.
  match goal with
  | |- left (effect_rect ?o _ _) = _ /\ _ =>
      destruct (effect_rect_at_zero (H := L) o e) as [Hl Ht]
  end.
  rewrite Hl, Ht. clear Hl Ht.
  simpl in He. destruct He as [<-|[<-|[]]]; vm_compute; split; reflexivity.
Qed.

(** A lifetime of the sample overlay: first frame, a click on the click
    point, which lies in both rectangles, the same click again, a paint,
    and the click once more. *)
Lemma action_fires_at_most_once_witness :
  exists w',
    run (H := Coarse.libm)
        [EvPaint 0 0; EvMouseRelease 0 LeftButton 200 150 (1 # 100);
         EvMouseRelease 0 LeftButton 200 150 (2 # 100); EvPaint 0 (3 # 100);
         EvMouseRelease 0 LeftButton 200 150 (4 # 100)] Sample.shown
    = Some w'
    /\ (calls_of 0 w' = calls_of 0 Sample.shown
        \/ exists c, calls_of 0 w' = c :: calls_of 0 Sample.shown).
Proof.
  refine (proj1 (action_fires_at_most_once (H := Coarse.libm) 0%nat _ Sample.shown _)).
  reflexivity.
Defined.

(** Instance 0 is shown, then instance 1, then the superseded instance 0
    is closed once more. *)
Lemma single_instance_registry_witness :
  exists w',
    run (H := Coarse.libm)
        [EvShowAt 0 Sample.click Sample.window Sample.clock;
         EvShowAt 1 (mkPoint 400 300) Sample.window Sample.clock;
         EvClose 0] Sample.world0
    = Some w'
    /\ single_live w'
    /\ forall i j, is_visible w' i = true -> is_visible w' j = true -> i = j.
Proof.
  apply (proj1 (single_instance_registry (H := Coarse.libm)) _ Sample.world0
               sample_world0_single_live).
Defined.

(** The two options of the sample overlay. *)
Lemma show_at_angle_distribution_witness :
  let base := baseline (H := Coarse.libm) Sample.window
                       (mapFromGlobal Sample.window Sample.click) in
  exists o',
    objs Sample.shown !! 0%nat = Some o'
    /\ length (effects o') = 2%nat
    /\ map e_angle (effects o') = map (angle_at base 2) (seq 0 2).
Proof.
  intros base.
  destruct (show_at_angle_distribution (H := Coarse.libm) 0%nat Sample.click Sample.window
              Sample.clock Sample.world0 (init_overlay Sample.opts))
    as (_ & o' & Ho' & Hlen & _ & Hmany); [reflexivity|].
  exists o'. split; [exact Ho'|]. split; [exact Hlen|].
  apply (proj1 (Hmany (le_n 2))).
Defined.

(** On the first frame of the sample overlay both hit regions contain the
    click point. *)
Lemma click_first_match_wins_witness :
  exists idx opt,
    (idx <= 0)%nat
    /\ options (Sample.overlay_of Sample.first_frame 0) !! idx = Some opt
    /\ calls (mouseReleaseEvent 0 LeftButton 200 150 (1 # 100) Sample.first_frame)
       = match callback opt with
         | Some cb => (0%nat, idx, cb_id cb) :: calls Sample.first_frame
         | None => calls Sample.first_frame
         end.
Proof.
  destruct (click_first_match_wins (H := Coarse.libm) 0%nat 200 150 (1 # 100)
              Sample.first_frame (Sample.overlay_of Sample.first_frame 0))
    as (_ & _ & Hoverlap); [vm_compute; reflexivity|].
  apply (Hoverlap eq_refl 0%nat 1%nat (mkRect 170 140 60 21) (mkRect 170 140 60 21));
    [lia | vm_compute; reflexivity | vm_compute; reflexivity
     | reflexivity | reflexivity | vm_compute; lia].
Defined.

(** On the first frame of the sample overlay the rectangles of both
    options are the same rectangle around the click point; option 0 is
    drawn first and option 1 over it.  A click on that point invokes
    callback 10, of option 0, and not callback 11 of the later-drawn
    option 1. *)
Lemma click_on_overlap_fires_first_drawn :
  exists w1,
    hit_regions_of Sample.first_frame 0
    = [(mkRect 170 140 60 21, 0%nat); (mkRect 170 140 60 21, 1%nat)]
    /\ contains (mkRect 170 140 60 21) (mkPoint 200 150) = true
    /\ map callback (options (Sample.overlay_of Sample.first_frame 0))
       = [Some (mkCallback 10 false); Some (mkCallback 11 true)]
    /\ run (H := Coarse.libm) [EvMouseRelease 0 LeftButton 200 150 (1 # 100)]
           Sample.first_frame
       = Some w1
    /\ calls Sample.first_frame = []
    /\ calls w1 = [(0%nat, 0%nat, 10%nat)].
Proof.
  eexists.
  split; [vm_compute; reflexivity|].
  split; [reflexivity|].
  split; [vm_compute; reflexivity|].
  split; [vm_compute; reflexivity|].
  split; vm_compute; reflexivity.
Qed.

(** The sample overlay, centred at (300, 250): the pointer 221 pixels
    away triggers the close, the pointer 219 pixels away does not. *)
Lemma leave_check_threshold_witness :
  _on_leave_check 0 (mkPoint 521 250) (1 # 2) Sample.shown
  = _start_close 0 (1 # 2) Sample.shown
  /\ _on_leave_check 0 (mkPoint 519 250) (1 # 2) Sample.shown = Sample.shown.
Proof.
  split.
  - apply (proj1 (leave_check_threshold 0%nat Sample.shown
                    (Sample.overlay_of Sample.shown 0) (mkPoint 300 250) (mkPoint 521 250)
                    (1 # 2) ltac:(vm_compute; reflexivity) eq_refl eq_refl)).
    apply hypot_gt_sqrt. reflexivity.
  - apply (proj1 (proj2 (leave_check_threshold 0%nat Sample.shown
                    (Sample.overlay_of Sample.shown 0) (mkPoint 300 250) (mkPoint 519 250)
                    (1 # 2) ltac:(vm_compute; reflexivity) eq_refl eq_refl))).
    apply hypot_le_sqrt. reflexivity.
Defined.

(** After the entry animation the rectangle of option 1, whose callback
    raises, is clicked. *)
Lemma failing_action_still_closes_witness :
  exists w',
    step (H := Coarse.libm) (EvMouseRelease 0 LeftButton 100 240 (6 # 10)) Sample.settled
    = Some w'
    /\ calls w' = (0%nat, 1%nat, 11%nat) :: calls Sample.settled
    /\ log w' = LogClose 0 :: [LogCallbackFailed 0]
                  ++ LogOptionClicked 0 1 "blue" :: log Sample.settled
    /\ is_visible w' 0 = false.
Proof.
  destruct (failing_action_still_closes (H := Coarse.libm) 0%nat 100 240 (6 # 10)
              Sample.settled (Sample.overlay_of Sample.settled 0) 1%nat
              (mkOption "blue" (Some (mkCallback 11 true))) (mkCallback 11 true))
    as (w' & Hs & Hc & Hl & _ & _ & Hv & _);
    [vm_compute; reflexivity | vm_compute; reflexivity | reflexivity | reflexivity |].
  exists w'. split; [exact Hs|]. split; [exact Hc|]. split; [exact Hl | exact Hv].
Defined.

(** ** Further properties of the overlay *)

Section OverlayFacts.

Context `{Libm}.

Lemma start_close_calls (i : nat) (now : Q) (w : World) :
  calls (_start_close i now w) = calls w.
Proof.
  unfold _start_close. destruct (objs w !! i) as [o|]; [|reflexivity].
  destruct (_closing o); [reflexivity|].
  destruct (negb (anim_out_enabled o) || negb (anim_enabled o));
    [apply QWidget_close_calls | reflexivity].
Qed.

Lemma show_at_calls (i : nat) (gp : QPoint) (geo : QRect) (clock : nat -> Q) (w : World) :
  calls (show_at i gp geo clock w) = calls w.
Proof.
  unfold show_at.
  set (w1 := match _active_instance w with
             | Some a => if decide (a = i) then w else QWidget_close a w
             | None => w
             end).
  assert (Hc1 : calls w1 = calls w).
  { unfold w1. destruct (_active_instance w) as [a|]; [|reflexivity].
    destruct (decide (a = i)); [reflexivity | apply QWidget_close_calls]. }
  destruct (objs w1 !! i); [simpl|]; exact Hc1.
Qed.

Lemma paintEvent_calls (i : nat) (now : Q) (w w' : World) :
  paintEvent i now w = Some w' -> calls w' = calls w.
Proof.
  unfold paintEvent. destruct (objs w !! i) as [o|]; [|intros [= <-]; reflexivity].
  destruct (negb (QPoint_bool (center o))); [intros [= <-]; reflexivity|].
  destruct (paint_loop o now 0 (effects o)) as [[[es hits] r]|]; simpl; [|discriminate].
  destruct (negb r && anim_timer_active o); [destruct (_closing o)|];
    intros [= <-]; rewrite ?QWidget_close_calls; reflexivity.
Qed.

Lemma step_calls (ev : Event) (w w' : World) :
  no_left_release [ev] = true -> step ev w = Some w' -> calls w' = calls w.
Proof.
  destruct ev as [i gp geo clock|i|i now|i b fx fy now|i cur now|i]; simpl; intros Hev.
  - intros [= <-]. apply show_at_calls.
  - intros [= <-]. unfold _on_anim_tick. destruct (objs w !! i) as [o|]; [|reflexivity].
    destruct (effects o); reflexivity.
  - apply paintEvent_calls.
  - intros [= <-]. unfold mouseReleaseEvent. destruct (objs w !! i) as [o|]; [|reflexivity].
    destruct b; [discriminate | reflexivity | reflexivity].
  - intros [= <-]. unfold _on_leave_check. destruct (objs w !! i) as [o|]; [|reflexivity].
    destruct (_center_global o) as [cg|]; [|reflexivity].
    destruct (negb (QPoint_bool (Some cg))); [reflexivity|].
    destruct (Py.hypot_gt _ _ _); [apply start_close_calls | reflexivity].
  - intros [= <-]. apply QWidget_close_calls.
Qed.

(** X1. Callbacks are invoked by left-button releases only: over any run
    of events without one (shows, timer ticks, paints, leave checks,
    closes, releases of other buttons) the list of invoked callbacks does
    not change. *)
Theorem only_left_release_invokes (evs : list Event) (w : World) :
  no_left_release evs = true ->
  exists w', run evs w = Some w' /\ calls w' = calls w.
Proof.
  revert w. induction evs as [|ev rest IH]; intros w Hevs; simpl; [eauto|].
  unfold no_left_release in Hevs. simpl in Hevs.
  apply andb_true_iff in Hevs as [Hev Hrest].
  destruct (step_total ev w) as [w1 Hs]. rewrite Hs. simpl.
  assert (Hc : calls w1 = calls w).
  { apply (step_calls ev w w1); [|exact Hs]. unfold no_left_release. simpl.
    rewrite Hev. reflexivity. }
  destruct (IH w1 Hrest) as (w' & Hr & Hc'). exists w'. split; [exact Hr | congruence].
Qed.

End OverlayFacts.

Section Dismissal.

Context `{Libm}.

(** [_start_close] on an overlay that is not yet closing: with both
    animations on it only marks the overlay as closing, otherwise it
    closes the overlay. *)
Lemma start_close_cases (i : nat) (now : Q) (w : World) (o : Overlay) :
  objs w !! i = Some o -> _closing o = false ->
  _start_close i now w
  = if anim_enabled o && anim_out_enabled o
    then put i (set_anim_timer true (set_closing true (Some now) o)) w
    else QWidget_close i w.
Proof.
  intros Ho Hc. unfold _start_close. rewrite Ho, Hc.
  destruct (anim_enabled o), (anim_out_enabled o); simpl; try reflexivity.
  destruct (anim_timer_active o) eqn:E; simpl; [|reflexivity].
  f_equal. destruct o. simpl in *. subst. reflexivity.
Qed.

Lemma find_hit_no_options (p : QPoint) (hits : list (QRect * nat)) :
  find_hit 0 p hits = None.
Proof.
  induction hits as [|[r i] rest IH]; simpl; [reflexivity|].
  rewrite andb_false_r. exact IH.
Qed.

(** X2. A left click that lies in no hit region invokes no callback and
    dismisses the overlay: an overlay that is already closing is left as
    it is; otherwise, with both animations enabled, the overlay is marked
    closing at the time of the click, its animation timer runs and its
    effects stay for the exit animation, and with an animation disabled
    the overlay is closed at once. *)
Theorem click_away_dismisses (self : nat) (fx fy now : Q) (w : World) (o : Overlay) :
  objs w !! self = Some o ->
  find_hit (length (options o)) (mkPoint (Py.int fx) (Py.int fy)) (_hit_regions o) = None ->
  let w' := mouseReleaseEvent self LeftButton fx fy now w in
  calls w' = calls w
  /\ (_closing o = true -> w' = w)
  /\ (_closing o = false -> anim_enabled o && anim_out_enabled o = true ->
      exists o', objs w' !! self = Some o'
                 /\ _closing o' = true /\ _closing_start o' = Some now
                 /\ anim_timer_active o' = true
                 /\ effects o' = effects o /\ visible o' = visible o
                 /\ _active_instance w' = _active_instance w)
  /\ (_closing o = false -> anim_enabled o && anim_out_enabled o = false ->
      objs w' !! self = Some (closed o) /\ is_visible w' self = false
      /\ _active_instance w' = (if decide (_active_instance w = Some self) then None
                                else _active_instance w)).
Proof.
  intros Ho Hmiss w'.
  assert (Hw : w' = _start_close self now w)
    by apply (mouseRelease_miss self fx fy now w o Ho Hmiss).
  split; [rewrite Hw; apply start_close_calls|].
  split; [intros Hc; rewrite Hw; apply (start_close_when_closing self now w o Ho Hc)|].
  split.
  - intros Hc Hon. rewrite Hw, (start_close_cases self now w o Ho Hc), Hon.
    eexists. split; [apply lookup_put_eq|]. repeat split; reflexivity.
  - intros Hc Hoff. rewrite Hw, (start_close_cases self now w o Ho Hc), Hoff.
    rewrite (QWidget_close_eq self w o Ho). unfold is_visible. simpl.
    rewrite lookup_insert_eq. repeat split; reflexivity.
Qed.

(** X3. An overlay shown with an empty option list gets no effect, so a
    paint that runs its loop leaves it without hit regions; and whatever
    hit regions an overlay without options holds, no left click on it
    finds an option: every click is a click-away and invokes nothing. *)
Theorem no_options_no_targets (self : nat) (gp : QPoint) (geo : QRect)
        (clock : nat -> Q) (w : World) (o : Overlay) :
  objs w !! self = Some o -> options o = [] ->
  let w1 := show_at self gp geo clock w in
  exists o1,
    objs w1 !! self = Some o1 /\ options o1 = [] /\ effects o1 = []
    /\ (forall now w2,
          QPoint_bool (center o1) = true ->
          paintEvent self now w1 = Some w2 -> hit_regions_of w2 self = [])
    /\ (forall fx fy now (w2 : World) o2,
          objs w2 !! self = Some o2 -> options o2 = [] ->
          mouseReleaseEvent self LeftButton fx fy now w2 = _start_close self now w2
          /\ calls (mouseReleaseEvent self LeftButton fx fy now w2) = calls w2).
Proof.
  intros Ho Hopts w1.
  assert (Ho1 : exists o1, objs w1 !! self = Some o1 /\ options o1 = [] /\ effects o1 = []).
  { unfold w1, show_at. rewrite close_previous_lookup, Ho. simpl. rewrite Hopts. simpl.
    eexists. split; [apply lookup_insert_eq|].
    destruct (anim_enabled o); simpl; split; auto. }
  destruct Ho1 as (o1 & Ho1 & Hopts1 & He1). exists o1.
  split; [exact Ho1|]. split; [exact Hopts1|]. split; [exact He1|]. split.
  - intros now w2 Hc. unfold paintEvent, hit_regions_of. rewrite Ho1, Hc, He1. simpl.
    destruct (anim_timer_active o1); simpl.
    + destruct (_closing o1); intros [= <-].
      * erewrite QWidget_close_eq by apply lookup_put_eq. simpl.
        rewrite lookup_insert_eq. reflexivity.
      * rewrite lookup_put_eq. reflexivity.
    + intros [= <-]. rewrite lookup_put_eq. reflexivity.
  - intros fx fy now w2 o2 Ho2 Hopts2.
    assert (Hm : mouseReleaseEvent self LeftButton fx fy now w2 = _start_close self now w2).
    { apply (mouseRelease_miss self fx fy now w2 o2 Ho2). rewrite Hopts2.
      apply find_hit_no_options. }
    split; [exact Hm|]. rewrite Hm. apply start_close_calls.
Qed.

End Dismissal.

Section Opening.

Context `{Libm}.

(** The object of [self] when [show_at] returns. *)
Lemma show_at_lookup (self : nat) (gp : QPoint) (geo : QRect) (clock : nat -> Q)
      (w : World) (o : Overlay) :
  objs w !! self = Some o ->
  objs (show_at self gp geo clock w) !! self
  = Some (set_visible true
            (set_leave_timer true
               (let o1 := set_placement geo (mapFromGlobal geo gp) gp o in
                let es := opening_effects gp geo clock o in
                if anim_enabled o
                then set_anim_timer true (set_effects es o1)
                else set_effects (map (set_progress 1) es) o1))).
Proof.
  intros Ho. unfold show_at. rewrite close_previous_lookup, Ho.
  rewrite lookup_put_eq. destruct gp as [gx gy]. reflexivity.
Qed.

Lemma angles_length (base : Q) (count : nat) : length (angles base count) = count \/ count = 0%nat.
Proof.
  unfold angles. destruct (Nat.eqb_spec count 1) as [->|_]; [left; reflexivity|].
  left. rewrite length_map, length_seq. reflexivity.
Qed.

Lemma build_effects_length (c : QPoint) (clock : nat -> Q) (opts : list MenuOption) :
  forall (angs : list Q) (i : nat),
    (length opts <= length angs)%nat ->
    length (build_effects c clock i opts angs) = length opts.
Proof.
  induction opts as [|opt opts IH]; intros angs i Hlen; simpl; [reflexivity|].
  destruct angs as [|a angs]; simpl in *; [lia|]. rewrite IH by lia. reflexivity.
Qed.

Lemma opening_effects_length (gp : QPoint) (geo : QRect) (clock : nat -> Q) (o : Overlay) :
  length (opening_effects gp geo clock o) = length (options o).
Proof.
  unfold opening_effects. apply build_effects_length.
  destruct (angles_length (baseline geo (mapFromGlobal geo gp))
                          (Nat.max 1 (length (options o)))) as [->|E]; lia.
Qed.

(** With the entry animation off and the overlay not closing, the loop
    sets every progress to 1 and nothing keeps running. *)
Lemma paint_loop_static (o : Overlay) (now : Q) (es : list Effect) :
  _closing o = false -> anim_enabled o = false ->
  forall i, exists hits,
    paint_loop o now i es = Some (map (set_progress 1) es, hits, false)
    /\ length hits = length es.
Proof.
  intros Hc Hen. induction es as [|e rest IH]; intros i; simpl.
  - exists []. split; reflexivity.
  - unfold effect_prog at 1. rewrite Hc, Hen. simpl.
    destruct (IH (S i)) as (hits & Hl & Hlen). rewrite Hl. simpl.
    eexists. split; [reflexivity|]. simpl. rewrite Hlen. reflexivity.
Qed.

(** X4. With the entry animation disabled, [show_at] builds one effect
    per option, each already at progress 1, and does not start the
    animation timer; a paint of the overlay (not closing, its centre
    passing the guard of [paintEvent]) keeps every progress at exactly 1,
    records one hit region per option and leaves the animation timer
    stopped. *)
Theorem show_at_without_animation (self : nat) (gp : QPoint) (geo : QRect)
        (clock : nat -> Q) (w : World) (o : Overlay) :
  objs w !! self = Some o -> anim_enabled o = false ->
  let w1 := show_at self gp geo clock w in
  exists o1,
    objs w1 !! self = Some o1
    /\ length (effects o1) = length (options o)
    /\ Forall (fun e => e_progress e = 1%Q) (effects o1)
    /\ anim_timer_active o1 = anim_timer_active o
    /\ visible o1 = true
    /\ (_closing o = false -> QPoint_bool (center o1) = true ->
        forall now,
          exists o2,
            paintEvent self now w1 = Some (put self o2 w1)
            /\ Forall (fun e => e_progress e = 1%Q) (effects o2)
            /\ length (_hit_regions o2) = length (options o)
            /\ anim_timer_active o2 = false /\ visible o2 = true).
Proof.
  intros Ho Hen w1. subst w1.
  eexists. split; [apply (show_at_lookup self gp geo clock w o Ho)|].
  rewrite Hen. cbv zeta.
  set (es := opening_effects gp geo clock o).
  assert (Hlen : length es = length (options o)) by apply opening_effects_length.
  assert (Hall : forall l : list Effect, Forall (fun e => e_progress e = 1%Q)
                                                (map (set_progress 1) l)).
  { intros l. induction l; simpl; constructor; auto. }
  split; [simpl; rewrite length_map; exact Hlen|].
  split; [simpl; apply Hall|].
  split; [reflexivity|]. split; [reflexivity|].
  intros Hcl Hc now. unfold paintEvent.
  rewrite (show_at_lookup self gp geo clock w o Ho), Hen. cbv zeta. fold es.
  rewrite Hc.
  match goal with
  | |- context [paint_loop ?o1 now 0 ?l] =>
      destruct (paint_loop_static o1 now l Hcl Hen 0) as (hits & Hl & Hh)
  end.
  simpl in Hl. simpl. rewrite Hl. simpl.
  destruct (anim_timer_active o) eqn:Et; simpl.
  - rewrite Hcl. eexists. split; [reflexivity|]. simpl.
    split; [apply Hall|]. split; [|split; reflexivity].
    rewrite Hh. simpl. rewrite length_map. exact Hlen.
  - eexists. split; [reflexivity|]. simpl.
    split; [apply Hall|]. split; [|split; [exact Et | reflexivity]].
    rewrite Hh. simpl. rewrite length_map. exact Hlen.
Qed.

End Opening.

Section PaintOutcome.

Context `{Libm}.

Local Open Scope Q_scope.

(** A paint whose loop runs either stores the loop's results, stopping
    the timer when nothing is still running, or, when the overlay is
    closing, nothing is still running and the timer is active, closes the
    overlay. *)
Lemma paintEvent_shape (self : nat) (now : Q) (w : World) (o : Overlay) :
  objs w !! self = Some o -> QPoint_bool (center o) = true ->
  exists es hits r,
    paint_loop o now 0 (effects o) = Some (es, hits, r)
    /\ ((negb r && anim_timer_active o && _closing o = false
         /\ paintEvent self now w = Some (put self (painted o es hits r) w))
        \/ (r = false /\ anim_timer_active o = true /\ _closing o = true
            /\ paintEvent self now w
               = Some (QWidget_close self (put self (painted o es hits r) w)))).
Proof.
  intros Ho Hc.
  destruct (paint_loop_spec o now (effects o) 0) as (es & hits & r & Hl & _ & _).
  exists es, hits, r. split; [exact Hl|].
  unfold paintEvent, painted. rewrite Ho, Hc, Hl. simpl.
  destruct r, (anim_timer_active o) eqn:Et, (_closing o) eqn:Ecl; simpl;
    try (right; repeat split; reflexivity);
    left; (split; [reflexivity|]); do 2 f_equal;
    destruct o; simpl in *; subst; reflexivity.
Qed.

(** The loop reports that something is still running exactly when the
    branch of one of the effects says so. *)
Lemma paint_loop_running (o : Overlay) (now : Q) (es : list Effect) :
  forall i es' hits r,
    paint_loop o now i es = Some (es', hits, r) ->
    r = existsb (fun e => match effect_prog o now e with
                          | Some (_, b) => b
                          | None => false
                          end) es.
Proof.
  induction es as [|e rest IH]; intros i es' hits r; simpl.
  - intros [= <- <- <-]. reflexivity.
  - destruct (effect_prog o now e) as [[p b]|]; simpl; [|discriminate].
    destruct (paint_loop o now (S i) rest) as [[[es2 h2] r2]|] eqn:Hl; simpl; [|discriminate].
    intros [= <- <- <-]. rewrite (IH (S i) es2 h2 r2 Hl). reflexivity.
Qed.

Lemma time_fraction_nonneg (el d : Q) : 0 <= el -> 0 <= time_fraction el d.
Proof.
  intros Hel. unfold time_fraction. apply Q.min_glb; [lra|].
  pose proof (guard_pos d) as Hp.
  apply Qle_shift_div_l; [exact Hp | lra].
Qed.

Lemma cube_in_unit (a : Q) : 0 <= a -> a <= 1 -> 0 <= a * a * a /\ a * a * a <= 1.
Proof.
  intros H0 H1.
  assert (Hsq : 0 <= a * a /\ a * a <= 1) by nra.
  split; nra.
Qed.

Lemma float_or_le (cs : option Q) (now : Q) :
  (forall c, cs = Some c -> c <= now) -> Py.float_or cs now <= now.
Proof.
  intros Hcs. unfold Py.float_or. destruct cs as [c|]; [|lra].
  destruct (Qeq_bool c 0); [lra | apply Hcs; reflexivity].
Qed.

(** With the clock not behind the time an animation began, the branch of
    [paintEvent] yields a progress between 0 and 1. *)
Lemma effect_prog_in_unit (o : Overlay) (now : Q) (e : Effect) (p : Q) (b : bool) :
  effect_prog o now e = Some (p, b) ->
  e_start e <= now -> (forall c, _closing_start o = Some c -> c <= now) ->
  in_unit p.
Proof.
  intros Hp Hs Hcs. apply float_or_le in Hcs. unfold effect_prog in Hp.
  destruct (_closing o).
  - destruct (anim_out_enabled o); simpl in Hp.
    + rewrite truediv_guarded in Hp. simpl in Hp. injection Hp as <- _.
      fold (time_fraction (now - Py.float_or (_closing_start o) now) (anim_out_duration o)).
      set (t := time_fraction _ _).
      assert (Ht0 : 0 <= t) by (apply time_fraction_nonneg; lra).
      assert (Ht1 : t <= 1) by apply time_fraction_le_1.
      assert (Hm : Qmax 0 (1 - t) == 1 - t) by (apply Q.max_r; lra).
      unfold Py.pow3. apply cube_in_unit; lra.
    + injection Hp as <- _. split; lra.
  - destruct (anim_enabled o); simpl in Hp.
    + rewrite truediv_guarded in Hp. simpl in Hp. injection Hp as <- _.
      fold (time_fraction (now - e_start e) (anim_in_duration o)).
      set (t := time_fraction _ _).
      assert (Ht0 : 0 <= t) by (apply time_fraction_nonneg; lra).
      assert (Ht1 : t <= 1) by apply time_fraction_le_1.
      unfold Py.pow3. destruct (cube_in_unit (1 - t)) as [Hc0 Hc1]; [lra | lra |].
      split; lra.
    + injection Hp as <- _. split; lra.
Qed.

(** X5. When a paint reads a clock that is not behind the start of any
    effect nor behind the start of closing, every progress it stores lies
    between 0 and 1, in every mode (entering, static, closing with or
    without exit animation). *)
Theorem progress_in_unit_range (self : nat) (now : Q) (w : World) (o : Overlay) :
  objs w !! self = Some o -> QPoint_bool (center o) = true ->
  Forall (fun e => e_start e <= now) (effects o) ->
  (forall c, _closing_start o = Some c -> c <= now) ->
  exists w', paintEvent self now w = Some w' /\ Forall in_unit (progress_of w' self).
Proof.
  intros Ho Hc Hstarts Hcs.
  destruct (paintEvent_shape self now w o Ho Hc) as (es & hits & r & Hl & Hcases).
  destruct Hcases as [[_ Hp]|(_ & _ & _ & Hp)]; rewrite Hp; eexists; (split; [reflexivity|]).
  - unfold progress_of. rewrite lookup_put_eq. simpl.
    destruct (paint_loop_spec o now (effects o) 0) as (es2 & h2 & r2 & Hl2 & Hf & _).
    rewrite Hl in Hl2. injection Hl2 as <- <- <-. clear Hl Hp.
    revert Hstarts. induction Hf as [|e e' l l' (p & b & Hpe & ->) _ IH]; intros Hstarts.
    + constructor.
    + inversion Hstarts as [|? ? Hs Hrest]; subst. simpl. constructor.
      * apply (effect_prog_in_unit o now e p b Hpe Hs Hcs).
      * apply IH, Hrest.
  - unfold progress_of.
    erewrite QWidget_close_eq by apply lookup_put_eq. simpl.
    rewrite lookup_insert_eq. constructor.
Qed.

End PaintOutcome.

Section AnimationEnds.

Context `{Libm}.

Local Open Scope Q_scope.

Lemma py_lt_true (a b : Q) : Py.lt a b = true <-> a < b.
Proof.
  unfold Py.lt. rewrite negb_true_iff. split.
  - intros Hf. apply Qnot_le_lt. intros Hle. apply Qle_bool_iff in Hle. congruence.
  - intros Hlt. destruct (Qle_bool b a) eqn:E; [|reflexivity].
    apply Qle_bool_iff in E. lra.
Qed.

Lemma py_lt_false (a b : Q) : Py.lt a b = false <-> b <= a.
Proof.
  unfold Py.lt. rewrite negb_false_iff. apply Qle_bool_iff.
Qed.

Lemma ease_out_cubic_lt_1 (t : Q) : t < 1 -> ease_out_cubic t < 1.
Proof.
  intros Ht. unfold ease_out_cubic.
  assert (H1 : 0 < (1 - t) * (1 - t)) by nra.
  assert (H2 : 0 < (1 - t) * (1 - t) * (1 - t)) by nra.
  lra.
Qed.

(** The branch of an entering effect, with its flag. *)
Lemma effect_prog_entering_flag (o : Overlay) (now : Q) (e : Effect) :
  _closing o = false -> anim_enabled o = true ->
  let p := ease_out_cubic (time_fraction (now - e_start e) (anim_in_duration o)) in
  effect_prog o now e = Some (p, Py.lt p 1).
Proof.
  intros Hc Ha. unfold effect_prog. rewrite Hc, Ha, truediv_guarded. reflexivity.
Qed.

(** The branch of a closing effect, with its flag. *)
Lemma effect_prog_closing_flag (o : Overlay) (now : Q) (e : Effect) :
  _closing o = true -> anim_out_enabled o = true ->
  let t := time_fraction (now - Py.float_or (_closing_start o) now) (anim_out_duration o) in
  effect_prog o now e = Some (exit_cubic t, Py.lt t 1).
Proof.
  intros Hc Ha. unfold effect_prog. rewrite Hc, Ha, truediv_guarded. reflexivity.
Qed.

Lemma float_or_started (c now : Q) : ~ c == 0 -> Py.float_or (Some c) now = c.
Proof.
  intros Hc. unfold Py.float_or. destruct (Qeq_bool c 0) eqn:E; [|reflexivity].
  apply Qeq_bool_iff in E. contradiction.
Qed.

Lemma existsb_false_Forall {A : Type} (f : A -> bool) (l : list A) :
  Forall (fun a => f a = false) l -> existsb f l = false.
Proof. induction 1 as [|a l Ha _ IH]; simpl; [reflexivity|]. rewrite Ha, IH. reflexivity. Qed.

Lemma existsb_true_Exists {A : Type} (f : A -> bool) (l : list A) :
  Exists (fun a => f a = true) l -> existsb f l = true.
Proof.
  induction 1 as [a l Ha|a l _ IH]; simpl; [rewrite Ha; reflexivity|].
  rewrite IH. apply orb_true_r.
Qed.

(** X6. A paint of an entering overlay whose local centre passes the
    guard of [paintEvent] (it is set and is not the point (0, 0)), at a
    time when every effect has run for the guarded entry duration
    [max(1e-6, entry_duration)], stores progress 1 in every effect and
    stops the animation timer, leaving the overlay shown and not
    closing. *)
Theorem entry_end_stops_timer (self : nat) (now : Q) (w : World) (o : Overlay) :
  objs w !! self = Some o -> QPoint_bool (center o) = true ->
  _closing o = false -> anim_enabled o = true ->
  Forall (fun e => e_start e + Qmax Py.eps (anim_in_duration o) <= now) (effects o) ->
  exists o',
    paintEvent self now w = Some (put self o' w)
    /\ anim_timer_active o' = false
    /\ Forall (fun e => e_progress e == 1) (effects o')
    /\ length (effects o') = length (effects o)
    /\ visible o' = visible o /\ _closing o' = false.
Proof.
  intros Ho Hc Hcl Hen Hdone.
  destruct (paintEvent_shape self now w o Ho Hc) as (es & hits & r & Hl & Hcases).
  destruct Hcases as [[_ Hp]|(_ & _ & Hcl' & _)]; [|congruence].
  pose proof (paint_loop_running o now (effects o) 0 es hits r Hl) as Hr.
  exists (painted o es hits r). split; [exact Hp|].
  assert (Hr0 : r = false).
  { rewrite Hr. apply existsb_false_Forall.
    eapply Forall_impl; [exact Hdone|]. intros e He. simpl in He.
    rewrite (effect_prog_entering_flag o now e Hcl Hen). cbv zeta.
    apply py_lt_false. rewrite time_fraction_done by lra.
    unfold ease_out_cubic. lra. }
  split; [unfold painted; simpl; rewrite Hr0; apply andb_false_r|].
  split; [|split; [|split; [reflexivity | exact Hcl]]].
  - simpl.
    destruct (paint_loop_spec o now (effects o) 0) as (es2 & h2 & r2 & Hl2 & Hf & _).
    rewrite Hl in Hl2. injection Hl2 as <- <- <-. clear Hl Hp Hr.
    revert Hdone. induction Hf as [|e e' l l' (p & b & Hpe & ->) _ IH]; intros Hdone.
    + constructor.
    + inversion Hdone as [|? ? Hd Hrest]; subst. constructor; [|apply IH, Hrest].
      rewrite (effect_prog_entering_flag o now e Hcl Hen) in Hpe. cbv zeta in Hpe.
      injection Hpe as <- _. simpl.
      rewrite time_fraction_done by lra. unfold ease_out_cubic. lra.
  - simpl.
    destruct (paint_loop_spec o now (effects o) 0) as (es2 & h2 & r2 & Hl2 & Hf & _).
    rewrite Hl in Hl2. injection Hl2 as <- <- <-.
    symmetry. eapply Forall2_length, Hf.
Qed.

(** The branch of every effect of an overlay that began closing at [c]. *)
Lemma closing_branch (o : Overlay) (now c : Q) (e : Effect) :
  _closing o = true -> anim_out_enabled o = true ->
  _closing_start o = Some c -> ~ c == 0 ->
  effect_prog o now e
  = Some (exit_cubic (time_fraction (now - c) (anim_out_duration o)),
          Py.lt (time_fraction (now - c) (anim_out_duration o)) 1).
Proof.
  intros Hcl Hen Hcs Hc0. rewrite (effect_prog_closing_flag o now e Hcl Hen). cbv zeta.
  rewrite Hcs, (float_or_started c now Hc0). reflexivity.
Qed.

(** The paint that ends the exit animation closes the overlay. *)
Lemma paint_finishes_exit (self : nat) (now c : Q) (w : World) (o : Overlay) :
  objs w !! self = Some o -> QPoint_bool (center o) = true ->
  _closing o = true -> anim_out_enabled o = true ->
  _closing_start o = Some c -> ~ c == 0 -> anim_timer_active o = true ->
  c + Qmax Py.eps (anim_out_duration o) <= now \/ effects o = [] ->
  exists w',
    paintEvent self now w = Some w'
    /\ is_visible w' self = false
    /\ progress_of w' self = [] /\ hit_regions_of w' self = []
    /\ _active_instance w' = (if decide (_active_instance w = Some self) then None
                              else _active_instance w)
    /\ calls w' = calls w.
Proof.
  intros Ho Hc Hcl Hen Hcs Hc0 Ht Hdone.
  destruct (paintEvent_shape self now w o Ho Hc) as (es & hits & r & Hl & Hcases).
  pose proof (paint_loop_running o now (effects o) 0 es hits r Hl) as Hr.
  assert (Hr0 : r = false).
  { rewrite Hr. destruct Hdone as [Hdone|Hempty]; [|rewrite Hempty; reflexivity].
    apply existsb_false_Forall. apply Forall_forall. intros e _.
    rewrite (closing_branch o now c e Hcl Hen Hcs Hc0). apply py_lt_false.
    rewrite time_fraction_done by lra. lra. }
  destruct Hcases as [[Hno _]|(_ & _ & _ & Hp)].
  { rewrite Hr0, Ht, Hcl in Hno. discriminate. }
  eexists. split; [exact Hp|].
  erewrite QWidget_close_eq by apply lookup_put_eq.
  unfold is_visible, progress_of, hit_regions_of. simpl. rewrite lookup_insert_eq.
  repeat split; reflexivity.
Qed.

(** X7. Take a closing overlay whose local centre passes the guard of
    [paintEvent] (it is set and is not the point (0, 0)), whose exit
    animation is enabled, whose animation timer runs, and whose closing
    began at a clock value other than 0.0 (a start of 0.0 is read as
    unset by [self._closing_start or now]).  A paint of it closes the
    overlay once the guarded exit duration [max(1e-6, exit_duration)]
    has passed since closing began, or at once when the overlay
    has no effects: it is hidden, its effects and hit regions are dropped
    and its registration is cleared, and no callback is invoked.  A paint
    before that, with at least one effect, keeps the overlay shown with
    its effects and the timer running. *)
Theorem exit_end_closes (self : nat) (now c : Q) (w : World) (o : Overlay) :
  objs w !! self = Some o -> QPoint_bool (center o) = true ->
  _closing o = true -> anim_out_enabled o = true ->
  _closing_start o = Some c -> ~ c == 0 -> anim_timer_active o = true ->
  let guard := Qmax Py.eps (anim_out_duration o) in
  (c + guard <= now \/ effects o = [] ->
   exists w',
     paintEvent self now w = Some w'
     /\ is_visible w' self = false
     /\ progress_of w' self = [] /\ hit_regions_of w' self = []
     /\ _active_instance w' = (if decide (_active_instance w = Some self) then None
                               else _active_instance w)
     /\ calls w' = calls w)
  /\ (now < c + guard -> effects o <> [] ->
      exists o',
        paintEvent self now w = Some (put self o' w)
        /\ visible o' = visible o /\ anim_timer_active o' = true /\ _closing o' = true
        /\ length (effects o') = length (effects o)).
Proof.
  intros Ho Hc Hcl Hen Hcs Hc0 Ht guard.
  split; [apply (paint_finishes_exit self now c w o Ho Hc Hcl Hen Hcs Hc0 Ht)|].
  intros Hearly Hne.
  destruct (paintEvent_shape self now w o Ho Hc) as (es & hits & r & Hl & Hcases).
  pose proof (paint_loop_running o now (effects o) 0 es hits r Hl) as Hr.
  assert (Hr1 : r = true).
  { rewrite Hr. apply existsb_true_Exists.
    destruct (effects o) as [|e rest]; [contradiction|].
    apply Exists_cons_hd. rewrite (closing_branch o now c e Hcl Hen Hcs Hc0).
    apply py_lt_true, time_fraction_early. fold guard. lra. }
  destruct Hcases as [[_ Hp]|(Hr0 & _)]; [|congruence].
  exists (painted o es hits r). split; [exact Hp|].
  unfold painted. simpl. rewrite Hr1, Ht.
  split; [reflexivity|]. split; [reflexivity|]. split; [exact Hcl|].
  destruct (paint_loop_spec o now (effects o) 0) as (es2 & h2 & r2 & Hl2 & Hf & _).
  rewrite Hl in Hl2. injection Hl2 as <- <- <-.
  symmetry. eapply Forall2_length, Hf.
Qed.

Lemma run_app (evs1 evs2 : list Event) :
  forall w, run (evs1 ++ evs2) w = w' ← run evs1 w; run evs2 w'.
Proof.
  induction evs1 as [|ev rest IH]; intros w; simpl; [reflexivity|].
  destruct (step ev w) as [w1|]; simpl; [apply IH | reflexivity].
Qed.

(** A tick, or a paint before the end, of a running exit animation. *)
Lemma exit_frame_step (self : nat) (c : Q) (o : Overlay) (w w1 : World) (ev : Event) :
  QPoint_bool (center o) = true -> ~ c == 0 ->
  exit_running self c o w w1 ->
  frames_before self (c + Qmax Py.eps (anim_out_duration o)) [ev] = true ->
  exists w2, step ev w1 = Some w2 /\ exit_running self c o w w2.
Proof.
  intros Hc Hc0 (o1 & Ho1 & Hce & Hcl & Hcs & Hout & Hdur & Ht & Hne & Hv & Ha & Hcalls) Hev.
  simpl in Hev. rewrite andb_true_r in Hev. destruct ev; try discriminate.
  - apply bool_decide_eq_true in Hev. subst self0. simpl. eexists. split; [reflexivity|].
    unfold _on_anim_tick. rewrite Ho1. destruct (effects o1) eqn:Ee; [congruence|].
    exists o1. rewrite Ee. repeat split; auto.
  - apply andb_true_iff in Hev as [Hi Hlt]. apply bool_decide_eq_true in Hi. subst self0.
    apply py_lt_true in Hlt. simpl.
    assert (Hc1 : QPoint_bool (center o1) = true) by (rewrite Hce; exact Hc).
    destruct (paintEvent_shape self now w1 o1 Ho1 Hc1) as (es & hits & r & Hl & Hcases).
    pose proof (paint_loop_running o1 now (effects o1) 0 es hits r Hl) as Hr.
    assert (Hr1 : r = true).
    { rewrite Hr. apply existsb_true_Exists.
      destruct (effects o1) as [|e rest]; [congruence|].
      apply Exists_cons_hd. rewrite (closing_branch o1 now c e Hcl Hout Hcs Hc0).
      apply py_lt_true, time_fraction_early. rewrite Hdur. lra. }
    destruct Hcases as [[_ Hp]|(Hr0 & _)]; [|congruence].
    exists (put self (painted o1 es hits r) w1). split; [exact Hp|].
    exists (painted o1 es hits r). split; [apply lookup_put_eq|].
    unfold painted. simpl. rewrite Hr1, Ht.
    repeat split; auto.
    destruct (paint_loop_spec o1 now (effects o1) 0) as (es2 & h2 & r2 & Hl2 & Hf & _).
    rewrite Hl in Hl2. injection Hl2 as <- <- <-.
    intros Hnil. apply Forall2_length in Hf. rewrite Hnil in Hf.
    destruct (effects o1); [congruence | discriminate].
Qed.

Lemma exit_frames (self : nat) (c : Q) (o : Overlay) (w : World) (evs : list Event) :
  QPoint_bool (center o) = true -> ~ c == 0 ->
  frames_before self (c + Qmax Py.eps (anim_out_duration o)) evs = true ->
  forall w1, exit_running self c o w w1 ->
             exists w2, run evs w1 = Some w2 /\ exit_running self c o w w2.
Proof.
  intros Hc Hc0. induction evs as [|ev rest IH]; intros Hevs w1 Hrun; simpl.
  - exists w1. split; [reflexivity | exact Hrun].
  - simpl in Hevs. apply andb_true_iff in Hevs as [Hev Hrest].
    destruct (exit_frame_step self c o w w1 ev Hc Hc0 Hrun) as (w2 & Hs & Hrun2).
    { simpl. rewrite Hev. reflexivity. }
    rewrite Hs. simpl. apply (IH Hrest w2 Hrun2).
Qed.

(** An event of an overlay without options whose exit is stuck. *)
Lemma exit_stuck_step (self : nat) (o : Overlay) (w w1 : World) (ev : Event) :
  exit_stuck self o w w1 -> own_events self [ev] = true ->
  exists w2, step ev w1 = Some w2 /\ exit_stuck self o w w2.
Proof.
  intros (o1 & Ho1 & Hopts & He & Hcl & Ht & Hv & Ha & Hcalls) Hev.
  assert (Hsame : exit_stuck self o w w1).
  { exists o1. repeat split; assumption. }
  simpl in Hev. rewrite andb_true_r in Hev.
  destruct ev; try discriminate; apply bool_decide_eq_true in Hev; subst self0; simpl.
  - eexists. split; [reflexivity|]. unfold _on_anim_tick. rewrite Ho1, He.
    exists (set_anim_timer false o1). split; [apply lookup_put_eq|].
    simpl. repeat split; assumption.
  - unfold paintEvent. rewrite Ho1.
    destruct (negb (QPoint_bool (center o1))); [exists w1; split; [reflexivity | exact Hsame]|].
    rewrite He. simpl. rewrite Ht. simpl. eexists. split; [reflexivity|].
    exists (set_hit_regions [] (set_effects [] o1)). split; [apply lookup_put_eq|].
    simpl. repeat split; assumption.
  - eexists. split; [reflexivity|]. unfold mouseReleaseEvent. rewrite Ho1.
    destruct button; try exact Hsame.
    rewrite Hopts. simpl length. rewrite find_hit_no_options.
    rewrite (start_close_when_closing self now w1 o1 Ho1 Hcl). exact Hsame.
  - eexists. split; [reflexivity|]. unfold _on_leave_check. rewrite Ho1.
    destruct (_center_global o1) as [cg|]; [|exact Hsame].
    destruct (negb (QPoint_bool (Some cg))); [exact Hsame|]. cbv zeta.
    destruct (Py.hypot_gt _ _ _); [|exact Hsame].
    rewrite (start_close_when_closing self now w1 o1 Ho1 Hcl). exact Hsame.
Qed.

Lemma exit_stuck_run (self : nat) (o : Overlay) (w : World) (evs : list Event) :
  own_events self evs = true ->
  forall w1, exit_stuck self o w w1 ->
             exists w2, run evs w1 = Some w2 /\ exit_stuck self o w w2.
Proof.
  induction evs as [|ev rest IH]; intros Hevs w1 Hst; simpl.
  - exists w1. split; [reflexivity | exact Hst].
  - simpl in Hevs. apply andb_true_iff in Hevs as [Hev Hrest].
    destruct (exit_stuck_step self o w w1 ev Hst) as (w2 & Hs & Hst2).
    { simpl. rewrite Hev. reflexivity. }
    rewrite Hs. simpl. apply (IH Hrest w2 Hst2).
Qed.

(** X8. Auto-dismiss, from the leave check to the close.  Take an
    overlay that is not closing, with both animations enabled, whose
    local centre and stored global centre pass the guards of
    [paintEvent] and of the leave check (neither is the point (0, 0)),
    and a leave check at a clock value [t0] other than 0.0 with the
    pointer beyond the threshold.  If the overlay has at least one
    effect, then after any timer ticks and any paints earlier than
    [t0 + max(1e-6, exit_duration)], a paint at or after that time
    leaves the overlay hidden, without effects and hit regions, its
    registration cleared and no callback invoked.  If the overlay has no
    options and no effects, a timer tick after the check stops the
    animation timer, and from then on no tick, paint, leave check or
    mouse release of the overlay closes it: it stays shown, marked
    closing and registered. *)
Theorem auto_dismiss_runs_to_close (self : nat) (cur cg : QPoint) (t0 t1 : Q)
        (mids : list Event) (w : World) (o : Overlay) :
  objs w !! self = Some o -> QPoint_bool (center o) = true ->
  _center_global o = Some cg -> QPoint_bool (Some cg) = true ->
  _closing o = false -> anim_enabled o && anim_out_enabled o = true ->
  Py.hypot_gt (x cur - x cg) (y cur - y cg) (_leave_distance o) = true ->
  ~ t0 == 0 ->
  (effects o <> [] ->
   frames_before self (t0 + Qmax Py.eps (anim_out_duration o)) mids = true ->
   t0 + Qmax Py.eps (anim_out_duration o) <= t1 ->
   exists w',
     run (EvLeaveCheck self cur t0 :: mids ++ [EvPaint self t1]) w = Some w'
     /\ is_visible w' self = false
     /\ progress_of w' self = [] /\ hit_regions_of w' self = []
     /\ _active_instance w' = (if decide (_active_instance w = Some self) then None
                               else _active_instance w)
     /\ calls w' = calls w)
  /\ (options o = [] -> effects o = [] -> own_events self mids = true ->
      exists w' o',
        run (EvLeaveCheck self cur t0 :: EvAnimTick self :: mids) w = Some w'
        /\ objs w' !! self = Some o'
        /\ visible o' = visible o /\ _closing o' = true
        /\ anim_timer_active o' = false
        /\ _active_instance w' = _active_instance w /\ calls w' = calls w).
Proof.
  intros Ho Hc Hcg Hcgt Hcl Hon Hfar Ht0.
  apply andb_true_iff in Hon as [Hen Hout].
  set (o1 := set_anim_timer true (set_closing true (Some t0) o)).
  assert (Hleave : _on_leave_check self cur t0 w = put self o1 w).
  { unfold _on_leave_check. rewrite Ho, Hcg, Hcgt, Hfar. simpl.
    rewrite (start_close_cases self t0 w o Ho Hcl), Hen, Hout. reflexivity. }
  split.
  - intros Hne Hmids Hlate.
    assert (Hrun : exit_running self t0 o w (put self o1 w)).
    { exists o1. split; [apply lookup_put_eq|]. subst o1. simpl. repeat split; auto. }
    destruct (exit_frames self t0 o w mids Hc Ht0 Hmids _ Hrun)
      as (w2 & Hr2 & o2 & Ho2 & Hce & Hcl2 & Hcs & Hout2 & Hdur & Ht2 & _ & _ & Ha & Hcalls).
    assert (Hc2 : QPoint_bool (center o2) = true) by (rewrite Hce; exact Hc).
    assert (Hlate2 : t0 + Qmax Py.eps (anim_out_duration o2) <= t1)
      by (rewrite Hdur; exact Hlate).
    destruct (paint_finishes_exit self t1 t0 w2 o2 Ho2 Hc2 Hcl2 Hout2 Hcs Ht0 Ht2
                (or_introl Hlate2))
      as (w' & Hp & Hv & Hpr & Hh & Ha' & Hcalls').
    exists w'. simpl. rewrite Hleave. simpl. rewrite run_app, Hr2. simpl. rewrite Hp.
    simpl. split; [reflexivity|]. split; [exact Hv|]. split; [exact Hpr|].
    split; [exact Hh|]. split; [rewrite Ha', Ha; reflexivity | congruence].
  - intros Hopts He Hmids.
    assert (Hst : exit_stuck self o w (_on_anim_tick self (put self o1 w))).
    { unfold _on_anim_tick. rewrite lookup_put_eq.
      replace (effects o1) with (@nil Effect) by (subst o1; simpl; congruence).
      exists (set_anim_timer false o1). split; [apply lookup_put_eq|].
      subst o1. simpl. repeat split; auto. }
    destruct (exit_stuck_run self o w mids Hmids _ Hst)
      as (w2 & Hr2 & o2 & Ho2 & _ & _ & Hcl2 & Ht2 & Hv & Ha & Hcalls).
    exists w2, o2. simpl. rewrite Hleave. simpl. rewrite Hr2.
    repeat split; assumption.
Qed.

Lemma closeEvent_eq (i : nat) (w : World) (o : Overlay) :
  objs w !! i = Some o ->
  closeEvent i w
  = mkWorld (if decide (_active_instance w = Some i) then None else _active_instance w)
            (<[i := set_leave_timer false
                      (set_anim_timer false (set_hit_regions [] (set_effects [] o)))]>
               (objs w))
            (LogClose i :: log w) (calls w).
Proof.
  intros Ho. unfold closeEvent. rewrite Ho. simpl.
  destruct (decide (_active_instance w = Some i)); reflexivity.
Qed.

(** X9. The handler [closeEvent] is idempotent on the state: delivered a
    second time to the same instance, the close event leaves heap,
    registration and invoked callbacks as the first delivery left them
    and only writes its log line once more.  The first delivery empties
    effects and hit regions and stops both timers, and does not itself
    change whether the widget is shown; on an instance that does not
    exist the handler does nothing. *)
Theorem close_event_twice_is_once (i : nat) (w : World) :
  let c1 := closeEvent i w in
  let c2 := closeEvent i c1 in
  objs c2 = objs c1 /\ _active_instance c2 = _active_instance c1
  /\ calls c2 = calls c1
  /\ (forall o, objs w !! i = Some o ->
       log c2 = LogClose i :: log c1
       /\ exists o1,
            objs c1 !! i = Some o1
            /\ effects o1 = [] /\ _hit_regions o1 = []
            /\ anim_timer_active o1 = false /\ leave_timer_active o1 = false
            /\ visible o1 = visible o)
  /\ (objs w !! i = None -> c1 = w).
Proof.
  intros c1 c2. subst c1 c2. destruct (objs w !! i) as [o|] eqn:Ho.
  - set (o1 := set_leave_timer false
                 (set_anim_timer false (set_hit_regions [] (set_effects [] o)))).
    rewrite (closeEvent_eq i w o Ho). fold o1.
    set (w1 := mkWorld _ (<[i := o1]> (objs w)) (LogClose i :: log w) (calls w)).
    assert (Hl : objs w1 !! i = Some o1) by apply lookup_insert_eq.
    rewrite (closeEvent_eq i w1 o1 Hl). simpl.
    split; [rewrite insert_insert_eq; reflexivity|].
    split.
    + destruct (decide (_active_instance w = Some i)) as [Ha|Ha].
      * destruct (decide (None = Some i)); [discriminate | reflexivity].
      * destruct (decide (_active_instance w = Some i)); [contradiction | reflexivity].
    + split; [reflexivity|]. split; [|discriminate].
      intros o' [= <-]. split; [reflexivity|]. exists o1.
      split; [apply lookup_insert_eq|]. repeat split; reflexivity.
  - unfold closeEvent. rewrite Ho. simpl. rewrite Ho.
    split; [reflexivity|]. split; [reflexivity|]. split; [reflexivity|].
    split; [intros o'; discriminate | reflexivity].
Qed.

End AnimationEnds.

(** ** The guarded divisions, tick by tick *)

Section GuardedTicks.

Context `{Libm}.

Local Open Scope Q_scope.

Lemma demo_effect_prog_forward_flag (d : Demo.Demo) (now : Q) (e : Demo.Effect) :
  Demo.e_reverse_start e = None -> Demo.anim_enabled d = true ->
  let p := ease_out_cubic (time_fraction (now - Demo.e_start e) (Demo.anim_in_duration d)) in
  Demo.effect_prog d now e = Some (p, Py.lt p 1).
Proof.
  intros Hr Hen. unfold Demo.effect_prog. rewrite Hr, Hen. simpl.
  rewrite truediv_guarded. reflexivity.
Qed.

Lemma demo_effect_prog_reverse_flag (d : Demo.Demo) (now rs : Q) (e : Demo.Effect) :
  Demo.e_reverse_start e = Some rs -> Demo.anim_enabled d = true ->
  let start_p := default (Demo.e_progress e) (Demo.e_reverse_progress_start e) in
  let p := Qmax 0 (linear_decay start_p
                     (time_fraction (now - rs) (Demo.anim_out_duration d))) in
  Demo.effect_prog d now e = Some (p, Py.lt 0 p).
Proof.
  intros Hr Hen. unfold Demo.effect_prog. rewrite Hr, Hen.
  rewrite truediv_guarded. simpl.
  destruct (Demo.e_reverse_progress_start e); reflexivity.
Qed.

Lemma time_fraction_below_guard (el d : Q) :
  d <= 0 -> el < Py.eps ->
  time_fraction el d == el / Py.eps /\ time_fraction el d < 1.
Proof.
  intros Hd Hel. pose proof eps_pos as He.
  assert (Hg : Qmax Py.eps d == Py.eps) by (apply guard_nonpos, Hd).
  assert (Hq : el / Qmax Py.eps d == el / Py.eps) by (rewrite Hg; reflexivity).
  assert (Hlt : el / Py.eps < 1).
  { apply Qlt_shift_div_r; [exact He | lra]. }
  unfold time_fraction. split.
  - rewrite Hq. apply Q.min_r. lra.
  - apply Q.min_lt_iff. right. rewrite Hq. exact Hlt.
Qed.

(** C10, as amended. A float division raises on a zero divisor, but both
    divisions of a tick divide by [max(1e-6, duration)], which is
    positive for every duration, zero and negative ones included: each
    branch of the overlay's and of the demo's progress computation
    returns, with the progress that the curve gives at
    [t = min(1, elapsed / max(1e-6, duration))] and the flag that keeps
    the animation running, and no paint and no run of events raises.
    With a non-positive duration [t] is [min(1, elapsed / 1e-6)]: it is 1
    at every tick that comes at least [1e-6] seconds after the phase
    began, and there the entry progress is 1, both exit curves are 0 and
    no flag keeps the animation running; at an earlier tick [t] is
    [elapsed / 1e-6], below 1. *)
Theorem tick_division_guarded :
  (forall a, Py.truediv a 0 = None)
  /\ (forall a d, 0 < Qmax Py.eps d
                  /\ Py.truediv a (Qmax Py.eps d) = Some (a / Qmax Py.eps d))
  /\ (forall o now e, _closing o = false -> anim_enabled o = true ->
        let p := ease_out_cubic
                   (time_fraction (now - e_start e) (anim_in_duration o)) in
        effect_prog o now e = Some (p, Py.lt p 1))
  /\ (forall o now e, _closing o = true -> anim_out_enabled o = true ->
        let t := time_fraction (now - Py.float_or (_closing_start o) now)
                               (anim_out_duration o) in
        effect_prog o now e = Some (exit_cubic t, Py.lt t 1))
  /\ (forall d now e, Demo.e_reverse_start e = None -> Demo.anim_enabled d = true ->
        let p := ease_out_cubic
                   (time_fraction (now - Demo.e_start e) (Demo.anim_in_duration d)) in
        Demo.effect_prog d now e = Some (p, Py.lt p 1))
  /\ (forall d now rs e, Demo.e_reverse_start e = Some rs -> Demo.anim_enabled d = true ->
        let start_p := default (Demo.e_progress e) (Demo.e_reverse_progress_start e) in
        let p := Qmax 0 (linear_decay start_p
                           (time_fraction (now - rs) (Demo.anim_out_duration d))) in
        Demo.effect_prog d now e = Some (p, Py.lt 0 p))
  /\ (forall self now w, is_Some (paintEvent self now w))
  /\ (forall evs w, is_Some (run evs w))
  /\ (forall now d, is_Some (Demo.paintEvent now d))
  /\ (forall elapsed duration, duration <= 0 ->
        (Py.eps <= elapsed -> time_fraction elapsed duration == 1)
        /\ (elapsed < Py.eps ->
            time_fraction elapsed duration == elapsed / Py.eps
            /\ time_fraction elapsed duration < 1))
  /\ (forall t start_p, t == 1 ->
        ease_out_cubic t == 1 /\ Py.lt (ease_out_cubic t) 1 = false
        /\ exit_cubic t == 0 /\ Py.lt t 1 = false
        /\ Qmax 0 (linear_decay start_p t) == 0
        /\ Py.lt 0 (Qmax 0 (linear_decay start_p t)) = false).
Proof.
  split; [reflexivity|].
  split; [intros a d; split; [apply guard_pos | apply truediv_guarded]|].
  split; [apply effect_prog_entering_flag|].
  split; [apply effect_prog_closing_flag|].
  split; [apply demo_effect_prog_forward_flag|].
  split; [apply demo_effect_prog_reverse_flag|].
  split; [apply paintEvent_total|].
  split; [intros evs w; apply run_total|].
  split; [apply demo_paintEvent_total|].
  split.
  - intros el d Hd. split.
    + intros Hel. apply time_fraction_done. rewrite (guard_nonpos d Hd). exact Hel.
    + apply time_fraction_below_guard, Hd.
  - intros t sp Ht.
    assert (H1 : ease_out_cubic t == 1) by (rewrite Ht; reflexivity).
    assert (H2 : exit_cubic t == 0) by (rewrite Ht; reflexivity).
    assert (H3 : Qmax 0 (linear_decay sp t) == 0).
    { unfold linear_decay. apply Q.max_l. rewrite Ht. lra. }
    split; [exact H1|]. split; [apply py_lt_false; rewrite H1; lra|].
    split; [exact H2|]. split; [apply py_lt_false; rewrite Ht; lra|].
    split; [exact H3|]. apply py_lt_false. rewrite H3. lra.
Qed.

End GuardedTicks.

Section Reopening.

Context `{Libm}.

Local Open Scope Q_scope.

(** X10. [show_at] resets neither the closing flag, nor the time closing
    began, nor the hit regions: the shown overlay carries those of the
    overlay it was.  So an overlay that is marked closing since a clock
    value other than 0.0 (a start of 0.0 is read as unset) and is shown
    again with both animations enabled, at a point whose local image
    passes the guard of [paintEvent] (it is not the window's origin
    (0, 0)), is closed again, and unregistered, by the first paint that
    comes the guarded exit duration [max(1e-6, exit_duration)] after the
    old start of closing. *)
Theorem show_at_keeps_closing_state (self : nat) (gp : QPoint) (geo : QRect)
        (clock : nat -> Q) (w : World) (o : Overlay) :
  objs w !! self = Some o ->
  let w1 := show_at self gp geo clock w in
  exists o1,
    objs w1 !! self = Some o1
    /\ _closing o1 = _closing o /\ _closing_start o1 = _closing_start o
    /\ _hit_regions o1 = _hit_regions o
    /\ _active_instance w1 = Some self
    /\ (forall c now,
          _closing o = true -> anim_enabled o = true -> anim_out_enabled o = true ->
          _closing_start o = Some c -> ~ c == 0 ->
          QPoint_bool (center o1) = true ->
          c + Qmax Py.eps (anim_out_duration o) <= now ->
          exists w2,
            paintEvent self now w1 = Some w2
            /\ is_visible w2 self = false /\ progress_of w2 self = []
            /\ _active_instance w2 = None).
Proof.
  intros Ho w1. subst w1.
  pose proof (show_at_lookup self gp geo clock w o Ho) as Hl. cbv zeta in Hl.
  assert (Hact : _active_instance (show_at self gp geo clock w) = Some self).
  { unfold show_at. rewrite close_previous_lookup, Ho. reflexivity. }
  eexists. split; [exact Hl|].
  destruct (anim_enabled o) eqn:Hen.
  - split; [reflexivity|]. split; [reflexivity|]. split; [reflexivity|].
    split; [exact Hact|].
    intros c now Hcl _ Hout Hcs Hc0 Hc Hlate.
    destruct (paint_finishes_exit self now c _ _ Hl Hc Hcl Hout Hcs Hc0 eq_refl
                (or_introl Hlate))
      as (w2 & Hp & Hv & Hpr & _ & Ha & _).
    exists w2. split; [exact Hp|]. split; [exact Hv|]. split; [exact Hpr|].
    rewrite Ha, Hact. destruct (decide (Some self = Some self)); [reflexivity | contradiction].
  - split; [reflexivity|]. split; [reflexivity|]. split; [reflexivity|].
    split; [exact Hact|]. intros c now _ Habs. discriminate.
Qed.

Lemma build_effects_text (c : QPoint) (clock : nat -> Q) (opts : list MenuOption) :
  forall (angs : list Q) (i : nat),
    (length opts <= length angs)%nat ->
    map e_text (build_effects c clock i opts angs) = map label opts.
Proof.
  induction opts as [|opt opts IH]; intros angs i Hlen; simpl; [reflexivity|].
  destruct angs as [|a angs]; simpl in *; [lia|]. rewrite IH by lia. reflexivity.
Qed.

Lemma opening_effects_text (gp : QPoint) (geo : QRect) (clock : nat -> Q) (o : Overlay) :
  map e_text (opening_effects gp geo clock o) = map label (options o).
Proof.
  unfold opening_effects. apply build_effects_text.
  destruct (angles_length (baseline geo (mapFromGlobal geo gp))
                          (Nat.max 1 (length (options o)))) as [->|E]; lia.
Qed.

Lemma map_text_set_progress (p : Q) (es : list Effect) :
  map e_text (map (set_progress p) es) = map e_text es.
Proof. induction es as [|e es IH]; simpl; [reflexivity|]. rewrite IH. reflexivity. Qed.

(** The loop keeps the text of every effect. *)
Lemma paint_loop_text (o : Overlay) (now : Q) (es : list Effect) :
  forall i es' hits r,
    paint_loop o now i es = Some (es', hits, r) -> map e_text es' = map e_text es.
Proof.
  induction es as [|e rest IH]; intros i es' hits r; simpl.
  - intros [= <- <- <-]. reflexivity.
  - destruct (effect_prog o now e) as [[p b]|]; simpl; [|discriminate].
    destruct (paint_loop o now (S i) rest) as [[[es2 h2] r2]|] eqn:Hl; simpl; [|discriminate].
    intros [= <- <- <-]. simpl. rewrite (IH (S i) es2 h2 r2 Hl). reflexivity.
Qed.

(** X11. After [show_at] at a point whose local image is not the
    window's origin (0, 0), so that the paint passes the guard of
    [paintEvent], and a paint of the overlay, which is not closing,
    the overlay has one effect and one hit region per option, and the hit
    region at position [k] carries the index [k], is the rectangle drawn
    for effect [k], and that effect shows the label of option [k]: the
    option a hit region selects is the one whose label is drawn in it. *)
Theorem hit_region_shows_its_option (self : nat) (gp : QPoint) (geo : QRect)
        (clock : nat -> Q) (now : Q) (w : World) (o : Overlay) :
  objs w !! self = Some o -> _closing o = false ->
  QPoint_bool (Some (mapFromGlobal geo gp)) = true ->
  let w1 := show_at self gp geo clock w in
  exists o2,
    paintEvent self now w1 = Some (put self o2 w1)
    /\ options o2 = options o
    /\ length (effects o2) = length (options o)
    /\ length (_hit_regions o2) = length (options o)
    /\ forall k rect idx,
         _hit_regions o2 !! k = Some (rect, idx) ->
         idx = k
         /\ exists e opt,
              effects o2 !! k = Some e /\ options o !! k = Some opt
              /\ e_text e = label opt
              /\ rect = effect_rect o2 (e_progress e) e.
Proof.
  intros Ho Hcl Hc w1. subst w1.
  pose proof (show_at_lookup self gp geo clock w o Ho) as Hl. cbv zeta in Hl.
  set (o1 := set_visible true _) in Hl.
  assert (Hc1 : QPoint_bool (center o1) = true).
  { unfold o1. destruct (anim_enabled o); exact Hc. }
  assert (Hcl1 : _closing o1 = false).
  { unfold o1. destruct (anim_enabled o); exact Hcl. }
  assert (Hopt1 : options o1 = options o).
  { unfold o1. destruct (anim_enabled o); reflexivity. }
  assert (Htext1 : map e_text (effects o1) = map label (options o)).
  { unfold o1. destruct (anim_enabled o); simpl;
      rewrite ?map_text_set_progress; apply opening_effects_text. }
  destruct (paintEvent_open self now _ o1 Hl Hc1 Hcl1)
    as (es & hits & r & o2 & Hloop & Hp & He & Hh & Hs).
  destruct (paint_loop_spec o1 now (effects o1) 0) as (es' & hits' & r' & Hloop' & Hf & Hz).
  rewrite Hloop in Hloop'. injection Hloop' as <- <- <-.
  pose proof (paint_loop_text o1 now _ 0 es hits r Hloop) as Htext.
  assert (Hlen : length es = length (options o)).
  { rewrite <- (length_map e_text), Htext, Htext1, length_map. reflexivity. }
  assert (Hlen1 : length (effects o1) = length (options o)).
  { rewrite <- (length_map e_text), Htext1, length_map. reflexivity. }
  destruct Hs as (So & _ & _ & _ & _ & _ & _ & _ & _ & _ & _ & Sg & _).
  exists o2. split; [exact Hp|]. split; [congruence|].
  split; [rewrite He; exact Hlen|].
  split; [rewrite Hh, Hz, length_zip_with, length_seq; lia|].
  intros k rect idx Hk. rewrite Hh, Hz in Hk.
  apply lookup_zip_with_Some in Hk as (e & j & [= -> ->] & Hek & Hjk).
  apply lookup_seq in Hjk as [-> _]. split; [reflexivity|].
  assert (Ht : map label (options o) !! k = Some (e_text e)).
  { rewrite <- Htext1, <- Htext. change (map e_text es) with (e_text <$> es).
    rewrite list_lookup_fmap, Hek. reflexivity. }
  change (map label (options o)) with (label <$> options o) in Ht.
  rewrite list_lookup_fmap in Ht.
  destruct (options o !! k) as [opt|] eqn:Hopt; [|discriminate].
  injection Ht as Ht. exists e, opt. rewrite He.
  split; [exact Hek|]. split; [reflexivity|]. split; [congruence|].
  apply effect_rect_container. unfold base_dist. rewrite Sg. reflexivity.
Qed.

End Reopening.

Section RectSize.

Context `{Libm}.

Local Open Scope Q_scope.

Lemma int_between (q : Q) (lo hi : Z) :
  0 <= q -> inject_Z lo <= q -> q <= inject_Z hi -> (lo <= Py.int q <= hi)%Z.
Proof.
  intros H0 Hlo Hhi. unfold Py.int.
  apply Qle_bool_iff in H0. rewrite H0. split.
  - rewrite <- (Qfloor_Z lo). apply Qfloor_resp_le, Hlo.
  - rewrite <- (Qfloor_Z hi). apply Qfloor_resp_le, Hhi.
Qed.

Lemma build_effects_targets (c : QPoint) (clock : nat -> Q) (opts : list MenuOption) :
  forall (angs : list Q) (i : nat) (e : Effect),
    In e (build_effects c clock i opts angs) ->
    e_target_w e = 100%Z /\ e_target_h e = 36%Z /\ e_center e = c.
Proof.
  induction opts as [|opt opts IH]; intros angs i e; simpl; [contradiction|].
  destruct angs as [|a angs]; simpl; [contradiction|].
  intros [<-|Hin]; [destruct c; repeat split | apply (IH angs (S i) e Hin)].
Qed.

(** X12. Every effect that [show_at] builds has the target size 100 by 36
    and the click point as its centre.  For such an effect at a progress
    between 0 and 1 the rectangle that is drawn and hit-tested is between
    60 and 100 pixels wide and between 21 and 36 pixels high, so it is
    never empty and contains exactly the points of its pixel grid; the
    distance the options travel from the click point is between 80 and
    140 pixels whatever the size of the window. *)
Theorem hit_rectangle_size (o : Overlay) (prog : Q) (e : Effect) :
  in_unit prog -> e_target_w e = 100%Z -> e_target_h e = 36%Z ->
  let r := effect_rect o prog e in
  (60 <= width r <= 100)%Z /\ (21 <= height r <= 36)%Z
  /\ (80 <= base_dist o <= 140)%Z
  /\ (forall p, contains r p = true
                <-> (left r <= x p <= left r + width r - 1
                     /\ top r <= y p <= top r + height r - 1)%Z)
  /\ (forall gp geo clock o0 e0,
        In e0 (opening_effects gp geo clock o0) ->
        e_target_w e0 = 100%Z /\ e_target_h e0 = 36%Z
        /\ e_center e0 = mapFromGlobal geo gp).
Proof.
  intros [Hp0 Hp1] Hw Hh r.
  assert (Hwidth : (60 <= width r <= 100)%Z).
  { unfold r, effect_rect. cbn [width]. rewrite Hw. apply int_between.
    - change (inject_Z 100) with 100. nra.
    - change (inject_Z 100) with 100. change (inject_Z 60) with 60. nra.
    - change (inject_Z 100) with 100. nra. }
  assert (Hheight : (21 <= height r <= 36)%Z).
  { unfold r, effect_rect. cbn [height]. rewrite Hh. apply int_between.
    - change (inject_Z 36) with 36. nra.
    - change (inject_Z 36) with 36. change (inject_Z 21) with 21. nra.
    - change (inject_Z 36) with 36. nra. }
  split; [exact Hwidth|]. split; [exact Hheight|].
  split; [unfold base_dist; lia|]. split.
  - intros p. unfold contains, QRect_isNull, right, bottom.
    destruct (Z.eqb_spec (left r + width r - 1) (left r - 1)) as [E|_]; [lia|].
    cbn [andb].
    destruct (Z.ltb_spec (left r + width r - 1) (left r - 1)) as [E|_]; [lia|].
    destruct (Z.ltb_spec (top r + height r - 1) (top r - 1)) as [E|_]; [lia|].
    rewrite andb_true_iff, !negb_true_iff, !orb_false_iff, !Z.ltb_ge. tauto.
  - intros gp geo clock o0 e0 Hin. apply (build_effects_targets _ _ _ _ _ _ Hin).
Qed.

End RectSize.

(** ** The demo widget *)

Section DemoFacts.

Context `{Libm}.

Local Open Scope Q_scope.

Lemma int_le (q : Q) (hi : Z) : (0 <= hi)%Z -> q <= inject_Z hi -> (Py.int q <= hi)%Z.
Proof.
  intros Hhi Hq. unfold Py.int. destruct (Qle_bool 0 q) eqn:E.
  - apply Qle_bool_iff in E. pose proof (Qfloor_le q) as Hf.
    destruct (Z_lt_le_dec hi (Qfloor q)) as [Hlt|]; [|assumption].
    exfalso. assert (Hz : (hi + 1 <= Qfloor q)%Z) by lia.
    rewrite Zle_Qle in Hz. rewrite inject_Z_plus in Hz. change (inject_Z 1) with 1 in Hz. lra.
  - assert (Hn : q < 0).
    { destruct (Qlt_le_dec q 0) as [|Hge]; [assumption|].
      apply Qle_bool_iff in Hge. congruence. }
    assert (Hc : (Qceiling q <= 0)%Z).
    { change 0%Z with (Qceiling 0). apply Qceiling_resp_le. lra. }
    lia.
Qed.

Lemma demo_rect_size (prog : Q) (e : Demo.Effect) :
  prog <= 1 -> Demo.e_target_w e = 84%Z -> Demo.e_target_h e = 36%Z ->
  (8 <= Demo.rect_w prog e <= 84 /\ 8 <= Demo.rect_h prog e <= 36)%Z.
Proof.
  intros Hp Hw Hh. unfold Demo.rect_w, Demo.rect_h. rewrite Hw, Hh.
  assert (H1 : (Py.int (inject_Z 84 * ((6 # 10) + (4 # 10) * prog)) <= 84)%Z).
  { apply int_le; [lia|]. change (inject_Z 84) with 84. lra. }
  assert (H2 : (Py.int (inject_Z 36 * ((6 # 10) + (4 # 10) * prog)) <= 36)%Z).
  { apply int_le; [lia|]. change (inject_Z 36) with 36. lra. }
  lia.
Qed.

(** Whenever the rectangle fits between the margins, the rectangle the
    demo draws lies between them. *)
Lemma demo_effect_rect_within (d : Demo.Demo) (prog : Q) (e : Demo.Effect) :
  (2 * Demo.margin + Demo.rect_w prog e <= Demo.widget_width d)%Z ->
  (2 * Demo.margin + Demo.rect_h prog e <= Demo.widget_height d)%Z ->
  within Demo.margin (Demo.widget_width d) (Demo.widget_height d)
         (Demo.effect_rect d prog e).
Proof.
  intros Hw Hh. rewrite demo_effect_rect_cases.
  destruct (Demo.out_of_bounds d (Demo.rect_along d prog e (Demo.e_angle e))) eqn:E.
  - apply clamp_within; assumption.
  - apply out_of_bounds_false, E.
Qed.

Lemma demo_forward_prog (d : Demo.Demo) (now : Q) (e : Demo.Effect) :
  Demo.e_reverse_start e = None ->
  exists p b, Demo.effect_prog d now e = Some (p, b) /\ p <= 1
              /\ (Demo.anim_enabled d = false -> p = 1 /\ b = false).
Proof.
  intros Hr. unfold Demo.effect_prog. rewrite Hr.
  destruct (Demo.anim_enabled d); simpl.
  - rewrite truediv_guarded. simpl. eexists _, _. split; [reflexivity|].
    split; [|discriminate]. unfold Py.pow3.
    set (t := Qmin 1 _). assert (Ht : t <= 1) by apply Q.le_min_l.
    assert (Hu : 0 <= 1 - t) by lra.
    assert (0 <= (1 - t) * (1 - t) * (1 - t))
      by (apply Qmult_le_0_compat; [apply Qmult_le_0_compat|]; exact Hu).
    lra.
  - exists 1, false. split; [reflexivity|]. split; [lra|]. intros _. split; reflexivity.
Qed.

(** The paint loop over effects that are not reversed. *)
Lemma demo_paint_loop_forward (d : Demo.Demo) (now : Q) (es : list Demo.Effect) :
  Forall demo_fresh es ->
  (108 <= Demo.widget_width d)%Z -> (60 <= Demo.widget_height d)%Z ->
  forall i,
    exists es' hits r,
      Demo.paint_loop d now i es = Some (es', hits, r)
      /\ length es' = length es /\ length hits = length es
      /\ Forall (fun h => within Demo.margin (Demo.widget_width d) (Demo.widget_height d) h.1)
                hits
      /\ Forall (fun e => Demo.e_reverse_start e = None) es'
      /\ (Demo.anim_enabled d = false ->
          r = false /\ Forall (fun e => Demo.e_progress e = 1) es').
Proof.
  intros Hes Hw Hh. induction Hes as [|e rest (Hr & Htw & Hth) _ IH]; intros i; simpl.
  - exists [], [], false. repeat split; constructor.
  - destruct (demo_forward_prog d now e Hr) as (p & b & Hp & Hle & Hst). rewrite Hp. simpl.
    destruct (IH (S i)) as (es' & hits & r & Hl & Hn & Hm & Hin & Hrev & Hoff).
    rewrite Hl. simpl. eexists _, _, _. split; [reflexivity|].
    split; [simpl; congruence|]. split; [simpl; congruence|].
    split; [|split].
    + constructor; [|exact Hin]. simpl.
      destruct (demo_rect_size p e Hle Htw Hth) as [Hrw Hrh].
      apply demo_effect_rect_within; unfold Demo.margin; lia.
    + constructor; [exact Hr | exact Hrev].
    + intros Hoffd. destruct (Hst Hoffd) as [-> ->]. destruct (Hoff Hoffd) as [-> Hall].
      split; [reflexivity|]. constructor; [reflexivity | exact Hall].
Qed.

Lemma any_reversed_none (es : list Demo.Effect) :
  Forall (fun e => Demo.e_reverse_start e = None) es -> Demo.any_reversed es = false.
Proof.
  intros Hes. apply existsb_false_Forall. eapply Forall_impl; [exact Hes|].
  intros e He. simpl in He. rewrite He. reflexivity.
Qed.

(** A paint of a demo whose effects are all fresh. *)
Lemma demo_paintEvent_forward (now : Q) (a : Demo.Demo) :
  Forall demo_fresh (Demo.effects a) ->
  (108 <= Demo.widget_width a)%Z -> (60 <= Demo.widget_height a)%Z ->
  exists a',
    Demo.paintEvent now a = Some a'
    /\ length (Demo.effects a') = length (Demo.effects a)
    /\ length (Demo._hit_regions a') = length (Demo.effects a)
    /\ Forall (fun h => within Demo.margin (Demo.widget_width a) (Demo.widget_height a) h.1)
              (Demo._hit_regions a')
    /\ Demo.center_circle a' = Demo.center_circle a.
Proof.
  intros Hes Hw Hh. unfold Demo.paintEvent.
  destruct (demo_paint_loop_forward a now (Demo.effects a) Hes Hw Hh 0%nat)
    as (es' & hits & r & Hl & Hn & Hm & Hin & Hrev & _).
  rewrite Hl. simpl.
  assert (Hany : Demo.any_reversed es' = false) by (apply any_reversed_none, Hrev).
  destruct (negb r && Demo.anim_timer_active a); simpl; rewrite Hany, andb_false_r;
    eexists; (split; [reflexivity|]); simpl; auto.
Qed.

End DemoFacts.

Section DemoHandlers.

Context `{Libm}.

Local Open Scope Q_scope.

Lemma demo_build_effects_fresh (pos : QPoint) (clock : nat -> Q) (visible : list string) :
  forall (angs : list Q) (i : nat),
    Forall demo_fresh (DemoUI.build_effects pos clock i visible angs).
Proof.
  induction visible as [|text rest IH]; intros [|a angs] i; simpl; try constructor.
  - repeat split.
  - apply IH.
Qed.

Lemma demo_build_effects_length (pos : QPoint) (clock : nat -> Q) (visible : list string) :
  forall (angs : list Q) (i : nat),
    (length visible <= length angs)%nat ->
    length (DemoUI.build_effects pos clock i visible angs) = length visible.
Proof.
  induction visible as [|text rest IH]; intros [|a angs] i Hlen; simpl in *;
    try reflexivity; try lia.
  f_equal. apply IH. lia.
Qed.

Lemma demo_build_effects_angles (pos : QPoint) (clock : nat -> Q) (visible : list string) :
  forall (angs : list Q) (i : nat),
    map Demo.e_angle (DemoUI.build_effects pos clock i visible angs)
    = take (length visible) angs.
Proof.
  induction visible as [|text rest IH]; intros [|a angs] i; simpl; try reflexivity.
  f_equal. apply IH.
Qed.

Lemma demo_build_effects_text (pos : QPoint) (clock : nat -> Q) (visible : list string) :
  forall (angs : list Q) (i : nat),
    (length visible <= length angs)%nat ->
    map Demo.e_text (DemoUI.build_effects pos clock i visible angs) = visible.
Proof.
  induction visible as [|text rest IH]; intros [|a angs] i Hlen; simpl in *;
    try reflexivity; try lia.
  f_equal. apply IH. lia.
Qed.

Lemma demo_fresh_set_progress (p : Q) (es : list Demo.Effect) :
  Forall demo_fresh es -> Forall demo_fresh (map (Demo.set_progress p) es).
Proof.
  intros Hes. apply Forall_map. eapply Forall_impl; [exact Hes|].
  intros e He. exact He.
Qed.

Lemma angles_enough (base : Q) (n : nat) : (n <= length (angles base (Nat.max 1 n)))%nat.
Proof. destruct (angles_length base (Nat.max 1 n)) as [-> | H0]; lia. Qed.

(** The animation state a middle press leaves when the native menu is
    not used. *)
Lemma demo_press_state (d : DemoUI.Widget) (fx fy : Q) (clock : nat -> Q)
      (choice : option nat) :
  DemoUI.use_native_menu d = false ->
  let pos := mkPoint (Py.int fx) (Py.int fy) in
  let a := DemoUI.anim d in
  let geo := mkRect 0 0 (Demo.widget_width a) (Demo.widget_height a) in
  let es := DemoUI.build_effects pos clock 0 (DemoUI.options d)
              (angles (baseline geo pos) (Nat.max 1 (length (DemoUI.options d)))) in
  DemoUI.anim (DemoUI.mousePressEvent MiddleButton fx fy clock choice d)
  = if Demo.anim_enabled a
    then Demo.mkDemo (Some (pos, 24%Z)) true es true
                     (Demo.anim_in_duration a) (Demo.anim_out_duration a) []
                     (Demo.widget_width a) (Demo.widget_height a)
    else Demo.mkDemo (Some (pos, 24%Z)) false (map (Demo.set_progress 1) es)
                     (Demo.anim_timer_active a)
                     (Demo.anim_in_duration a) (Demo.anim_out_duration a) []
                     (Demo.widget_width a) (Demo.widget_height a).
Proof.
  intros Hn pos a geo es. unfold DemoUI.mousePressEvent. rewrite Hn. cbv zeta.
  fold pos a. fold geo. fold es. simpl.
  destruct (Demo.anim_enabled a) eqn:Ea; simpl.
  - destruct (Demo.anim_timer_active a) eqn:Et; simpl;
      unfold Demo.set_anim_timer, Demo.set_hit_regions, Demo.set_effects,
             Demo.set_center_circle; simpl; rewrite ?Ea, ?Et; reflexivity.
  - unfold Demo.set_hit_regions, Demo.set_effects, Demo.set_center_circle; simpl.
    rewrite Ea. reflexivity.
Qed.

Lemma demo_reversed_prog_end (d : Demo.Demo) (now rs : Q) (e : Demo.Effect) :
  Demo.anim_enabled d = true -> Demo.e_reverse_start e = Some rs ->
  rs + Qmax Py.eps (Demo.anim_out_duration d) <= now ->
  exists p, Demo.effect_prog d now e = Some (p, false) /\ p == 0.
Proof.
  intros Hen Hr Hend. unfold Demo.effect_prog. rewrite Hr, Hen.
  rewrite truediv_guarded. simpl.
  set (sp := match Demo.e_reverse_progress_start e with Some p => p | None => _ end).
  assert (Hf : Qmin 1 ((now - rs) / Qmax Py.eps (Demo.anim_out_duration d)) == 1).
  { apply (time_fraction_done (now - rs) (Demo.anim_out_duration d)). lra. }
  set (frac := Qmin 1 _) in *.
  assert (Hz : Qmax 0 (sp * (1 - frac)) == 0).
  { apply Q.max_l. rewrite Hf. lra. }
  eexists. split; [|exact Hz].
  f_equal. f_equal. apply py_lt_false. rewrite Hz. lra.
Qed.

Lemma demo_paint_loop_reversed_end (d : Demo.Demo) (now rs : Q) (es : list Demo.Effect) :
  Demo.anim_enabled d = true ->
  Forall (fun e => Demo.e_reverse_start e = Some rs) es ->
  rs + Qmax Py.eps (Demo.anim_out_duration d) <= now ->
  forall i,
    exists es' hits,
      Demo.paint_loop d now i es = Some (es', hits, false)
      /\ length es' = length es
      /\ Forall (fun e => Demo.e_reverse_start e = Some rs) es'.
Proof.
  intros Hen Hes Hend. induction Hes as [|e rest Hr _ IH]; intros i; simpl.
  - exists [], []. repeat split; constructor.
  - destruct (demo_reversed_prog_end d now rs e Hen Hr Hend) as (p & Hp & _).
    rewrite Hp. simpl. destruct (IH (S i)) as (es' & hits & Hl & Hn & Hrev).
    rewrite Hl. simpl. eexists _, _. split; [reflexivity|].
    split; [simpl; congruence|]. constructor; [exact Hr | exact Hrev].
Qed.

Lemma any_reversed_all (rs : Q) (es : list Demo.Effect) :
  es <> [] -> Forall (fun e => Demo.e_reverse_start e = Some rs) es ->
  Demo.any_reversed es = true.
Proof.
  intros Hne Hes. destruct Hes as [|e rest He _]; [congruence|].
  unfold Demo.any_reversed. simpl. rewrite He. reflexivity.
Qed.

(** Closing the options at [t0] and painting once the guarded exit
    duration has passed clears the demo. *)
Lemma demo_close_then_paint (a : Demo.Demo) (t0 now : Q) :
  Demo.effects a <> [] ->
  t0 + Qmax Py.eps (Demo.anim_out_duration a) <= now ->
  exists a', Demo.paintEvent now (DemoUI.close_options t0 a) = Some a' /\ demo_cleared a'.
Proof.
  intros Hne Hend. unfold DemoUI.close_options.
  destruct (Demo.anim_enabled a) eqn:Hen.
  - unfold Demo._start_reverse_close. rewrite Hen. cbv zeta. simpl negb. cbv iota.
    set (es := map (fun e => Demo.set_reverse t0 (Demo.e_progress e) e) (Demo.effects a)).
    set (a1 := if negb (Demo.anim_timer_active a)
               then Demo.set_anim_timer true (Demo.set_effects es a)
               else Demo.set_effects es a).
    assert (Ha1 : Demo.anim_enabled a1 = true /\ Demo.effects a1 = es
                  /\ Demo.anim_out_duration a1 = Demo.anim_out_duration a
                  /\ Demo.anim_timer_active a1 = true).
    { subst a1. simpl. destruct (Demo.anim_timer_active a) eqn:Et; simpl; auto. }
    destruct Ha1 as (He1 & Hes1 & Ho1 & Ht1).
    assert (Hall : Forall (fun e => Demo.e_reverse_start e = Some t0) es).
    { subst es. apply Forall_map. apply Forall_forall. intros e _. reflexivity. }
    assert (Hnes : es <> []).
    { subst es. destruct (Demo.effects a); [congruence | discriminate]. }
    destruct (demo_paint_loop_reversed_end a1 now t0 es He1 Hall
                ltac:(rewrite Ho1; exact Hend) 0%nat) as (es' & hits & Hl & Hn & Hrev).
    unfold Demo.paintEvent. rewrite Hes1, Hl. simpl. rewrite Ht1. simpl.
    assert (Hany : Demo.any_reversed es' = true).
    { apply (any_reversed_all t0); [|exact Hrev].
      destruct es'; [|discriminate]. destruct es; [congruence | discriminate]. }
    rewrite Hany. eexists. split; [reflexivity|]. repeat split.
  - unfold Demo.paintEvent, DemoUI.clear_state. simpl.
    destruct (Demo.anim_timer_active a) eqn:Et; simpl; eexists;
      (split; [reflexivity|]); repeat split; simpl; auto.
Qed.

(** X13. After a middle press on a demo widget that is at least 108 by 60
    pixels large (its minimum size is 640 by 480) and does not use the
    native menu, a paint at any time succeeds, records one hit region per
    option, and every hit region, flipped or clamped where needed, lies
    inside the widget shrunk by the margin of 12 pixels; the central
    circle stays at the point of the press with radius 24. *)
Theorem demo_options_stay_on_screen (d : DemoUI.Widget) (fx fy now : Q)
        (clock : nat -> Q) :
  DemoUI.use_native_menu d = false ->
  (108 <= Demo.widget_width (DemoUI.anim d))%Z ->
  (60 <= Demo.widget_height (DemoUI.anim d))%Z ->
  let d1 := DemoUI.mousePressEvent MiddleButton fx fy clock None d in
  exists a',
    Demo.paintEvent now (DemoUI.anim d1) = Some a'
    /\ length (Demo._hit_regions a') = length (DemoUI.options d)
    /\ Forall (fun h => within Demo.margin (Demo.widget_width (DemoUI.anim d))
                               (Demo.widget_height (DemoUI.anim d)) h.1)
              (Demo._hit_regions a')
    /\ Demo.center_circle a' = Some (mkPoint (Py.int fx) (Py.int fy), 24%Z).
Proof.
  intros Hn Hw Hh d1. subst d1. rewrite (demo_press_state d fx fy clock None Hn).
  set (pos := mkPoint (Py.int fx) (Py.int fy)).
  set (a := DemoUI.anim d) in *.
  set (es := DemoUI.build_effects pos clock 0 (DemoUI.options d) _).
  assert (Hfresh : Forall demo_fresh es) by apply demo_build_effects_fresh.
  assert (Hlen : length es = length (DemoUI.options d))
    by (apply demo_build_effects_length, angles_enough).
  destruct (Demo.anim_enabled a).
  - destruct (demo_paintEvent_forward now
                (Demo.mkDemo (Some (pos, 24%Z)) true es true (Demo.anim_in_duration a)
                             (Demo.anim_out_duration a) [] (Demo.widget_width a)
                             (Demo.widget_height a)) Hfresh Hw Hh)
      as (a' & Hp & _ & Hm & Hin & Hc).
    exists a'. simpl in *. rewrite Hm, Hlen. auto.
  - destruct (demo_paintEvent_forward now
                (Demo.mkDemo (Some (pos, 24%Z)) false (map (Demo.set_progress 1) es)
                             (Demo.anim_timer_active a) (Demo.anim_in_duration a)
                             (Demo.anim_out_duration a) [] (Demo.widget_width a)
                             (Demo.widget_height a))
                (demo_fresh_set_progress 1 es Hfresh) Hw Hh)
      as (a' & Hp & _ & Hm & Hin & Hc).
    exists a'. simpl in *. rewrite Hm, length_map, Hlen. auto.
Qed.

(** X14. A left click on a demo widget that shows options dismisses
    them, wherever it lands: after the release at time [t0], a paint once
    the guarded exit duration has passed (at any time when animation is
    off) leaves no effect, no hit region and no central circle, and the
    timer stopped.  The click prints at most one line, for an option of
    the widget, and changes neither the options nor the settings. *)
Theorem demo_left_click_dismisses (d : DemoUI.Widget) (fx fy t0 now : Q) :
  Demo.effects (DemoUI.anim d) <> [] ->
  t0 + Qmax Py.eps (Demo.anim_out_duration (DemoUI.anim d)) <= now ->
  let d1 := DemoUI.mouseReleaseEvent LeftButton fx fy t0 d in
  (exists a', Demo.paintEvent now (DemoUI.anim d1) = Some a' /\ demo_cleared a')
  /\ DemoUI.options d1 = DemoUI.options d
  /\ DemoUI.auto_close_enabled d1 = DemoUI.auto_close_enabled d
  /\ DemoUI.auto_close_distance d1 = DemoUI.auto_close_distance d
  /\ DemoUI.use_native_menu d1 = DemoUI.use_native_menu d
  /\ (DemoUI.printed d1 = DemoUI.printed d
      \/ exists idx opt,
           DemoUI.options d !! idx = Some opt
           /\ DemoUI.printed d1 = DemoUI.PrintSelected opt :: DemoUI.printed d).
Proof.
  intros Hne Hend d1. subst d1. unfold DemoUI.mouseReleaseEvent. cbv zeta.
  set (d0 := match find_hit _ _ _ with Some idx => _ | None => d end).
  assert (Hd0 : DemoUI.anim d0 = DemoUI.anim d /\ DemoUI.options d0 = DemoUI.options d
                /\ DemoUI.auto_close_enabled d0 = DemoUI.auto_close_enabled d
                /\ DemoUI.auto_close_distance d0 = DemoUI.auto_close_distance d
                /\ DemoUI.use_native_menu d0 = DemoUI.use_native_menu d
                /\ (DemoUI.printed d0 = DemoUI.printed d
                    \/ exists idx opt,
                         DemoUI.options d !! idx = Some opt
                         /\ DemoUI.printed d0
                            = DemoUI.PrintSelected opt :: DemoUI.printed d)).
  { subst d0. destruct (find_hit _ _ _) as [idx|]; [|repeat split; auto].
    destruct (DemoUI.options d !! idx) as [opt|] eqn:Eo; [|repeat split; auto].
    repeat split. right. exists idx, opt. split; [exact Eo | reflexivity]. }
  destruct Hd0 as (Ha & Ho & Hae & Had & Hnm & Hpr). simpl. rewrite Ha.
  split; [apply demo_close_then_paint; assumption|]. auto.
Qed.

End DemoHandlers.

Section DemoComposition.

Context `{Libm}.

Local Open Scope Q_scope.

Lemma demo_build_effects_center (pos : QPoint) (clock : nat -> Q) (visible : list string) :
  forall (angs : list Q) (i : nat),
    Forall (fun e => Demo.e_center e = pos) (DemoUI.build_effects pos clock i visible angs).
Proof.
  induction visible as [|text rest IH]; intros [|a angs] i; simpl; try constructor.
  - destruct pos; reflexivity.
  - apply IH.
Qed.

Lemma baseline_size (geo geo' : QRect) (c : QPoint) :
  width geo' = width geo -> height geo' = height geo -> baseline geo' c = baseline geo c.
Proof. intros Hw Hh. unfold baseline. rewrite Hw, Hh. reflexivity. Qed.

(** The effects a middle press leaves, in either animation mode. *)
Lemma demo_press_effects (d : DemoUI.Widget) (fx fy : Q) (clock : nat -> Q) :
  DemoUI.use_native_menu d = false ->
  let pos := mkPoint (Py.int fx) (Py.int fy) in
  let a := DemoUI.anim d in
  let geo := mkRect 0 0 (Demo.widget_width a) (Demo.widget_height a) in
  let es := DemoUI.build_effects pos clock 0 (DemoUI.options d)
              (angles (baseline geo pos) (Nat.max 1 (length (DemoUI.options d)))) in
  let a1 := DemoUI.anim (DemoUI.mousePressEvent MiddleButton fx fy clock None d) in
  (Demo.effects a1 = es \/ Demo.effects a1 = map (Demo.set_progress 1) es)
  /\ Demo.center_circle a1 = Some (pos, 24%Z)
  /\ Demo.anim_out_duration a1 = Demo.anim_out_duration a
  /\ Demo.anim_enabled a1 = Demo.anim_enabled a.
Proof.
  intros Hn pos a geo es a1. subst a1.
  rewrite (demo_press_state d fx fy clock None Hn). fold pos a. fold geo. fold es.
  destruct (Demo.anim_enabled a); simpl; auto.
Qed.

(** X15. The demo lays its options out as the overlay does: for a demo
    widget and an overlay window of the same size, a press and a
    [show_at] at the same local point and option lists of the same
    length, the angles of the demo's effects are those of the overlay's
    effects, in order.  The demo's effects carry the option texts in
    order, the point of the press as centre, and the target size 84 by
    36 where the overlay uses 100 by 36. *)
Theorem demo_lays_out_like_overlay (d : DemoUI.Widget) (fx fy : Q)
        (clock clock' : nat -> Q) (gp : QPoint) (geo : QRect) (o : Overlay) :
  DemoUI.use_native_menu d = false ->
  length (DemoUI.options d) = length (options o) ->
  Demo.widget_width (DemoUI.anim d) = width geo ->
  Demo.widget_height (DemoUI.anim d) = height geo ->
  mkPoint (Py.int fx) (Py.int fy) = mapFromGlobal geo gp ->
  let es := Demo.effects
              (DemoUI.anim (DemoUI.mousePressEvent MiddleButton fx fy clock None d)) in
  map Demo.e_angle es = map e_angle (opening_effects gp geo clock' o)
  /\ map Demo.e_text es = DemoUI.options d
  /\ Forall (fun e => Demo.e_center e = mkPoint (Py.int fx) (Py.int fy)
                      /\ Demo.e_target_w e = 84%Z /\ Demo.e_target_h e = 36%Z) es.
Proof.
  intros Hn Hlen Hw Hh Hpos es.
  destruct (demo_press_effects d fx fy clock Hn) as (Hes & _). fold es in Hes.
  set (pos := mkPoint (Py.int fx) (Py.int fy)) in *.
  set (geo0 := mkRect 0 0 (Demo.widget_width (DemoUI.anim d))
                      (Demo.widget_height (DemoUI.anim d))) in *.
  set (angs := angles (baseline geo0 pos) (Nat.max 1 (length (DemoUI.options d)))) in *.
  set (es0 := DemoUI.build_effects pos clock 0 (DemoUI.options d) angs) in *.
  assert (Ha0 : map Demo.e_angle es0 = map e_angle (opening_effects gp geo clock' o)).
  { unfold opening_effects, es0. rewrite demo_build_effects_angles, build_effects_angles.
    rewrite <- Hpos, <- Hlen. fold pos. unfold angs.
    rewrite (baseline_size geo geo0 pos Hw Hh). reflexivity. }
  assert (Ht0 : map Demo.e_text es0 = DemoUI.options d)
    by (apply demo_build_effects_text, angles_enough).
  assert (Hf0 : Forall (fun e => Demo.e_center e = pos
                                 /\ Demo.e_target_w e = 84%Z /\ Demo.e_target_h e = 36%Z) es0).
  { pose proof (demo_build_effects_center pos clock (DemoUI.options d) angs 0) as Hc.
    pose proof (demo_build_effects_fresh pos clock (DemoUI.options d) angs 0) as Hfr.
    fold es0 in Hc, Hfr. rewrite Forall_forall in Hc, Hfr. apply Forall_forall.
    intros e He. destruct (Hfr e He) as (_ & Htw & Hth). split; [apply Hc, He|]. auto. }
  destruct Hes as [-> | ->]; [auto|].
  rewrite !map_map. simpl. split; [exact Ha0|]. split; [exact Ht0|].
  apply Forall_map. eapply Forall_impl; [exact Hf0|]. intros e He. exact He.
Qed.

(** X16. Auto-close of the demo after a press: with auto-close on, a
    non-negative distance setting and at least one option, a pointer
    move that stays within the distance of the point of the press
    changes nothing, and a move beyond it at time [t0] followed by a
    paint once the guarded exit duration has passed leaves no effect, no
    hit region and no central circle, and the timer stopped. *)
Theorem demo_auto_close_after_press (d : DemoUI.Widget) (px py mx my t0 now : Q)
        (clock : nat -> Q) :
  DemoUI.use_native_menu d = false -> DemoUI.auto_close_enabled d = true ->
  DemoUI.options d <> [] -> (0 <= DemoUI.auto_close_distance d)%Z ->
  let d1 := DemoUI.mousePressEvent MiddleButton px py clock None d in
  let dx := (Py.int mx - Py.int px)%Z in
  let dy := (Py.int my - Py.int py)%Z in
  let limit := DemoUI.auto_close_distance d in
  ((dx * dx + dy * dy <= limit * limit)%Z -> DemoUI.mouseMoveEvent mx my t0 d1 = d1)
  /\ ((limit * limit < dx * dx + dy * dy)%Z ->
      t0 + Qmax Py.eps (Demo.anim_out_duration (DemoUI.anim d)) <= now ->
      exists a',
        Demo.paintEvent now (DemoUI.anim (DemoUI.mouseMoveEvent mx my t0 d1)) = Some a'
        /\ demo_cleared a').
Proof.
  intros Hn Hac Hopts Hlim d1 dx dy limit.
  destruct (demo_press_effects d px py clock Hn) as (Hes & Hcc & Hout & _).
  fold d1 in Hes, Hcc, Hout.
  assert (Hd1 : DemoUI.auto_close_enabled d1 = true
                /\ DemoUI.auto_close_distance d1 = limit).
  { subst d1. unfold DemoUI.mousePressEvent. rewrite Hn. simpl. auto. }
  destruct Hd1 as [Hac1 Hdist1].
  assert (Hne : Demo.effects (DemoUI.anim d1) <> []).
  { intros Hnil. apply (f_equal length) in Hnil. simpl in Hnil.
    destruct Hes as [Hes | Hes]; rewrite Hes in Hnil;
      rewrite ?length_map, demo_build_effects_length in Hnil by apply angles_enough;
      destruct (DemoUI.options d); [congruence | discriminate | congruence | discriminate]. }
  unfold DemoUI.mouseMoveEvent. rewrite Hac1, Hcc, Hdist1. cbv zeta.
  cbn [x y]. fold dx dy. unfold Py.hypot_gt.
  destruct (limit <? 0)%Z eqn:El; [apply Z.ltb_lt in El; lia|].
  split.
  - intros Hin. destruct (limit * limit <? dx * dx + dy * dy)%Z eqn:E; [|reflexivity].
    apply Z.ltb_lt in E. lia.
  - intros Hfar Hend. destruct (limit * limit <? dx * dx + dy * dy)%Z eqn:E;
      [|apply Z.ltb_ge in E; lia].
    destruct (Demo.effects (DemoUI.anim d1)) as [|e rest] eqn:Ee; [congruence|].
    simpl. apply demo_close_then_paint; [congruence|]. rewrite Hout. exact Hend.
Qed.

Lemma demo_static_prog (d : Demo.Demo) (now : Q) (e : Demo.Effect) :
  Demo.anim_enabled d = false ->
  Demo.effect_prog d now e
  = Some (match Demo.e_reverse_start e with Some _ => 0 | None => 1 end, false).
Proof.
  intros Hoff. unfold Demo.effect_prog. rewrite Hoff.
  destruct (Demo.e_reverse_start e); reflexivity.
Qed.

Lemma demo_paint_loop_static (d : Demo.Demo) (now : Q) (es : list Demo.Effect) :
  Demo.anim_enabled d = false ->
  forall i,
    exists es' hits,
      Demo.paint_loop d now i es = Some (es', hits, false)
      /\ length es' = length es /\ length hits = length es
      /\ Demo.any_reversed es' = Demo.any_reversed es
      /\ (Demo.any_reversed es = false -> Forall (fun e => Demo.e_progress e = 1) es').
Proof.
  intros Hoff. induction es as [|e rest IH]; intros i; simpl.
  - exists [], []. repeat split. constructor.
  - rewrite (demo_static_prog d now e Hoff). simpl.
    destruct (IH (S i)) as (es' & hits & Hl & Hn & Hm & Hany & Hone). rewrite Hl. simpl.
    eexists _, _. split; [reflexivity|]. split; [simpl; congruence|].
    split; [simpl; congruence|]. unfold Demo.any_reversed in *. simpl.
    split; [rewrite Hany; reflexivity|].
    destruct (Demo.e_reverse_start e); simpl; [discriminate|].
    intros Hr. constructor; [reflexivity | apply Hone, Hr].
Qed.

(** X17. Switching the demo's animation off finishes what is on screen
    at the next paint, at whatever time: the paint succeeds and leaves the
    timer stopped; when no effect is reversed it keeps every effect, each
    at progress exactly 1 with a hit region, and the central circle; when
    some effect is reversed, that is while the options close, it clears
    effects, hit regions and the central circle at once. *)
Theorem demo_animation_off_finishes (d : DemoUI.Widget) (now : Q) :
  let a := DemoUI.anim d in
  exists a',
    Demo.paintEvent now (DemoUI.anim (DemoUI._set_anim_enabled false d)) = Some a'
    /\ Demo.anim_timer_active a' = false
    /\ (Demo.any_reversed (Demo.effects a) = false ->
        length (Demo.effects a') = length (Demo.effects a)
        /\ Forall (fun e => Demo.e_progress e = 1) (Demo.effects a')
        /\ length (Demo._hit_regions a') = length (Demo.effects a)
        /\ Demo.center_circle a' = Demo.center_circle a)
    /\ (Demo.any_reversed (Demo.effects a) = true -> demo_cleared a').
Proof.
  intros a. unfold DemoUI._set_anim_enabled. simpl negb. cbv iota zeta.
  set (a1 := Demo.set_effects _ _).
  set (a2 := if Demo.anim_timer_active a1 then Demo.set_anim_timer false a1 else a1).
  assert (Ha2 : Demo.anim_enabled a2 = false
                /\ Demo.effects a2 = map (Demo.set_progress 1) (Demo.effects a)
                /\ Demo.anim_timer_active a2 = false
                /\ Demo.center_circle a2 = Demo.center_circle a).
  { subst a2 a1. simpl. fold a. destruct (Demo.anim_timer_active a) eqn:Et; simpl; auto. }
  destruct Ha2 as (Hoff & Hes & Ht & Hcc).
  change (DemoUI.anim (DemoUI.set_anim a2 d)) with a2.
  destruct (demo_paint_loop_static a2 now (Demo.effects a2) Hoff 0%nat)
    as (es' & hits & Hl & Hn & Hm & Hany & Hone).
  assert (Hrev : Demo.any_reversed (Demo.effects a2) = Demo.any_reversed (Demo.effects a)).
  { rewrite Hes. unfold Demo.any_reversed. clear. induction (Demo.effects a) as [|e r IH];
      simpl; [reflexivity|]. rewrite IH. reflexivity. }
  unfold Demo.paintEvent. rewrite Hl. simpl. rewrite Ht. simpl. rewrite Hany, Hrev.
  rewrite Hes, length_map in Hn, Hm.
  destruct (Demo.any_reversed (Demo.effects a)) eqn:Ea; eexists;
    (split; [reflexivity|]); simpl.
  - split; [exact Ht|]. split; [discriminate|]. intros _. repeat split. exact Ht.
  - split; [exact Ht|]. split; [|discriminate]. intros _.
    split; [exact Hn|]. split; [apply Hone; exact Hrev|].
    split; [exact Hm | exact Hcc].
Qed.

End DemoComposition.

(** ** The tag options *)

Section TagOptions.

Import Thumb.

Lemma slice_to_take {A : Type} (l : list A) (k : Z) : exists n, slice_to l k = take n l.
Proof. unfold slice_to. destruct (0 <=? k)%Z; eauto. Qed.

Lemma slice_to_length {A : Type} (l : list A) (k : Z) :
  (0 <= k)%Z -> (Z.of_nat (length (slice_to l k)) <= k)%Z.
Proof.
  intros Hk. unfold slice_to. destruct (0 <=? k)%Z eqn:E; [|apply Z.leb_gt in E; lia].
  rewrite length_take. lia.
Qed.

Lemma slice_to_all {A : Type} (l : list A) (k : Z) :
  (Z.of_nat (length l) <= k)%Z -> slice_to l k = l.
Proof.
  intros Hk. unfold slice_to. destruct (0 <=? k)%Z eqn:E; [|apply Z.leb_gt in E; lia].
  apply take_ge. lia.
Qed.

Lemma tag_state_ok_add (apply : bool) (existing : gset Z) (objs : list (Z * Tag))
      (seen : gset Z) (tid : Z) (t : Tag) :
  tag_state_ok apply existing (objs, seen) ->
  tid ∉ seen -> (apply = false -> id t ∉ existing) ->
  tag_state_ok apply existing (objs ++ [(tid, t)], {[tid]} ∪ seen).
Proof.
  intros (Hnd & Hin & Hex) Hfresh Hnew. unfold tag_state_ok. simpl in *.
  rewrite map_app. simpl. split; [|split].
  - apply NoDup_app. split; [exact Hnd|]. split; [|apply NoDup_singleton].
    intros x Hx Hx'. apply list_elem_of_singleton in Hx'. subst x.
    apply Hfresh, Hin. apply list_elem_of_In, Hx.
  - intros x Hx. apply in_app_or in Hx. destruct Hx as [Hx | [<- | []]]; set_solver.
  - intros Ha. apply Forall_app. split; [apply Hex, Ha|]. constructor; [|constructor].
    apply Hnew, Ha.
Qed.

Lemma hidden_false (apply : bool) (existing : gset Z) (t : Tag) :
  negb apply && bool_decide (id t ∈ existing) = false ->
  apply = false -> id t ∉ existing.
Proof.
  intros Hh ->. simpl in Hh. apply bool_decide_eq_false in Hh. exact Hh.
Qed.

Lemma recent_loop_ok (env : Env) (apply : bool) (existing : gset Z) (recent : list Z) :
  forall objs seen,
    tag_state_ok apply existing (objs, seen) ->
    tag_state_ok apply existing (recent_loop env apply existing recent objs seen).
Proof.
  induction recent as [|tid rest IH]; intros objs seen Hok; simpl; [exact Hok|].
  destruct (bool_decide (tid ∈ seen)) eqn:Es; [apply IH, Hok|].
  apply bool_decide_eq_false in Es.
  destruct (get_tag env tid) as [t|]; [|apply IH, Hok].
  destruct (negb apply && bool_decide (id t ∈ existing)) eqn:Eh; [apply IH, Hok|].
  apply IH, tag_state_ok_add; [exact Hok | exact Es | apply hidden_false, Eh].
Qed.

Lemma fallback_loop_ok (apply : bool) (existing : gset Z) (limit : Z)
      (direct : list (option Tag)) :
  forall objs seen,
    tag_state_ok apply existing (objs, seen) ->
    tag_state_ok apply existing (fallback_loop apply existing limit direct objs seen).
Proof.
  induction direct as [|t rest IH]; intros objs seen Hok; simpl; [exact Hok|].
  destruct (limit <=? Z.of_nat (length objs))%Z; [exact Hok|].
  destruct t as [t|]; [|apply IH, Hok].
  destruct (bool_decide (id t ∈ seen)) eqn:Es; [apply IH, Hok|].
  apply bool_decide_eq_false in Es.
  destruct (negb apply && bool_decide (id t ∈ existing)) eqn:Eh; [apply IH, Hok|].
  apply IH, tag_state_ok_add; [exact Hok | exact Es | apply hidden_false, Eh].
Qed.

Lemma fallback_ok (env : Env) (apply : bool) (existing : gset Z) (limit : Z)
      (objs : list (Z * Tag)) (seen : gset Z) :
  tag_state_ok apply existing (objs, seen) ->
  tag_state_ok apply existing (fallback env apply existing limit objs seen).
Proof.
  intros Hok. unfold fallback. destruct (Z.of_nat (length objs) <? limit)%Z; [|exact Hok].
  destruct (search_tags env (limit * 2)); [exact Hok | |]; apply fallback_loop_ok, Hok.
Qed.

Lemma tag_objs_ok (env : Env) (apply : bool) (item_id limit : Z) :
  exists seen,
    tag_state_ok apply (existing_tag_ids env apply item_id)
                 (tag_objs env apply item_id limit, seen).
Proof.
  unfold tag_objs. cbv zeta.
  pose proof (recent_loop_ok env apply (existing_tag_ids env apply item_id)
                (get_recent_tags env limit) [] ∅) as Hr.
  destruct (recent_loop env apply (existing_tag_ids env apply item_id)
              (get_recent_tags env limit) [] ∅) as [objs1 seen1].
  pose proof (fallback_ok env apply (existing_tag_ids env apply item_id) limit objs1 seen1)
    as Hf.
  destruct (fallback env apply (existing_tag_ids env apply item_id) limit objs1 seen1)
    as [objs2 seen2].
  exists seen2. apply Hf, Hr. split; [constructor|]. split; [intros ? []|]. constructor.
Qed.

End TagOptions.

Section TagOptionFacts.

Import Thumb.

Lemma overlay_opts_tags (env : Env) (apply : bool) (item_id limit : Z) :
  map (fun o => (action_tag (opt_action o), opt_tag o)) (overlay_opts env apply item_id limit)
  = slice_to (tag_objs env apply item_id limit) limit.
Proof.
  unfold overlay_opts. cbv zeta. rewrite map_map.
  induction (slice_to (tag_objs env apply item_id limit) limit) as [|[tid t] l IH];
    simpl; [reflexivity|].
  rewrite IH. destruct apply; reflexivity.
Qed.

Lemma overlay_opts_Forall (env : Env) (apply : bool) (item_id limit : Z)
      (P : TagOption -> Prop) :
  (forall tid t, In (tid, t) (slice_to (tag_objs env apply item_id limit) limit) ->
                 P (mkTagOption (name t)
                                (if apply then AddMulti tid (if apply then selected env
                                                             else [item_id])
                                 else AddOne tid) t)) ->
  Forall P (overlay_opts env apply item_id limit).
Proof.
  intros HP. unfold overlay_opts. cbv zeta. apply Forall_map, Forall_forall.
  intros [tid t] Hin. apply HP. apply list_elem_of_In, Hin.
Qed.

Lemma In_take {A : Type} (n : nat) (l : list A) (a : A) : In a (take n l) -> In a l.
Proof.
  revert l. induction n as [|n IH]; intros [|b l]; simpl; try tauto.
  intros [->|Hin]; [left; reflexivity | right; apply IH, Hin].
Qed.

Lemma In_slice_to {A : Type} (l : list A) (k : Z) (a : A) : In a (slice_to l k) -> In a l.
Proof. destruct (slice_to_take l k) as [n ->]. apply In_take. Qed.

Lemma overlay_opts_single (env : Env) (item_id limit : Z) :
  Forall (fun o => (id (opt_tag o) ∉ existing_tag_ids env false item_id)
                   /\ opt_action o = AddOne (action_tag (opt_action o)))
         (overlay_opts env false item_id limit).
Proof.
  destruct (tag_objs_ok env false item_id limit) as (seen & _ & _ & Hex). simpl in *.
  apply overlay_opts_Forall. intros tid t Hin. simpl. split; [|reflexivity].
  apply In_slice_to in Hin. specialize (Hex eq_refl). rewrite Forall_forall in Hex.
  apply (Hex (tid, t)). apply list_elem_of_In, Hin.
Qed.

(** X18. The options [on_middle_click] builds never name a tag id twice:
    the ids held by the callbacks are pairwise distinct, whatever the
    recent list and the search return.  Each option is labelled with the
    name of the tag it carries.  Without bulk application every callback
    is a single addition, to the entry the thumbnail holds when it is
    called, and no option carries a tag the clicked entry already has;
    with bulk application every callback holds the selection as it was
    when the options were built. *)
Theorem tag_options_distinct (env : Env) (apply : bool) (item_id limit : Z) :
  let opts := overlay_opts env apply item_id limit in
  NoDup (map (fun o => action_tag (opt_action o)) opts)
  /\ Forall (fun o => opt_name o = name (opt_tag o)) opts
  /\ (apply = false ->
      Forall (fun o => (id (opt_tag o) ∉ existing_tag_ids env false item_id)
                       /\ opt_action o = AddOne (action_tag (opt_action o))) opts)
  /\ (apply = true ->
      Forall (fun o => opt_action o
                       = AddMulti (action_tag (opt_action o)) (selected env)) opts).
Proof.
  intros opts. subst opts.
  destruct (tag_objs_ok env apply item_id limit) as (seen & Hnd & _ & Hex). simpl in *.
  split; [|split; [|split]].
  - pose proof (overlay_opts_tags env apply item_id limit) as Ht.
    apply (f_equal (map fst)) in Ht. rewrite map_map in Ht. simpl in Ht. rewrite Ht.
    destruct (slice_to_take (tag_objs env apply item_id limit) limit) as [n ->].
    rewrite <- firstn_map. eapply sublist_NoDup; [exact Hnd | apply sublist_take].
  - apply overlay_opts_Forall. intros tid t _. reflexivity.
  - intros ->. apply overlay_opts_single.
  - intros ->. apply overlay_opts_Forall. intros tid t _. reflexivity.
Qed.

Lemma recent_loop_by_id (env : Env) (apply : bool) (existing : gset Z) (recent : list Z) :
  get_tag_by_id env ->
  forall objs seen,
    Forall (fun p => p.1 = id p.2) objs ->
    Forall (fun p => p.1 = id p.2) (recent_loop env apply existing recent objs seen).1.
Proof.
  intros Hid. induction recent as [|tid rest IH]; intros objs seen Hok; simpl; [exact Hok|].
  destruct (bool_decide (tid ∈ seen)); [apply IH, Hok|].
  destruct (get_tag env tid) as [t|] eqn:Et; [|apply IH, Hok].
  destruct (negb apply && bool_decide (id t ∈ existing)); [apply IH, Hok|].
  apply IH, Forall_app. split; [exact Hok|]. constructor; [|constructor].
  simpl. symmetry. apply Hid, Et.
Qed.

Lemma fallback_loop_by_id (apply : bool) (existing : gset Z) (limit : Z)
      (direct : list (option Tag)) :
  forall objs seen,
    Forall (fun p => p.1 = id p.2) objs ->
    Forall (fun p => p.1 = id p.2) (fallback_loop apply existing limit direct objs seen).1.
Proof.
  induction direct as [|t rest IH]; intros objs seen Hok; simpl; [exact Hok|].
  destruct (limit <=? Z.of_nat (length objs))%Z; [exact Hok|].
  destruct t as [t|]; [|apply IH, Hok].
  destruct (bool_decide (id t ∈ seen)); [apply IH, Hok|].
  destruct (negb apply && bool_decide (id t ∈ existing)); [apply IH, Hok|].
  apply IH, Forall_app. split; [exact Hok|]. constructor; [reflexivity | constructor].
Qed.

Lemma tag_objs_by_id (env : Env) (apply : bool) (item_id limit : Z) :
  get_tag_by_id env -> Forall (fun p => p.1 = id p.2) (tag_objs env apply item_id limit).
Proof.
  intros Hid. unfold tag_objs. cbv zeta.
  pose proof (recent_loop_by_id env apply (existing_tag_ids env apply item_id)
                (get_recent_tags env limit) Hid [] ∅ ltac:(constructor)) as Hr.
  destruct (recent_loop env apply (existing_tag_ids env apply item_id)
              (get_recent_tags env limit) [] ∅) as [objs1 seen1]. simpl in Hr.
  unfold fallback. destruct (Z.of_nat (length objs1) <? limit)%Z; [|exact Hr].
  destruct (search_tags env (limit * 2)); [exact Hr | |]; apply fallback_loop_by_id, Hr.
Qed.

(** X19. When [lib.get_tag] answers with the tag that was asked for,
    every option adds the tag it shows: the id held by its callback is the
    id of the tag whose name labels it; so without bulk application no
    callback adds a tag the clicked entry already has. *)
Theorem tag_option_adds_its_tag (env : Env) (apply : bool) (item_id limit : Z) :
  get_tag_by_id env ->
  Forall (fun o => action_tag (opt_action o) = id (opt_tag o)
                   /\ (apply = false ->
                       action_tag (opt_action o) ∉ existing_tag_ids env false item_id))
         (overlay_opts env apply item_id limit).
Proof.
  intros Hid. pose proof (tag_objs_by_id env apply item_id limit Hid) as Hby.
  rewrite Forall_forall in Hby.
  assert (Heq : Forall (fun o => action_tag (opt_action o) = id (opt_tag o))
                       (overlay_opts env apply item_id limit)).
  { apply overlay_opts_Forall. intros tid t Hin. apply In_slice_to in Hin.
    destruct apply; simpl; apply (Hby (tid, t)), list_elem_of_In, Hin. }
  rewrite Forall_forall in Heq. apply Forall_forall. intros o Ho.
  split; [apply Heq, Ho|]. intros Ha. rewrite (Heq o Ho). subst apply.
  pose proof (overlay_opts_single env item_id limit) as Hex.
  rewrite Forall_forall in Hex. apply (Hex o Ho).
Qed.

End TagOptionFacts.

Section TagOptionOrder.

Import Thumb.

Lemma recent_loop_extends (env : Env) (apply : bool) (existing : gset Z) (recent : list Z) :
  forall objs seen,
    exists extra,
      (recent_loop env apply existing recent objs seen).1 = objs ++ extra
      /\ Forall (fun p => In p.1 recent /\ get_tag env p.1 = Some p.2) extra.
Proof.
  induction recent as [|tid rest IH]; intros objs seen; simpl.
  - exists []. rewrite app_nil_r. split; [reflexivity | constructor].
  - assert (Hskip : exists extra,
               (recent_loop env apply existing rest objs seen).1 = objs ++ extra
               /\ Forall (fun p => (tid = p.1 \/ In p.1 rest) /\ get_tag env p.1 = Some p.2)
                         extra).
    { destruct (IH objs seen) as (extra & He & Hf). exists extra. split; [exact He|].
      eapply Forall_impl; [exact Hf|]. intros p [Hp Hg]. auto. }
    destruct (bool_decide (tid ∈ seen)); [exact Hskip|].
    destruct (get_tag env tid) as [t|] eqn:Et; [|exact Hskip].
    destruct (negb apply && bool_decide (id t ∈ existing)); [exact Hskip|].
    destruct (IH (objs ++ [(tid, t)]) ({[tid]} ∪ seen)) as (extra & He & Hf).
    exists ((tid, t) :: extra). rewrite He, <- app_assoc. split; [reflexivity|].
    constructor; [simpl; auto|].
    eapply Forall_impl; [exact Hf|]. intros p [Hp Hg]. auto.
Qed.

Lemma fallback_loop_extends (apply : bool) (existing : gset Z) (limit : Z)
      (direct : list (option Tag)) :
  forall objs seen,
    exists extra,
      (fallback_loop apply existing limit direct objs seen).1 = objs ++ extra
      /\ Forall (fun p => In (Some p.2) direct /\ p.1 = id p.2) extra
      /\ (Z.of_nat (length (objs ++ extra)) <= Z.max limit (Z.of_nat (length objs)))%Z.
Proof.
  induction direct as [|t rest IH]; intros objs seen; simpl.
  - exists []. rewrite app_nil_r. split; [reflexivity|]. split; [constructor | lia].
  - destruct (limit <=? Z.of_nat (length objs))%Z eqn:El.
    { exists []. rewrite app_nil_r. split; [reflexivity|]. split; [constructor | lia]. }
    apply Z.leb_gt in El.
    assert (Hskip : exists extra,
               (fallback_loop apply existing limit rest objs seen).1 = objs ++ extra
               /\ Forall (fun p => (t = Some p.2 \/ In (Some p.2) rest) /\ p.1 = id p.2) extra
               /\ (Z.of_nat (length (objs ++ extra))
                   <= Z.max limit (Z.of_nat (length objs)))%Z).
    { destruct (IH objs seen) as (extra & He & Hf & Hl). exists extra.
      split; [exact He|]. split; [|exact Hl].
      eapply Forall_impl; [exact Hf|]. intros p [Hp Hg]. auto. }
    destruct t as [t|]; [|exact Hskip].
    destruct (bool_decide (id t ∈ seen)); [exact Hskip|].
    destruct (negb apply && bool_decide (id t ∈ existing)); [exact Hskip|].
    destruct (IH (objs ++ [(id t, t)]) ({[id t]} ∪ seen)) as (extra & He & Hf & Hl).
    exists ((id t, t) :: extra). rewrite He, <- app_assoc. split; [reflexivity|].
    split.
    + constructor; [simpl; auto|].
      eapply Forall_impl; [exact Hf|]. intros p [Hp Hg]. auto.
    + rewrite <- app_assoc in Hl. simpl in Hl. rewrite length_app in Hl. simpl in Hl.
      rewrite !length_app in *. simpl in *. lia.
Qed.

(** The tags added after the recent ones. *)
Lemma tag_objs_split (env : Env) (apply : bool) (item_id limit : Z) :
  exists extra,
    tag_objs env apply item_id limit = recent_part env apply item_id limit ++ extra
    /\ ((limit <= Z.of_nat (length (recent_part env apply item_id limit)))%Z -> extra = [])
    /\ Forall (fun p => In (Some p.2) (direct_of (search_tags env (limit * 2)))
                        /\ p.1 = id p.2) extra
    /\ (Z.of_nat (length (tag_objs env apply item_id limit))
        <= Z.max limit (Z.of_nat (length (recent_part env apply item_id limit))))%Z.
Proof.
  unfold tag_objs, recent_part. cbv zeta.
  destruct (recent_loop env apply (existing_tag_ids env apply item_id)
              (get_recent_tags env limit) [] ∅) as [objs1 seen1]. simpl.
  unfold fallback.
  assert (Hnone : exists extra : list (Z * Tag),
             objs1 = objs1 ++ extra
             /\ ((limit <= Z.of_nat (length objs1))%Z -> extra = [])
             /\ Forall (fun p => In (Some p.2) (direct_of (search_tags env (limit * 2)))
                                 /\ p.1 = id p.2) extra
             /\ (Z.of_nat (length objs1) <= Z.max limit (Z.of_nat (length objs1)))%Z).
  { exists []. rewrite app_nil_r. split; [reflexivity|]. split; [reflexivity|].
    split; [constructor | lia]. }
  destruct (Z.of_nat (length objs1) <? limit)%Z eqn:El; [|exact Hnone].
  apply Z.ltb_lt in El.
  destruct (search_tags env (limit * 2)) as [| |pages] eqn:Es; [exact Hnone| |].
  - destruct (fallback_loop_extends apply (existing_tag_ids env apply item_id) limit
                (direct_of SearchOther) objs1 seen1) as (extra & He & Hf & Hl).
    exists extra. rewrite He. split; [reflexivity|]. split; [lia|].
    split; [exact Hf | exact Hl].
  - destruct (fallback_loop_extends apply (existing_tag_ids env apply item_id) limit
                (direct_of (SearchList pages)) objs1 seen1) as (extra & He & Hf & Hl).
    exists extra. rewrite He. split; [reflexivity|]. split; [lia|].
    split; [exact Hf | exact Hl].
Qed.

(** X20. For a limit that is not negative, [on_middle_click] builds at
    most [limit] options.  The search never fills [tag_objs] beyond the
    limit, so the final slice can only cut recent tags: when at most
    [limit] recent tags pass the filters, every collected tag becomes an
    option, in the order collected. *)
Theorem tag_options_within_limit (env : Env) (apply : bool) (item_id limit : Z) :
  (0 <= limit)%Z ->
  let opts := overlay_opts env apply item_id limit in
  (Z.of_nat (length opts) <= limit)%Z
  /\ ((Z.of_nat (length (recent_part env apply item_id limit)) <= limit)%Z ->
      map (fun o => (action_tag (opt_action o), opt_tag o)) opts
      = tag_objs env apply item_id limit).
Proof.
  intros Hlim opts. subst opts. split.
  - unfold overlay_opts. cbv zeta. rewrite length_map. apply slice_to_length, Hlim.
  - intros Hrec. rewrite overlay_opts_tags. apply slice_to_all.
    destruct (tag_objs_split env apply item_id limit) as (_ & _ & _ & _ & Hl). lia.
Qed.

(** X21. Recent tags come first: [tag_objs] is the list of the recent
    tags that pass the filters, each recent id with the tag [lib.get_tag]
    returns for it, followed by tags from the first page of the search
    result, each under its own id; whatever the search returns, it
    displaces no recent tag, and it contributes nothing when the recent
    tags already reach the limit. *)
Theorem recent_tags_come_first (env : Env) (apply : bool) (item_id limit : Z) :
  exists extra,
    tag_objs env apply item_id limit = recent_part env apply item_id limit ++ extra
    /\ Forall (fun p => In p.1 (get_recent_tags env limit) /\ get_tag env p.1 = Some p.2)
              (recent_part env apply item_id limit)
    /\ Forall (fun p => In (Some p.2) (direct_of (search_tags env (limit * 2)))
                        /\ p.1 = id p.2) extra
    /\ ((limit <= Z.of_nat (length (recent_part env apply item_id limit)))%Z ->
        extra = []).
Proof.
  destruct (tag_objs_split env apply item_id limit) as (extra & He & Hfull & Hf & _).
  exists extra. split; [exact He|]. split; [|split; [exact Hf | exact Hfull]].
  unfold recent_part.
  destruct (recent_loop_extends env apply (existing_tag_ids env apply item_id)
              (get_recent_tags env limit) [] ∅) as (ex & Hex & Hfr).
  rewrite Hex. exact Hfr.
Qed.

End TagOptionOrder.

Section Previews.

Import Thumb.

Lemma settings_recent_loop_bulk (env : Env) (faults : Settings.Faults)
      (existing : gset Z) (recent : list Z) :
  (forall tid, Settings.tag_raises faults tid = false) ->
  forall objs seen,
    Settings.recent_loop env faults recent objs seen
    = Thumb.recent_loop env true existing recent objs seen.
Proof.
  intros Hcalm. induction recent as [|tid rest IH]; intros objs seen; simpl; [reflexivity|].
  destruct (bool_decide (tid ∈ seen)); [apply IH|].
  rewrite Hcalm. destruct (get_tag env tid); apply IH.
Qed.

Lemma settings_fallback_loop_bulk (existing : gset Z) (lim : Z) (direct : list (option Tag)) :
  forall objs seen,
    Settings.fallback_loop lim direct objs seen
    = Thumb.fallback_loop true existing lim direct objs seen.
Proof.
  induction direct as [|t rest IH]; intros objs seen; simpl; [reflexivity|].
  destruct (lim <=? Z.of_nat (length objs))%Z; [reflexivity|].
  destruct t as [t|]; [|apply IH].
  destruct (bool_decide (id t ∈ seen)); apply IH.
Qed.

Lemma settings_tag_objs_bulk (env : Env) (faults : Settings.Faults) (lim item_id : Z) :
  Settings.recent_raises faults lim = false ->
  (forall tid, Settings.tag_raises faults tid = false) ->
  Settings.tag_objs env faults lim = Thumb.tag_objs env true item_id lim.
Proof.
  intros Hrec Hcalm. unfold Settings.tag_objs, Settings.recent_ids, Thumb.tag_objs.
  cbv zeta. rewrite Hrec.
  rewrite (settings_recent_loop_bulk env faults (existing_tag_ids env true item_id) _ Hcalm).
  destruct (Thumb.recent_loop env true (existing_tag_ids env true item_id)
              (get_recent_tags env lim) [] ∅) as [objs1 seen1].
  unfold Settings.fallback, Thumb.fallback.
  destruct (Z.of_nat (length objs1) <? lim)%Z; [|reflexivity].
  destruct (search_tags env (lim * 2)); [reflexivity | |];
    rewrite (settings_fallback_loop_bulk (existing_tag_ids env true item_id));
    reflexivity.
Qed.

(** The recent loop only adds to the tags it was given. *)
Lemma settings_recent_loop_extends (env : Env) (faults : Settings.Faults)
      (recent : list Z) :
  forall objs seen,
    exists extra, (Settings.recent_loop env faults recent objs seen).1 = objs ++ extra.
Proof.
  induction recent as [|tid rest IH]; intros objs seen; simpl.
  - exists []. rewrite app_nil_r. reflexivity.
  - destruct (bool_decide (tid ∈ seen)); [apply IH|].
    destruct (Settings.tag_raises faults tid).
    { exists []. rewrite app_nil_r. reflexivity. }
    destruct (get_tag env tid) as [t|]; [|apply IH].
    destruct (IH (objs ++ [(tid, t)]) ({[tid]} ∪ seen)) as (extra & He).
    exists ((tid, t) :: extra). rewrite He, <- app_assoc. reflexivity.
Qed.

(** A raising [get_tag] cuts the recent tags short: what the loop
    collects is a prefix of what it collects when no call raises. *)
Lemma settings_recent_loop_prefix (env : Env) (faults : Settings.Faults)
      (recent : list Z) :
  forall objs seen,
    exists rest,
      (Settings.recent_loop env Settings.no_faults recent objs seen).1
      = (Settings.recent_loop env faults recent objs seen).1 ++ rest.
Proof.
  induction recent as [|tid rest IH]; intros objs seen; simpl.
  - exists []. rewrite app_nil_r. reflexivity.
  - destruct (bool_decide (tid ∈ seen)); [apply IH|].
    destruct (Settings.tag_raises faults tid).
    + simpl. destruct (get_tag env tid) as [t|].
      * destruct (settings_recent_loop_extends env Settings.no_faults rest
                    (objs ++ [(tid, t)]) ({[tid]} ∪ seen)) as (extra & He).
        exists ((tid, t) :: extra). rewrite He, <- app_assoc. reflexivity.
      * apply settings_recent_loop_extends.
    + destruct (get_tag env tid) as [t|]; apply IH.
Qed.

(** X22. Where neither [get_recent_tags] nor [get_tag] raises, the
    previews of the settings dialog show what a bulk middle click shows:
    for the same library, driver and limit, the tags collected by
    [_on_preview] and [_on_preview_image_click] are those
    [on_middle_click] collects with bulk application, for any thumbnail,
    and the options carry the same labels and tags in the same order.
    Where [get_recent_tags] raises, a preview takes no recent tag and
    collects from the search alone; where [get_tag] raises, the recent
    tags of the preview are cut short: they are a prefix of those it
    collects when no call raises.  Every option built from a tag carries
    the three calls that add the tag to the sampled entry.  Without a
    sampled entry, or without a driver, [_on_preview] offers placeholder
    labels, at most [lim] of them for a limit that is not negative, with
    callbacks that make no call; [_on_preview_image_click] builds no
    options at all without an entry, and an empty list of options
    without a driver. *)
Theorem preview_matches_bulk_click (env : Env) (faults : Settings.Faults)
        (lim entry_id item_id : Z) :
  (Settings.recent_raises faults lim = false ->
   (forall tid, Settings.tag_raises faults tid = false) ->
   Settings.tag_objs env faults lim = Thumb.tag_objs env true item_id lim
   /\ map (fun o => (o.1.1, o.2))
          (Settings.preview_opts env faults true (Some entry_id) lim)
      = map (fun o => (opt_name o, Some (opt_tag o))) (overlay_opts env true item_id lim)
   /\ Settings.click_opts env faults true (Some entry_id) lim
      = Some (Settings.preview_opts env faults true (Some entry_id) lim))
  /\ (Settings.recent_raises faults lim = true ->
      Settings.tag_objs env faults lim = (Settings.fallback env lim [] ∅).1)
  /\ (forall recent objs seen,
        exists rest,
          (Settings.recent_loop env Settings.no_faults recent objs seen).1
          = (Settings.recent_loop env faults recent objs seen).1 ++ rest)
  /\ Forall (fun o => exists tid tag,
                 o = (name tag, [UiAddTags entry_id tid; LibAddTagsToEntries entry_id tid;
                                 RecordTagUsage tid], Some tag))
            (Settings.preview_opts env faults true (Some entry_id) lim)
  /\ (forall has_driver,
        Settings.preview_opts env faults has_driver None lim
        = Settings.preview_opts env faults false (Some entry_id) lim
        /\ Forall (fun o => In o.1.1 Settings.sample_labels /\ o.1.2 = [] /\ o.2 = None)
                  (Settings.preview_opts env faults has_driver None lim)
        /\ ((0 <= lim)%Z ->
            (Z.of_nat (length (Settings.preview_opts env faults has_driver None lim))
             <= lim)%Z))
  /\ (forall has_driver, Settings.click_opts env faults has_driver None lim = None)
  /\ Settings.click_opts env faults false (Some entry_id) lim = Some [].
Proof.
  split; [|split; [|split; [|split; [|split; [|split]]]]].
  - intros Hrec Hcalm.
    pose proof (settings_tag_objs_bulk env faults lim item_id Hrec Hcalm) as Heq.
    split; [exact Heq|]. split; [|reflexivity].
    unfold Settings.preview_opts, Settings.tag_opts, overlay_opts. cbv zeta.
    rewrite Heq, !map_map. apply map_ext. intros [tid t]. reflexivity.
  - intros Hrec. unfold Settings.tag_objs, Settings.recent_ids. rewrite Hrec. reflexivity.
  - apply settings_recent_loop_prefix.
  - unfold Settings.preview_opts, Settings.tag_opts. apply Forall_map, Forall_forall.
    intros [tid t] _. exists tid, t. reflexivity.
  - intros has_driver. split; [reflexivity|]. split.
    + unfold Settings.preview_opts. apply Forall_map, Forall_forall. intros lbl Hin.
      simpl. split; [|split; reflexivity].
      apply list_elem_of_In in Hin. apply In_slice_to in Hin. exact Hin.
    + intros Hlim. unfold Settings.preview_opts. rewrite length_map.
      apply slice_to_length, Hlim.
  - reflexivity.
  - reflexivity.
Qed.

(** X23. Adding a tag to one entry and adding it in bulk to that entry
    alone make the same calls in the same order, but for the origin
    passed with a badge update (the entry against none); the first three
    of them are the calls of a preview callback.  A thumbnail without an
    item ([item_id] -1) and a bulk addition without targets make no call
    at all. *)
Theorem single_add_is_bulk_add_of_one (fav arch : Z) (env : Env) (item_id tag_id : Z) :
  item_id <> (-1)%Z ->
  _add_tag_and_record fav arch env (Some item_id) tag_id
  = map (with_origin (Some item_id))
        (_add_tag_and_record_multi fav arch env tag_id [item_id])
  /\ take 3 (_add_tag_and_record fav arch env (Some item_id) tag_id)
     = Settings.make_cb tag_id item_id
  /\ _add_tag_and_record fav arch env (Some (-1)%Z) tag_id = []
  /\ _add_tag_and_record fav arch env None tag_id = []
  /\ _add_tag_and_record_multi fav arch env tag_id [] = [].
Proof.
  intros Hid. unfold _add_tag_and_record, _add_tag_and_record_multi.
  destruct (item_id =? -1)%Z eqn:E; [apply Z.eqb_eq in E; congruence|].
  split; [|repeat split].
  simpl. rewrite orb_false_r. unfold badge_calls.
  destruct (bool_decide (item_id ∈ selected env)); simpl;
    destruct ((tag_id =? fav)%Z || (tag_id =? arch)%Z); reflexivity.
Qed.

End Previews.

(** ** Invariants of the demo's event loop *)

Section DemoInvariants.

Context `{Libm}.

Lemma demo_paint_loop_indices (d : Demo.Demo) (now : Q) (es : list Demo.Effect) :
  forall i es' hits r,
    Demo.paint_loop d now i es = Some (es', hits, r) ->
    length es' = length es /\ map snd hits = seq i (length es).
Proof.
  induction es as [|e rest IH]; intros i es' hits r; simpl.
  - intros [= <- <- <-]. split; reflexivity.
  - destruct (Demo.effect_prog d now e) as [[p b]|]; simpl; [|discriminate].
    destruct (Demo.paint_loop d now (S i) rest) as [[[es2 h2] r2]|] eqn:Hl; simpl;
      [|discriminate].
    intros [= <- <- <-]. destruct (IH (S i) es2 h2 r2 Hl) as [Hn Hs].
    split; simpl; [rewrite Hn | rewrite Hs]; reflexivity.
Qed.

Lemma clear_state_consistent (n : nat) (a : Demo.Demo) :
  anim_consistent n (DemoUI.clear_state a).
Proof.
  unfold anim_consistent, DemoUI.clear_state. simpl.
  split; [congruence|]. split; [left; reflexivity | constructor].
Qed.

Lemma close_options_consistent (n : nat) (now : Q) (a : Demo.Demo) :
  anim_consistent n a -> anim_consistent n (DemoUI.close_options now a).
Proof.
  intros (Hc & Hn & Hh). unfold DemoUI.close_options.
  destruct (Demo.anim_enabled a) eqn:Hen; [|apply clear_state_consistent].
  unfold Demo._start_reverse_close. rewrite Hen. cbv zeta. simpl negb. cbv iota.
  assert (Hgen : forall b : bool,
             anim_consistent n
               (if b
                then Demo.set_anim_timer true
                       (Demo.set_effects
                          (map (fun e => Demo.set_reverse now (Demo.e_progress e) e)
                               (Demo.effects a)) a)
                else Demo.set_effects
                       (map (fun e => Demo.set_reverse now (Demo.e_progress e) e)
                            (Demo.effects a)) a)).
  { intros b. unfold anim_consistent.
    destruct b; simpl; (split; [|split; [|exact Hh]]).
    - intros Hne. apply Hc. intros Hnil. rewrite Hnil in Hne. apply Hne. reflexivity.
    - rewrite length_map. destruct Hn as [-> | Hn]; [left; reflexivity | right; exact Hn].
    - intros Hne. apply Hc. intros Hnil. rewrite Hnil in Hne. apply Hne. reflexivity.
    - rewrite length_map. destruct Hn as [-> | Hn]; [left; reflexivity | right; exact Hn]. }
  apply Hgen.
Qed.

Lemma seq_lt (n : nat) (hits : list (QRect * nat)) :
  map snd hits = seq 0 n -> Forall (fun h => (h.2 < n)%nat) hits.
Proof.
  intros Hs. apply Forall_forall. intros h Hin.
  assert (Hi : In h.2 (seq 0 n)).
  { rewrite <- Hs. apply in_map. apply list_elem_of_In, Hin. }
  apply in_seq in Hi. lia.
Qed.

Lemma paint_consistent (n : nat) (now : Q) (a : Demo.Demo) :
  anim_consistent n a ->
  exists a', Demo.paintEvent now a = Some a' /\ anim_consistent n a'.
Proof.
  intros (Hc & Hn & _). unfold Demo.paintEvent.
  destruct (demo_paint_loop_total a now (Demo.effects a) 0) as [[[es' hits] r] Hl].
  rewrite Hl. simpl.
  destruct (demo_paint_loop_indices a now (Demo.effects a) 0 es' hits r Hl) as [Hlen Hs].
  assert (Hkeep : forall b : bool,
             anim_consistent n
               (if b
                then Demo.set_anim_timer false
                       (Demo.set_hit_regions hits (Demo.set_effects es' a))
                else Demo.set_hit_regions hits (Demo.set_effects es' a))).
  { intros b. unfold anim_consistent.
    assert (Hes : es' = [] \/ length es' = n).
    { destruct Hn as [Hnil | Hn]; [left | right; congruence].
      rewrite Hnil in Hlen. destruct es'; [reflexivity | discriminate]. }
    assert (Hhits : Forall (fun h => (h.2 < n)%nat) hits).
    { destruct Hn as [Hnil | Hn].
      - rewrite Hnil in Hs. simpl in Hs. destruct hits; [constructor | discriminate].
      - rewrite Hn in Hs. apply seq_lt, Hs. }
    destruct b; simpl; (split; [|split; [exact Hes | exact Hhits]]);
      intros Hne; apply Hc; intros Hnil; rewrite Hnil in Hlen;
      destruct es'; try discriminate; apply Hne; reflexivity. }
  match goal with
  | |- context [if ?c then Demo.set_anim_timer false ?x else ?y] => specialize (Hkeep c)
  end.
  match goal with
  | |- exists a', (if ?c then _ else _) = _ /\ _ => destruct c
  end.
  - eexists. split; [reflexivity|].
    unfold anim_consistent. simpl. split; [congruence|]. split; [left; reflexivity|].
    constructor.
  - eexists. split; [reflexivity | exact Hkeep].
Qed.

Lemma press_consistent (b : MouseButton) (fx fy : Q) (clock : nat -> Q)
      (choice : option nat) (d : DemoUI.Widget) :
  demo_consistent d ->
  demo_consistent (DemoUI.mousePressEvent b fx fy clock choice d)
  /\ DemoUI.options (DemoUI.mousePressEvent b fx fy clock choice d) = DemoUI.options d.
Proof.
  intros Hd. destruct b; try (split; [exact Hd | reflexivity]).
  destruct (DemoUI.use_native_menu d) eqn:Hn.
  - unfold DemoUI.mousePressEvent. rewrite Hn. cbv zeta.
    destruct choice as [i|]; [|split; [exact Hd | reflexivity]].
    unfold DemoUI._on_native_action. cbv zeta.
    destruct (DemoUI.options d !! i); simpl;
      (split; [apply clear_state_consistent | reflexivity]).
  - split; [|unfold DemoUI.mousePressEvent; rewrite Hn; reflexivity].
    unfold demo_consistent.
    assert (Ho : DemoUI.options (DemoUI.mousePressEvent MiddleButton fx fy clock choice d)
                 = DemoUI.options d)
      by (unfold DemoUI.mousePressEvent; rewrite Hn; reflexivity).
    rewrite Ho, (demo_press_state d fx fy clock choice Hn).
    set (es := DemoUI.build_effects _ clock 0 (DemoUI.options d) _).
    assert (Hlen : length es = length (DemoUI.options d))
      by (apply demo_build_effects_length, angles_enough).
    destruct (Demo.anim_enabled (DemoUI.anim d)); unfold anim_consistent; simpl;
      (split; [discriminate|]); (split; [right|constructor]);
      rewrite ?length_map; exact Hlen.
Qed.

Lemma release_consistent (b : MouseButton) (fx fy now : Q) (d : DemoUI.Widget) :
  demo_consistent d ->
  demo_consistent (DemoUI.mouseReleaseEvent b fx fy now d)
  /\ DemoUI.options (DemoUI.mouseReleaseEvent b fx fy now d) = DemoUI.options d.
Proof.
  intros Hd. destruct b; try (split; [exact Hd | reflexivity]).
  unfold DemoUI.mouseReleaseEvent. cbv zeta.
  set (d0 := match find_hit _ _ _ with Some idx => _ | None => d end).
  assert (Hd0 : DemoUI.anim d0 = DemoUI.anim d /\ DemoUI.options d0 = DemoUI.options d).
  { subst d0. destruct (find_hit _ _ _) as [idx|]; [|split; reflexivity].
    destruct (DemoUI.options d !! idx); split; reflexivity. }
  destruct Hd0 as [Ha Ho]. unfold demo_consistent. simpl. rewrite Ha, Ho.
  split; [apply close_options_consistent, Hd | reflexivity].
Qed.

Lemma move_consistent (fx fy now : Q) (d : DemoUI.Widget) :
  demo_consistent d ->
  demo_consistent (DemoUI.mouseMoveEvent fx fy now d)
  /\ DemoUI.options (DemoUI.mouseMoveEvent fx fy now d) = DemoUI.options d.
Proof.
  intros Hd. unfold DemoUI.mouseMoveEvent.
  destruct (DemoUI.auto_close_enabled d); [|split; [exact Hd | reflexivity]].
  destruct (Demo.center_circle (DemoUI.anim d)) as [[c r]|];
    [|split; [exact Hd | reflexivity]].
  cbv zeta. destruct (Py.hypot_gt _ _ _); [|split; [exact Hd | reflexivity]].
  destruct (Demo.effects (DemoUI.anim d)) eqn:Ee; [split; [exact Hd | reflexivity]|].
  split; [|reflexivity]. unfold demo_consistent. simpl.
  apply close_options_consistent, Hd.
Qed.

Lemma set_anim_enabled_consistent (enabled : bool) (d : DemoUI.Widget) :
  demo_consistent d ->
  demo_consistent (DemoUI._set_anim_enabled enabled d)
  /\ DemoUI.options (DemoUI._set_anim_enabled enabled d) = DemoUI.options d.
Proof.
  intros (Hc & Hn & Hh). unfold DemoUI._set_anim_enabled. cbv zeta.
  destruct enabled; simpl.
  - destruct (Demo.effects (DemoUI.anim d)) eqn:Ee; simpl.
    + split; [|reflexivity]. unfold demo_consistent, anim_consistent. simpl.
      rewrite Ee. split; [congruence|]. split; [left; reflexivity | exact Hh].
    + split; [|reflexivity]. unfold demo_consistent, anim_consistent.
      destruct (Demo.anim_timer_active (DemoUI.anim d)); simpl; rewrite Ee;
        (split; [intros _; apply Hc; discriminate|]); (split; [exact Hn | exact Hh]).
  - split; [|destruct (Demo.anim_timer_active (DemoUI.anim d)); reflexivity].
    unfold demo_consistent, anim_consistent.
    destruct (Demo.anim_timer_active (DemoUI.anim d)); simpl;
      (split; [intros Hne; apply Hc; intros Hnil; rewrite Hnil in Hne; apply Hne;
               reflexivity|]);
      (split; [rewrite length_map; destruct Hn as [-> | Hn];
               [left; reflexivity | right; exact Hn] | exact Hh]).
Qed.

Lemma tick_consistent (d : DemoUI.Widget) :
  demo_consistent d ->
  demo_consistent (DemoUI._on_anim_tick d)
  /\ DemoUI.options (DemoUI._on_anim_tick d) = DemoUI.options d.
Proof.
  intros Hd. unfold DemoUI._on_anim_tick.
  destruct (Demo.effects (DemoUI.anim d)) eqn:Ee; [|split; [exact Hd | reflexivity]].
  destruct (Demo.anim_timer_active (DemoUI.anim d)); [|split; [exact Hd | reflexivity]].
  split; [|reflexivity]. destruct Hd as (Hc & Hn & Hh).
  unfold demo_consistent, anim_consistent. simpl. rewrite Ee.
  split; [congruence|]. split; [left; reflexivity | exact Hh].
Qed.

Lemma step_consistent (ev : DemoUI.Event) (d : DemoUI.Widget) :
  demo_consistent d ->
  exists d', DemoUI.step ev d = Some d' /\ demo_consistent d'
             /\ DemoUI.options d' = DemoUI.options d.
Proof.
  intros Hd. destruct ev; simpl.
  - eexists. split; [reflexivity | apply press_consistent, Hd].
  - eexists. split; [reflexivity | apply release_consistent, Hd].
  - eexists. split; [reflexivity | apply move_consistent, Hd].
  - eexists. split; [reflexivity | apply tick_consistent, Hd].
  - destruct (paint_consistent (length (DemoUI.options d)) now (DemoUI.anim d) Hd)
      as (a' & Hp & Ha'). rewrite Hp. simpl. eexists. split; [reflexivity|].
    split; [exact Ha' | reflexivity].
  - eexists. split; [reflexivity | apply set_anim_enabled_consistent, Hd].
  - eexists. split; [reflexivity|]. split; [exact Hd | reflexivity].
  - eexists. split; [reflexivity|]. split; [exact Hd | reflexivity].
  - eexists. split; [reflexivity|]. split; [exact Hd | reflexivity].
Qed.

(** X24. The demo's event loop keeps the widget consistent: from a
    consistent state (the state of a new widget is one) every sequence of
    presses, releases, moves, timer ticks, paints and settings changes
    runs without an error and ends in a state where effects exist only
    around a central circle, there is one effect per option or none, and
    the index of every hit region names an option.  So the range check
    of [mouseReleaseEvent] never rejects a hit: a left click inside some
    hit region always selects an option. *)
Theorem demo_stays_consistent (evs : list DemoUI.Event) (d : DemoUI.Widget) :
  demo_consistent d ->
  exists d',
    DemoUI.run evs d = Some d' /\ demo_consistent d'
    /\ DemoUI.options d' = DemoUI.options d
    /\ (forall p rect idx,
          In (rect, idx) (Demo._hit_regions (DemoUI.anim d')) ->
          contains rect p = true ->
          exists idx' opt,
            find_hit (length (DemoUI.options d')) p (Demo._hit_regions (DemoUI.anim d'))
            = Some idx'
            /\ DemoUI.options d' !! idx' = Some opt).
Proof.
  revert d. induction evs as [|ev rest IH]; intros d Hd; simpl.
  - exists d. split; [reflexivity|]. split; [exact Hd|]. split; [reflexivity|].
    intros p rect idx Hin Hc. destruct Hd as (_ & _ & Hh).
    apply list_elem_of_In, list_elem_of_lookup in Hin. destruct Hin as [k Hk].
    rewrite Forall_forall in Hh.
    assert (Hi : (idx < length (DemoUI.options d))%nat).
    { apply (Hh (rect, idx)). apply list_elem_of_lookup. exists k. exact Hk. }
    destruct (find_hit_earlier _ p _ k rect idx Hk Hc Hi) as (k' & r' & idx' & _ & _ & Hf).
    destruct (find_hit_Some _ _ _ _ Hf) as (_ & _ & _ & _ & Hlt & _).
    destruct (lookup_lt_is_Some_2 (DemoUI.options d) idx' Hlt) as [opt Ho].
    exists idx', opt. split; [exact Hf | exact Ho].
  - destruct (step_consistent ev d Hd) as (d1 & Hs & Hd1 & Ho1). rewrite Hs. simpl.
    destruct (IH d1 Hd1) as (d' & Hr & Hd' & Ho' & Hsel).
    exists d'. split; [exact Hr|]. split; [exact Hd'|]. split; [congruence | exact Hsel].
Qed.

Lemma native_step_idle (ev : DemoUI.Event) (d : DemoUI.Widget) :
  DemoUI.use_native_menu d = true -> demo_idle d ->
  match ev with DemoUI.EvSetNativeMenu false => False | _ => True end ->
  exists d',
    DemoUI.step ev d = Some d' /\ DemoUI.use_native_menu d' = true /\ demo_idle d'
    /\ exists new,
         DemoUI.printed d' = new ++ DemoUI.printed d
         /\ Forall (fun l => exists opt, l = DemoUI.PrintNativeSelected opt) new.
Proof.
  intros Hn [He Hh] Hev.
  assert (Hsame : exists new,
             DemoUI.printed d = new ++ DemoUI.printed d
             /\ Forall (fun l => exists opt, l = DemoUI.PrintNativeSelected opt) new)
    by (exists []; split; [reflexivity | constructor]).
  destruct ev; simpl.
  - eexists. split; [reflexivity|]. destruct button; simpl; try (repeat split; assumption).
    unfold DemoUI.mousePressEvent. rewrite Hn. cbv zeta.
    destruct choice as [i|]; [|repeat split; assumption].
    unfold DemoUI._on_native_action. cbv zeta.
    destruct (DemoUI.options d !! i) as [opt|]; simpl.
    + split; [exact Hn|]. split; [split; reflexivity|].
      exists [DemoUI.PrintNativeSelected opt]. split; [reflexivity|].
      constructor; [eauto | constructor].
    + split; [exact Hn|]. split; [split; reflexivity | exact Hsame].
  - eexists. split; [reflexivity|]. destruct button; simpl; try (repeat split; assumption).
    unfold DemoUI.mouseReleaseEvent. cbv zeta. rewrite Hh. simpl.
    split; [exact Hn|]. split; [|exact Hsame].
    unfold demo_idle, DemoUI.close_options, Demo._start_reverse_close,
           DemoUI.clear_state.
    destruct (Demo.anim_enabled (DemoUI.anim d)); simpl; [|split; reflexivity].
    rewrite He. simpl.
    destruct (Demo.anim_timer_active (DemoUI.anim d)); simpl;
      (split; [reflexivity | exact Hh]).
  - eexists. split; [reflexivity|]. unfold DemoUI.mouseMoveEvent.
    destruct (DemoUI.auto_close_enabled d); [|repeat split; assumption].
    destruct (Demo.center_circle (DemoUI.anim d)) as [[c r]|]; [|repeat split; assumption].
    cbv zeta. destruct (Py.hypot_gt _ _ _); [|repeat split; assumption].
    rewrite He. repeat split; assumption.
  - eexists. split; [reflexivity|]. unfold DemoUI._on_anim_tick. rewrite He.
    destruct (Demo.anim_timer_active (DemoUI.anim d)); simpl; repeat split; assumption.
  - unfold Demo.paintEvent. rewrite He. simpl.
    destruct (Demo.anim_timer_active (DemoUI.anim d)); simpl; eexists;
      (split; [reflexivity|]); simpl; (split; [exact Hn|]);
      (split; [split; reflexivity | exact Hsame]).
  - eexists. split; [reflexivity|]. unfold DemoUI._set_anim_enabled. cbv zeta.
    destruct enabled; simpl; rewrite He; simpl.
    + split; [exact Hn|]. split; [split; simpl; assumption | exact Hsame].
    + destruct (Demo.anim_timer_active (DemoUI.anim d)); simpl;
        (split; [exact Hn|]); (split; [split; simpl; [reflexivity | exact Hh]
                                      | exact Hsame]).
  - destruct enabled; [|contradiction]. eexists. split; [reflexivity|].
    repeat split; assumption.
  - eexists. split; [reflexivity|]. repeat split; assumption.
  - eexists. split; [reflexivity|]. repeat split; assumption.
Qed.

(** X25. With the native menu switched on, the demo never shows its
    radial options: from a state without effects and hit regions, every
    run of events that does not switch the native menu off ends without
    effects and hit regions, whatever is pressed, clicked or chosen in
    the menu, and every line printed on the way is the line of a native
    selection. *)
Theorem native_menu_shows_no_options (evs : list DemoUI.Event) (d : DemoUI.Widget) :
  DemoUI.use_native_menu d = true -> demo_idle d -> keeps_native_menu evs = true ->
  exists d',
    DemoUI.run evs d = Some d' /\ DemoUI.use_native_menu d' = true /\ demo_idle d'
    /\ exists new,
         DemoUI.printed d' = new ++ DemoUI.printed d
         /\ Forall (fun l => exists opt, l = DemoUI.PrintNativeSelected opt) new.
Proof.
  revert d. induction evs as [|ev rest IH]; intros d Hn Hi Hk; simpl.
  - exists d. split; [reflexivity|]. split; [exact Hn|]. split; [exact Hi|].
    exists []. split; [reflexivity | constructor].
  - simpl in Hk. apply andb_true_iff in Hk as [Hev Hk].
    destruct (native_step_idle ev d Hn Hi) as (d1 & Hs & Hn1 & Hi1 & new1 & Hp1 & Hf1).
    { destruct ev; try exact I. destruct enabled; [exact I | discriminate]. }
    rewrite Hs. simpl.
    destruct (IH d1 Hn1 Hi1 Hk) as (d' & Hr & Hn' & Hi' & new & Hp & Hf).
    exists d'. split; [exact Hr|]. split; [exact Hn'|]. split; [exact Hi'|].
    exists (new ++ new1). split; [rewrite Hp, Hp1, app_assoc; reflexivity|].
    apply Forall_app. split; assumption.
Qed.

End DemoInvariants.

(** ** The further properties on the sample data *)

(** A run over the shown sample overlay without a left-button release. *)
Lemma only_left_release_invokes_witness :
  exists w',
    run (H := Coarse.libm)
        [EvPaint 0 0; EvMouseRelease 0 MiddleButton 200 150 (1 # 100);
         EvAnimTick 0; EvLeaveCheck 0 (mkPoint 900 900) (2 # 100);
         EvPaint 0 (1 # 2); EvClose 0] Sample.shown
    = Some w'
    /\ calls w' = calls Sample.shown.
Proof.
  apply (only_left_release_invokes (H := Coarse.libm)). reflexivity.
Defined.

(** A click in the corner of the settled sample overlay. *)
Lemma click_away_dismisses_witness :
  calls (mouseReleaseEvent 0 LeftButton 5 5 (6 # 10) Sample.settled)
  = calls Sample.settled.
Proof.
  apply (click_away_dismisses 0%nat 5 5 (6 # 10) Sample.settled
           (Sample.overlay_of Sample.settled 0));
    vm_compute; reflexivity.
Defined.

(** The overlay without options, shown. *)
Lemma no_options_no_targets_witness :
  exists o1,
    objs (show_at (H := Coarse.libm) 0 Sample.click Sample.window Sample.clock
                  Cases.empty_world) !! 0%nat = Some o1
    /\ options o1 = [] /\ effects o1 = [].
Proof.
  destruct (no_options_no_targets (H := Coarse.libm) 0%nat Sample.click Sample.window
              Sample.clock Cases.empty_world (init_overlay []))
    as (o1 & H1 & H2 & H3 & _); [reflexivity | reflexivity |].
  exists o1. split; [exact H1|]. split; [exact H2 | exact H3].
Defined.

(** The sample options shown without entry animation. *)
Lemma show_at_without_animation_witness :
  exists o1,
    objs (show_at (H := Coarse.libm) 0 Sample.click Sample.window Sample.clock
                  Cases.static_world) !! 0%nat = Some o1
    /\ length (effects o1) = 2%nat
    /\ Forall (fun e => e_progress e = 1%Q) (effects o1).
Proof.
  destruct (show_at_without_animation (H := Coarse.libm) 0%nat Sample.click Sample.window
              Sample.clock Cases.static_world Cases.static_overlay)
    as (o1 & H1 & H2 & H3 & _); [reflexivity | reflexivity |].
  exists o1. split; [exact H1|]. split; [exact H2 | exact H3].
Defined.

(** A paint of the shown sample overlay at time 1/10. *)
Lemma progress_in_unit_range_witness :
  exists w',
    paintEvent (H := Coarse.libm) 0 (1 # 10) Sample.shown = Some w'
    /\ Forall in_unit (progress_of w' 0).
Proof.
  apply (progress_in_unit_range (H := Coarse.libm) 0%nat (1 # 10) Sample.shown
           (Sample.overlay_of Sample.shown 0)).
  - vm_compute; reflexivity.
  - reflexivity.
  - repeat constructor; vm_compute; discriminate.
  - intros c Hc. vm_compute in Hc. discriminate.
Defined.

(** A paint of the shown sample overlay after the entry duration. *)
Lemma entry_end_stops_timer_witness :
  exists o',
    paintEvent (H := Coarse.libm) 0 (1 # 2) Sample.shown = Some (put 0 o' Sample.shown)
    /\ anim_timer_active o' = false
    /\ Forall (fun e => e_progress e == 1) (effects o').
Proof.
  destruct (entry_end_stops_timer (H := Coarse.libm) 0%nat (1 # 2) Sample.shown
              (Sample.overlay_of Sample.shown 0)
              ltac:(vm_compute; reflexivity) eq_refl eq_refl eq_refl)
    as (o' & H1 & H2 & H3 & _).
  - repeat constructor; vm_compute; discriminate.
  - exists o'. split; [exact H1|]. split; [exact H2 | exact H3].
Defined.

(** The sample overlay, closing since 6/10, painted at time 1. *)
Lemma exit_end_closes_witness :
  exists w',
    paintEvent (H := Coarse.libm) 0 1 Cases.leaving = Some w'
    /\ is_visible w' 0 = false
    /\ progress_of w' 0 = [] /\ hit_regions_of w' 0 = [].
Proof.
  destruct (proj1 (exit_end_closes (H := Coarse.libm) 0%nat 1 (6 # 10) Cases.leaving
                     (Sample.overlay_of Cases.leaving 0)
                     ltac:(vm_compute; reflexivity) eq_refl eq_refl eq_refl
                     ltac:(vm_compute; reflexivity)
                     ltac:(vm_compute; discriminate) eq_refl))
    as (w' & H1 & H2 & H3 & H4 & _).
  - left. vm_compute. discriminate.
  - exists w'. split; [exact H1|]. split; [exact H2|]. split; [exact H3 | exact H4].
Defined.

(** The pointer far from the settled sample overlay at time 6/10, a
    tick, a paint at 65/100, another tick, and a paint at time 1. *)
Lemma auto_dismiss_runs_to_close_witness :
  exists w',
    run (H := Coarse.libm)
        (EvLeaveCheck 0 (mkPoint 900 900) (6 # 10)
         :: [EvAnimTick 0; EvPaint 0 (65 # 100); EvAnimTick 0] ++ [EvPaint 0 1])
        Sample.settled
    = Some w'
    /\ is_visible w' 0 = false
    /\ progress_of w' 0 = [] /\ hit_regions_of w' 0 = [].
Proof.
  destruct (proj1 (auto_dismiss_runs_to_close (H := Coarse.libm) 0%nat (mkPoint 900 900)
                     (mkPoint 300 250) (6 # 10) 1
                     [EvAnimTick 0; EvPaint 0 (65 # 100); EvAnimTick 0] Sample.settled
                     (Sample.overlay_of Sample.settled 0)
                     ltac:(vm_compute; reflexivity) eq_refl eq_refl eq_refl eq_refl
                     eq_refl eq_refl ltac:(vm_compute; discriminate)))
    as (w' & H1 & H2 & H3 & H4 & _).
  - vm_compute. discriminate.
  - vm_compute. reflexivity.
  - vm_compute. discriminate.
  - exists w'. split; [exact H1|]. split; [exact H2|]. split; [exact H3 | exact H4].
Defined.

(** The leaving sample overlay shown again. *)
Lemma show_at_keeps_closing_state_witness :
  exists o1,
    objs (show_at (H := Coarse.libm) 0 Sample.click Sample.window Sample.clock
                  Cases.leaving) !! 0%nat = Some o1
    /\ _closing o1 = true /\ _closing_start o1 = Some (6 # 10).
Proof.
  destruct (show_at_keeps_closing_state (H := Coarse.libm) 0%nat Sample.click Sample.window
              Sample.clock Cases.leaving (Sample.overlay_of Cases.leaving 0))
    as (o1 & H1 & H2 & H3 & _); [vm_compute; reflexivity|].
  exists o1. split; [exact H1|]. split; [exact H2 | exact H3].
Defined.

(** The sample overlay, shown and painted at time 1/10. *)
Lemma hit_region_shows_its_option_witness :
  exists o2,
    paintEvent (H := Coarse.libm) 0 (1 # 10)
               (show_at (H := Coarse.libm) 0 Sample.click Sample.window Sample.clock
                        Sample.world0)
    = Some (put 0 o2 (show_at (H := Coarse.libm) 0 Sample.click Sample.window Sample.clock
                              Sample.world0))
    /\ length (effects o2) = 2%nat
    /\ length (_hit_regions o2) = 2%nat.
Proof.
  destruct (hit_region_shows_its_option (H := Coarse.libm) 0%nat Sample.click Sample.window
              Sample.clock (1 # 10) Sample.world0 (init_overlay Sample.opts))
    as (o2 & H1 & _ & H3 & H4 & _); [reflexivity | reflexivity | reflexivity |].
  exists o2. split; [exact H1|]. split; [exact H3 | exact H4].
Defined.

(** The first effect of the sample overlay at progress 1/2. *)
Lemma hit_rectangle_size_witness :
  (60 <= width (effect_rect (H := Coarse.libm) (Sample.overlay_of Sample.shown 0) (1 # 2)
                            (mkEffect (mkPoint 200 150) 0 "red" 0 0 18 100 36)) <= 100)%Z
  /\ (80 <= base_dist (Sample.overlay_of Sample.shown 0) <= 140)%Z.
Proof.
  destruct (hit_rectangle_size (H := Coarse.libm) (Sample.overlay_of Sample.shown 0) (1 # 2)
              (mkEffect (mkPoint 200 150) 0 "red" 0 0 18 100 36))
    as (H1 & _ & H3 & _).
  - split; vm_compute; discriminate.
  - reflexivity.
  - reflexivity.
  - split; [exact H1 | exact H3].
Defined.

(** A middle press 5 pixels from the corner of the demo widget, painted
    at time 1/10. *)
Lemma demo_options_stay_on_screen_witness :
  exists a',
    Demo.paintEvent (H := Coarse.libm) (1 # 10) (DemoUI.anim Cases.demo_pressed) = Some a'
    /\ length (Demo._hit_regions a') = 4%nat
    /\ Forall (fun h => within Demo.margin 640 480 h.1) (Demo._hit_regions a').
Proof.
  destruct (demo_options_stay_on_screen (H := Coarse.libm) Cases.demo_widget 5 5 (1 # 10)
              Sample.clock)
    as (a' & H1 & H2 & H3 & _); [reflexivity | simpl; lia | simpl; lia |].
  exists a'. split; [exact H1|]. split; [exact H2 | exact H3].
Defined.

(** A left click at time 1/2 on the pressed demo widget, painted at
    time 1. *)
Lemma demo_left_click_dismisses_witness :
  exists a',
    Demo.paintEvent (H := Coarse.libm) 1
      (DemoUI.anim (DemoUI.mouseReleaseEvent LeftButton 300 300 (1 # 2) Cases.demo_pressed))
    = Some a'
    /\ demo_cleared a'.
Proof.
  apply (demo_left_click_dismisses (H := Coarse.libm) Cases.demo_pressed 300 300 (1 # 2) 1).
  - vm_compute. discriminate.
  - vm_compute. discriminate.
Defined.

(** The demo with two options and the sample overlay, both opened at the
    local point (200, 150) of a 640 by 480 area. *)
Lemma demo_lays_out_like_overlay_witness :
  map Demo.e_angle
      (Demo.effects
         (DemoUI.anim (DemoUI.mousePressEvent (H := Coarse.libm) MiddleButton 200 150
                                              Sample.clock None Cases.demo_two)))
  = map e_angle (opening_effects (H := Coarse.libm) Sample.click Sample.window Sample.clock
                                 (init_overlay Sample.opts)).
Proof.
  apply (demo_lays_out_like_overlay (H := Coarse.libm) Cases.demo_two 200 150 Sample.clock
           Sample.clock Sample.click Sample.window (init_overlay Sample.opts));
    reflexivity.
Defined.

(** The pointer moved 5 pixels away from the press on the demo widget. *)
Lemma demo_auto_close_after_press_witness :
  DemoUI.mouseMoveEvent 8 9 (1 # 2) Cases.demo_pressed = Cases.demo_pressed.
Proof.
  apply (proj1 (demo_auto_close_after_press (H := Coarse.libm) Cases.demo_widget 5 5 8 9
                  (1 # 2) 1 Sample.clock eq_refl eq_refl ltac:(discriminate)
                  ltac:(simpl; lia))).
  vm_compute. discriminate.
Defined.

Lemma cases_env_by_id : get_tag_by_id Cases.env.
Proof.
  intros tid t Hg. unfold Cases.env, Thumb.get_tag in Hg.
  apply find_some in Hg. destruct Hg as [_ Hid].
  apply Z.eqb_eq, Hid.
Qed.

(** The sample library, a click on entry 3 without bulk application. *)
Lemma tag_option_adds_its_tag_witness :
  Forall (fun o => Thumb.action_tag (Thumb.opt_action o) = Thumb.id (Thumb.opt_tag o)
                   /\ (false = false ->
                       Thumb.action_tag (Thumb.opt_action o)
                       ∉ Thumb.existing_tag_ids Cases.env false 3))
         (Thumb.overlay_opts Cases.env false 3 6).
Proof.
  apply (tag_option_adds_its_tag Cases.env false 3 6 cases_env_by_id).
Defined.

(** The sample library with the limit 2. *)
Lemma tag_options_within_limit_witness :
  (Z.of_nat (length (Thumb.overlay_opts Cases.env true 3 2)) <= 2)%Z.
Proof.
  apply (proj1 (tag_options_within_limit Cases.env true 3 2 ltac:(lia))).
Defined.

(** Tag 1, the favourite tag, added to entry 3. *)
Lemma single_add_is_bulk_add_of_one_witness :
  Thumb._add_tag_and_record 1 0 Cases.env (Some 3%Z) 1
  = map (with_origin (Some 3%Z)) (Thumb._add_tag_and_record_multi 1 0 Cases.env 1 [3%Z]).
Proof.
  apply (proj1 (single_add_is_bulk_add_of_one 1 0 Cases.env 3 1 ltac:(discriminate))).
Defined.

(** A press, a paint, a click on the widget and a paint after the exit,
    from a new demo widget. *)
Lemma demo_stays_consistent_witness :
  exists d',
    DemoUI.run (H := Coarse.libm)
      [DemoUI.EvPress MiddleButton 5 5 Sample.clock None; DemoUI.EvPaint (1 # 10);
       DemoUI.EvRelease LeftButton 20 90 (2 # 10); DemoUI.EvPaint 1]
      Cases.demo_widget
    = Some d'
    /\ demo_consistent d'.
Proof.
  destruct (demo_stays_consistent (H := Coarse.libm)
              [DemoUI.EvPress MiddleButton 5 5 Sample.clock None; DemoUI.EvPaint (1 # 10);
               DemoUI.EvRelease LeftButton 20 90 (2 # 10); DemoUI.EvPaint 1]
              Cases.demo_widget)
    as (d' & H1 & H2 & _).
  - split; [intros Hne; exfalso; apply Hne; reflexivity|].
    split; [left; reflexivity | constructor].
  - exists d'. split; [exact H1 | exact H2].
Defined.

(** The new demo widget with the native menu switched on: a press with
    the third action chosen, a left click, a timer tick and a paint. *)
Lemma native_menu_shows_no_options_witness :
  exists d',
    DemoUI.run (H := Coarse.libm)
      [DemoUI.EvPress MiddleButton 5 5 Sample.clock (Some 2%nat);
       DemoUI.EvRelease LeftButton 5 5 (1 # 2); DemoUI.EvAnimTick; DemoUI.EvPaint 1]
      (DemoUI._set_native_menu true Cases.demo_widget)
    = Some d'
    /\ DemoUI.use_native_menu d' = true /\ demo_idle d'.
Proof.
  destruct (native_menu_shows_no_options (H := Coarse.libm)
              [DemoUI.EvPress MiddleButton 5 5 Sample.clock (Some 2%nat);
               DemoUI.EvRelease LeftButton 5 5 (1 # 2); DemoUI.EvAnimTick; DemoUI.EvPaint 1]
              (DemoUI._set_native_menu true Cases.demo_widget))
    as (d' & H1 & H2 & H3 & _);
    [reflexivity | split; reflexivity | reflexivity |].
  exists d'. split; [exact H1|]. split; [exact H2 | exact H3].
Defined.

(** A duration of zero, one timer tick (16 ms) after the phase began. *)
Lemma tick_division_guarded_witness :
  (time_fraction (16 # 1000) 0 == 1)%Q
  /\ (ease_out_cubic (time_fraction (16 # 1000) 0) == 1
      /\ Py.lt (ease_out_cubic (time_fraction (16 # 1000) 0)) 1 = false)%Q.
Proof.
  destruct (tick_division_guarded (H := Coarse.libm))
    as (_ & _ & _ & _ & _ & _ & _ & _ & _ & Hzero & Hdone).
  assert (Ht : (time_fraction (16 # 1000) 0 == 1)%Q).
  { apply (proj1 (Hzero (16 # 1000)%Q 0%Q ltac:(apply Qle_bool_iff; reflexivity))).
    apply Qle_bool_iff. reflexivity. }
  split; [exact Ht|].
  destruct (Hdone _ 0%Q Ht) as (H1 & H2 & _). split; [exact H1 | exact H2].
Defined.

(** With an entry duration of zero, the first paint after [show_at]
    does not complete the animation when it comes less than [1e-6]
    seconds after the start: a paint that reads the same clock value
    stores progress 0, a paint half a microsecond later has [t = 1/2] and
    stores 7/8, and both leave the animation timer running. *)
Lemma zero_duration_tick_before_guard :
  exists w0 w1,
    anim_in_duration (Sample.overlay_of Cases.instant 0) = 0%Q
    /\ map e_start (effects (Sample.overlay_of Cases.instant 0)) = [0%Q; 0%Q]
    /\ run (H := Coarse.libm) [EvPaint 0 0] Cases.instant = Some w0
    /\ Forall (fun p => p == 0)%Q (progress_of w0 0)
    /\ length (progress_of w0 0) = 2%nat
    /\ anim_timer_active (Sample.overlay_of w0 0) = true
    /\ run (H := Coarse.libm) [EvPaint 0 (1 # 2000000)] Cases.instant = Some w1
    /\ Forall (fun p => p == 7 # 8)%Q (progress_of w1 0)
    /\ length (progress_of w1 0) = 2%nat
    /\ anim_timer_active (Sample.overlay_of w1 0) = true
    /\ (time_fraction (1 # 2000000) 0 == 1 # 2)%Q
    /\ ~ (1 # 2 == 1)%Q.
Proof.
  eexists. eexists.
  split; [vm_compute; reflexivity|].
  split; [vm_compute; reflexivity|].
  split; [vm_compute; reflexivity|].
  split; [vm_compute; repeat constructor|].
  split; [vm_compute; reflexivity|].
  split; [vm_compute; reflexivity|].
  split; [vm_compute; reflexivity|].
  split; [vm_compute; repeat constructor|].
  split; [vm_compute; reflexivity|].
  split; [vm_compute; reflexivity|].
  split; [vm_compute; reflexivity|].
  vm_compute. discriminate.
Qed.
